(** * SonicWave: the in-memory music library and its coordinator

    A shallow embedding of [data_structures.py], [models.py] and
    [music_manager.py].

    - [Song] objects are shared and mutated through several containers, so
      they live in an explicit heap; every container stores heap locations,
      exactly as the Python containers store references.  Objects are never
      freed: a song that left the library is still reachable from a queue,
      a history or a playlist that holds it.
    - A node-based linked structure is represented by the sequence of its
      node payloads in link order.
    - Dictionaries are finite maps.
    - A string is the UTF-8 encoding of a Python [str]; byte strings are
      compared lexicographically, which is the order of the code points.
    - The directory listing is an argument of [rescan]; the outcomes of the
      calls to [random] are an argument of the operations that make them.
    - Python truthiness is written out: a [Song] is always true, a string
      when non-empty, an integer when non-zero. *)

From stdpp Require Import base gmap list strings pretty sorting.
From Stdlib Require OrderedTypeEx.
From Stdlib Require Import Ascii.

(** ** Python string primitives *)

Module PyStr.

(** A Python [str] is a sequence of Unicode code points.  A string of the
    model is its UTF-8 encoding: comparison, concatenation, suffix and
    substring tests on the code points are the same operations on the
    bytes.  Only [lower] has to look at the code points. *)

(** One element of a decoded string: a code point, or a byte that belongs
    to no well-formed UTF-8 sequence and is kept as it is. *)
Inductive uchar :=
| Code (cp : Z)
| Raw (b : ascii).

Definition byte_val (c : ascii) : Z := Z.of_N (Ascii.N_of_ascii c).
Definition byte_of (n : Z) : ascii := Ascii.ascii_of_N (Z.to_N n).

(** The payload of a continuation byte [10xxxxxx]. *)
Definition continuation (c : ascii) : option Z :=
  let n := byte_val c in
  if ((128 <=? n) && (n <? 192))%Z then Some (n - 128)%Z else None.

Fixpoint decode (s : string) : list uchar :=
  match s with
  | EmptyString => []
  | String c s1 =>
      let n := byte_val c in
      if (n <? 128)%Z then Code n :: decode s1
      else if ((194 <=? n) && (n <? 224))%Z then
        match s1 with
        | String c1 s2 =>
            match continuation c1 with
            | Some x1 => Code ((n - 192) * 64 + x1)%Z :: decode s2
            | None => Raw c :: decode s1
            end
        | EmptyString => Raw c :: decode s1
        end
      else if ((224 <=? n) && (n <? 240))%Z then
        match s1 with
        | String c1 (String c2 s3) =>
            match continuation c1, continuation c2 with
            | Some x1, Some x2 =>
                let cp := ((n - 224) * 4096 + x1 * 64 + x2)%Z in
                if ((2048 <=? cp)
                    && negb ((55296 <=? cp) && (cp <? 57344)))%Z
                then Code cp :: decode s3
                else Raw c :: decode s1
            | _, _ => Raw c :: decode s1
            end
        | _ => Raw c :: decode s1
        end
      else if ((240 <=? n) && (n <? 245))%Z then
        match s1 with
        | String c1 (String c2 (String c3 s4)) =>
            match continuation c1, continuation c2, continuation c3 with
            | Some x1, Some x2, Some x3 =>
                let cp :=
                  ((n - 240) * 262144 + x1 * 4096 + x2 * 64 + x3)%Z in
                if ((65536 <=? cp) && (cp <? 1114112))%Z
                then Code cp :: decode s4
                else Raw c :: decode s1
            | _, _, _ => Raw c :: decode s1
            end
        | _ => Raw c :: decode s1
        end
      else Raw c :: decode s1
  end.

Definition encode_code (cp : Z) : string :=
  if (cp <? 128)%Z then String (byte_of cp) EmptyString
  else if (cp <? 2048)%Z then
    String (byte_of (192 + cp / 64))
      (String (byte_of (128 + cp mod 64)) EmptyString)
  else if (cp <? 65536)%Z then
    String (byte_of (224 + cp / 4096))
      (String (byte_of (128 + (cp / 64) mod 64))
         (String (byte_of (128 + cp mod 64)) EmptyString))
  else
    String (byte_of (240 + cp / 262144))
      (String (byte_of (128 + (cp / 4096) mod 64))
         (String (byte_of (128 + (cp / 64) mod 64))
            (String (byte_of (128 + cp mod 64)) EmptyString))).

Fixpoint encode (l : list uchar) : string :=
  match l with
  | [] => EmptyString
  | Code cp :: l' => encode_code cp +:+ encode l'
  | Raw b :: l' => String b (encode l')
  end.

(** The lower-case mapping of the Unicode character database (version 14,
    the one CPython 3.11 carries), run-length encoded: an entry
    [(first, last, step, delta)] sends each of the code points [first],
    [first + step], ..., [last] to itself plus [delta].  Every other code
    point is its own lower case, except U+0130, which becomes two code
    points. *)
Definition lower_runs : list (Z * Z * Z * Z) :=
  [
   (65, 90, 1, 32); (192, 214, 1, 32); (216, 222, 1, 32); (256, 302, 2, 1);
   (306, 310, 2, 1); (313, 327, 2, 1); (330, 374, 2, 1);
   (376, 376, 1, -121); (377, 381, 2, 1); (385, 385, 1, 210);
   (386, 388, 2, 1); (390, 390, 1, 206); (391, 391, 1, 1);
   (393, 394, 1, 205); (395, 395, 1, 1); (398, 398, 1, 79);
   (399, 399, 1, 202); (400, 400, 1, 203); (401, 401, 1, 1);
   (403, 403, 1, 205); (404, 404, 1, 207); (406, 406, 1, 211);
   (407, 407, 1, 209); (408, 408, 1, 1); (412, 412, 1, 211);
   (413, 413, 1, 213); (415, 415, 1, 214); (416, 420, 2, 1);
   (422, 422, 1, 218); (423, 423, 1, 1); (425, 425, 1, 218);
   (428, 428, 1, 1); (430, 430, 1, 218); (431, 431, 1, 1);
   (433, 434, 1, 217); (435, 437, 2, 1); (439, 439, 1, 219);
   (440, 440, 1, 1); (444, 444, 1, 1); (452, 452, 1, 2); (453, 453, 1, 1);
   (455, 455, 1, 2); (456, 456, 1, 1); (458, 458, 1, 2); (459, 475, 2, 1);
   (478, 494, 2, 1); (497, 497, 1, 2); (498, 500, 2, 1); (502, 502, 1, -97);
   (503, 503, 1, -56); (504, 542, 2, 1); (544, 544, 1, -130);
   (546, 562, 2, 1); (570, 570, 1, 10795); (571, 571, 1, 1);
   (573, 573, 1, -163); (574, 574, 1, 10792); (577, 577, 1, 1);
   (579, 579, 1, -195); (580, 580, 1, 69); (581, 581, 1, 71);
   (582, 590, 2, 1); (880, 882, 2, 1); (886, 886, 1, 1); (895, 895, 1, 116);
   (902, 902, 1, 38); (904, 906, 1, 37); (908, 908, 1, 64);
   (910, 911, 1, 63); (913, 929, 1, 32); (931, 939, 1, 32);
   (975, 975, 1, 8); (984, 1006, 2, 1); (1012, 1012, 1, -60);
   (1015, 1015, 1, 1); (1017, 1017, 1, -7); (1018, 1018, 1, 1);
   (1021, 1023, 1, -130); (1024, 1039, 1, 80); (1040, 1071, 1, 32);
   (1120, 1152, 2, 1); (1162, 1214, 2, 1); (1216, 1216, 1, 15);
   (1217, 1229, 2, 1); (1232, 1326, 2, 1); (1329, 1366, 1, 48);
   (4256, 4293, 1, 7264); (4295, 4295, 1, 7264); (4301, 4301, 1, 7264);
   (5024, 5103, 1, 38864); (5104, 5109, 1, 8); (7312, 7354, 1, -3008);
   (7357, 7359, 1, -3008); (7680, 7828, 2, 1); (7838, 7838, 1, -7615);
   (7840, 7934, 2, 1); (7944, 7951, 1, -8); (7960, 7965, 1, -8);
   (7976, 7983, 1, -8); (7992, 7999, 1, -8); (8008, 8013, 1, -8);
   (8025, 8031, 2, -8); (8040, 8047, 1, -8); (8072, 8079, 1, -8);
   (8088, 8095, 1, -8); (8104, 8111, 1, -8); (8120, 8121, 1, -8);
   (8122, 8123, 1, -74); (8124, 8124, 1, -9); (8136, 8139, 1, -86);
   (8140, 8140, 1, -9); (8152, 8153, 1, -8); (8154, 8155, 1, -100);
   (8168, 8169, 1, -8); (8170, 8171, 1, -112); (8172, 8172, 1, -7);
   (8184, 8185, 1, -128); (8186, 8187, 1, -126); (8188, 8188, 1, -9);
   (8486, 8486, 1, -7517); (8490, 8490, 1, -8383); (8491, 8491, 1, -8262);
   (8498, 8498, 1, 28); (8544, 8559, 1, 16); (8579, 8579, 1, 1);
   (9398, 9423, 1, 26); (11264, 11311, 1, 48); (11360, 11360, 1, 1);
   (11362, 11362, 1, -10743); (11363, 11363, 1, -3814);
   (11364, 11364, 1, -10727); (11367, 11371, 2, 1);
   (11373, 11373, 1, -10780); (11374, 11374, 1, -10749);
   (11375, 11375, 1, -10783); (11376, 11376, 1, -10782);
   (11378, 11378, 1, 1); (11381, 11381, 1, 1); (11390, 11391, 1, -10815);
   (11392, 11490, 2, 1); (11499, 11501, 2, 1); (11506, 11506, 1, 1);
   (42560, 42604, 2, 1); (42624, 42650, 2, 1); (42786, 42798, 2, 1);
   (42802, 42862, 2, 1); (42873, 42875, 2, 1); (42877, 42877, 1, -35332);
   (42878, 42886, 2, 1); (42891, 42891, 1, 1); (42893, 42893, 1, -42280);
   (42896, 42898, 2, 1); (42902, 42920, 2, 1); (42922, 42922, 1, -42308);
   (42923, 42923, 1, -42319); (42924, 42924, 1, -42315);
   (42925, 42925, 1, -42305); (42926, 42926, 1, -42308);
   (42928, 42928, 1, -42258); (42929, 42929, 1, -42282);
   (42930, 42930, 1, -42261); (42931, 42931, 1, 928); (42932, 42946, 2, 1);
   (42948, 42948, 1, -48); (42949, 42949, 1, -42307);
   (42950, 42950, 1, -35384); (42951, 42953, 2, 1); (42960, 42960, 1, 1);
   (42966, 42968, 2, 1); (42997, 42997, 1, 1); (65313, 65338, 1, 32);
   (66560, 66599, 1, 40); (66736, 66771, 1, 40); (66928, 66938, 1, 39);
   (66940, 66954, 1, 39); (66956, 66962, 1, 39); (66964, 66965, 1, 39);
   (68736, 68786, 1, 64); (71840, 71871, 1, 32); (93760, 93791, 1, 32);
   (125184, 125217, 1, 34)
  ]%Z.

Definition in_run (cp : Z) (run : Z * Z * Z * Z) : bool :=
  let '(first, last, step, _) := run in
  ((first <=? cp) && (cp <=? last) && ((cp - first) mod step =? 0))%Z.

Definition lower_code (cp : Z) : list Z :=
  if (cp =? 304)%Z then [105; 775]%Z
  else match List.find (in_run cp) lower_runs with
       | Some (_, _, _, delta) => [(cp + delta)%Z]
       | None => [cp]
       end.

(** The code points with the property Cased that are not Case_Ignorable,
    and the code points with the property Case_Ignorable, as ranges
    [(first, last)]. *)
Definition cased_ranges : list (Z * Z) :=
  [
   (65, 90); (97, 122); (170, 170); (181, 181); (186, 186); (192, 214);
   (216, 246); (248, 442); (444, 447); (452, 659); (661, 687); (880, 883);
   (886, 887); (891, 893); (895, 895); (902, 902); (904, 906); (908, 908);
   (910, 929); (931, 1013); (1015, 1153); (1162, 1327); (1329, 1366);
   (1376, 1416); (4256, 4293); (4295, 4295); (4301, 4301); (4304, 4346);
   (4349, 4351); (5024, 5109); (5112, 5117); (7296, 7304); (7312, 7354);
   (7357, 7359); (7424, 7467); (7531, 7543); (7545, 7578); (7680, 7957);
   (7960, 7965); (7968, 8005); (8008, 8013); (8016, 8023); (8025, 8025);
   (8027, 8027); (8029, 8029); (8031, 8061); (8064, 8116); (8118, 8124);
   (8126, 8126); (8130, 8132); (8134, 8140); (8144, 8147); (8150, 8155);
   (8160, 8172); (8178, 8180); (8182, 8188); (8450, 8450); (8455, 8455);
   (8458, 8467); (8469, 8469); (8473, 8477); (8484, 8484); (8486, 8486);
   (8488, 8488); (8490, 8493); (8495, 8500); (8505, 8505); (8508, 8511);
   (8517, 8521); (8526, 8526); (8544, 8575); (8579, 8580); (9398, 9449);
   (11264, 11387); (11390, 11492); (11499, 11502); (11506, 11507);
   (11520, 11557); (11559, 11559); (11565, 11565); (42560, 42605);
   (42624, 42651); (42786, 42863); (42865, 42887); (42891, 42894);
   (42896, 42954); (42960, 42961); (42963, 42963); (42965, 42969);
   (42997, 42998); (43002, 43002); (43824, 43866); (43872, 43880);
   (43888, 43967); (64256, 64262); (64275, 64279); (65313, 65338);
   (65345, 65370); (66560, 66639); (66736, 66771); (66776, 66811);
   (66928, 66938); (66940, 66954); (66956, 66962); (66964, 66965);
   (66967, 66977); (66979, 66993); (66995, 67001); (67003, 67004);
   (68736, 68786); (68800, 68850); (71840, 71903); (93760, 93823);
   (119808, 119892); (119894, 119964); (119966, 119967); (119970, 119970);
   (119973, 119974); (119977, 119980); (119982, 119993); (119995, 119995);
   (119997, 120003); (120005, 120069); (120071, 120074); (120077, 120084);
   (120086, 120092); (120094, 120121); (120123, 120126); (120128, 120132);
   (120134, 120134); (120138, 120144); (120146, 120485); (120488, 120512);
   (120514, 120538); (120540, 120570); (120572, 120596); (120598, 120628);
   (120630, 120654); (120656, 120686); (120688, 120712); (120714, 120744);
   (120746, 120770); (120772, 120779); (122624, 122633); (122635, 122654);
   (125184, 125251); (127280, 127305); (127312, 127337); (127344, 127369)
  ]%Z.

Definition case_ignorable_ranges : list (Z * Z) :=
  [
   (39, 39); (46, 46); (58, 58); (94, 94); (96, 96); (168, 168); (173, 173);
   (175, 175); (180, 180); (183, 184); (688, 879); (884, 885); (890, 890);
   (900, 901); (903, 903); (1155, 1161); (1369, 1369); (1375, 1375);
   (1425, 1469); (1471, 1471); (1473, 1474); (1476, 1477); (1479, 1479);
   (1524, 1524); (1536, 1541); (1552, 1562); (1564, 1564); (1600, 1600);
   (1611, 1631); (1648, 1648); (1750, 1757); (1759, 1768); (1770, 1773);
   (1807, 1807); (1809, 1809); (1840, 1866); (1958, 1968); (2027, 2037);
   (2042, 2042); (2045, 2045); (2070, 2093); (2137, 2139); (2184, 2184);
   (2192, 2193); (2200, 2207); (2249, 2306); (2362, 2362); (2364, 2364);
   (2369, 2376); (2381, 2381); (2385, 2391); (2402, 2403); (2417, 2417);
   (2433, 2433); (2492, 2492); (2497, 2500); (2509, 2509); (2530, 2531);
   (2558, 2558); (2561, 2562); (2620, 2620); (2625, 2626); (2631, 2632);
   (2635, 2637); (2641, 2641); (2672, 2673); (2677, 2677); (2689, 2690);
   (2748, 2748); (2753, 2757); (2759, 2760); (2765, 2765); (2786, 2787);
   (2810, 2815); (2817, 2817); (2876, 2876); (2879, 2879); (2881, 2884);
   (2893, 2893); (2901, 2902); (2914, 2915); (2946, 2946); (3008, 3008);
   (3021, 3021); (3072, 3072); (3076, 3076); (3132, 3132); (3134, 3136);
   (3142, 3144); (3146, 3149); (3157, 3158); (3170, 3171); (3201, 3201);
   (3260, 3260); (3263, 3263); (3270, 3270); (3276, 3277); (3298, 3299);
   (3328, 3329); (3387, 3388); (3393, 3396); (3405, 3405); (3426, 3427);
   (3457, 3457); (3530, 3530); (3538, 3540); (3542, 3542); (3633, 3633);
   (3636, 3642); (3654, 3662); (3761, 3761); (3764, 3772); (3782, 3782);
   (3784, 3789); (3864, 3865); (3893, 3893); (3895, 3895); (3897, 3897);
   (3953, 3966); (3968, 3972); (3974, 3975); (3981, 3991); (3993, 4028);
   (4038, 4038); (4141, 4144); (4146, 4151); (4153, 4154); (4157, 4158);
   (4184, 4185); (4190, 4192); (4209, 4212); (4226, 4226); (4229, 4230);
   (4237, 4237); (4253, 4253); (4348, 4348); (4957, 4959); (5906, 5908);
   (5938, 5939); (5970, 5971); (6002, 6003); (6068, 6069); (6071, 6077);
   (6086, 6086); (6089, 6099); (6103, 6103); (6109, 6109); (6155, 6159);
   (6211, 6211); (6277, 6278); (6313, 6313); (6432, 6434); (6439, 6440);
   (6450, 6450); (6457, 6459); (6679, 6680); (6683, 6683); (6742, 6742);
   (6744, 6750); (6752, 6752); (6754, 6754); (6757, 6764); (6771, 6780);
   (6783, 6783); (6823, 6823); (6832, 6862); (6912, 6915); (6964, 6964);
   (6966, 6970); (6972, 6972); (6978, 6978); (7019, 7027); (7040, 7041);
   (7074, 7077); (7080, 7081); (7083, 7085); (7142, 7142); (7144, 7145);
   (7149, 7149); (7151, 7153); (7212, 7219); (7222, 7223); (7288, 7293);
   (7376, 7378); (7380, 7392); (7394, 7400); (7405, 7405); (7412, 7412);
   (7416, 7417); (7468, 7530); (7544, 7544); (7579, 7679); (8125, 8125);
   (8127, 8129); (8141, 8143); (8157, 8159); (8173, 8175); (8189, 8190);
   (8203, 8207); (8216, 8217); (8228, 8228); (8231, 8231); (8234, 8238);
   (8288, 8292); (8294, 8303); (8305, 8305); (8319, 8319); (8336, 8348);
   (8400, 8432); (11388, 11389); (11503, 11505); (11631, 11631);
   (11647, 11647); (11744, 11775); (11823, 11823); (12293, 12293);
   (12330, 12333); (12337, 12341); (12347, 12347); (12441, 12446);
   (12540, 12542); (40981, 40981); (42232, 42237); (42508, 42508);
   (42607, 42610); (42612, 42621); (42623, 42623); (42652, 42655);
   (42736, 42737); (42752, 42785); (42864, 42864); (42888, 42890);
   (42994, 42996); (43000, 43001); (43010, 43010); (43014, 43014);
   (43019, 43019); (43045, 43046); (43052, 43052); (43204, 43205);
   (43232, 43249); (43263, 43263); (43302, 43309); (43335, 43345);
   (43392, 43394); (43443, 43443); (43446, 43449); (43452, 43453);
   (43471, 43471); (43493, 43494); (43561, 43566); (43569, 43570);
   (43573, 43574); (43587, 43587); (43596, 43596); (43632, 43632);
   (43644, 43644); (43696, 43696); (43698, 43700); (43703, 43704);
   (43710, 43711); (43713, 43713); (43741, 43741); (43756, 43757);
   (43763, 43764); (43766, 43766); (43867, 43871); (43881, 43883);
   (44005, 44005); (44008, 44008); (44013, 44013); (64286, 64286);
   (64434, 64450); (65024, 65039); (65043, 65043); (65056, 65071);
   (65106, 65106); (65109, 65109); (65279, 65279); (65287, 65287);
   (65294, 65294); (65306, 65306); (65342, 65342); (65344, 65344);
   (65392, 65392); (65438, 65439); (65507, 65507); (65529, 65531);
   (66045, 66045); (66272, 66272); (66422, 66426); (67456, 67461);
   (67463, 67504); (67506, 67514); (68097, 68099); (68101, 68102);
   (68108, 68111); (68152, 68154); (68159, 68159); (68325, 68326);
   (68900, 68903); (69291, 69292); (69446, 69456); (69506, 69509);
   (69633, 69633); (69688, 69702); (69744, 69744); (69747, 69748);
   (69759, 69761); (69811, 69814); (69817, 69818); (69821, 69821);
   (69826, 69826); (69837, 69837); (69888, 69890); (69927, 69931);
   (69933, 69940); (70003, 70003); (70016, 70017); (70070, 70078);
   (70089, 70092); (70095, 70095); (70191, 70193); (70196, 70196);
   (70198, 70199); (70206, 70206); (70367, 70367); (70371, 70378);
   (70400, 70401); (70459, 70460); (70464, 70464); (70502, 70508);
   (70512, 70516); (70712, 70719); (70722, 70724); (70726, 70726);
   (70750, 70750); (70835, 70840); (70842, 70842); (70847, 70848);
   (70850, 70851); (71090, 71093); (71100, 71101); (71103, 71104);
   (71132, 71133); (71219, 71226); (71229, 71229); (71231, 71232);
   (71339, 71339); (71341, 71341); (71344, 71349); (71351, 71351);
   (71453, 71455); (71458, 71461); (71463, 71467); (71727, 71735);
   (71737, 71738); (71995, 71996); (71998, 71998); (72003, 72003);
   (72148, 72151); (72154, 72155); (72160, 72160); (72193, 72202);
   (72243, 72248); (72251, 72254); (72263, 72263); (72273, 72278);
   (72281, 72283); (72330, 72342); (72344, 72345); (72752, 72758);
   (72760, 72765); (72767, 72767); (72850, 72871); (72874, 72880);
   (72882, 72883); (72885, 72886); (73009, 73014); (73018, 73018);
   (73020, 73021); (73023, 73029); (73031, 73031); (73104, 73105);
   (73109, 73109); (73111, 73111); (73459, 73460); (78896, 78904);
   (92912, 92916); (92976, 92982); (92992, 92995); (94031, 94031);
   (94095, 94111); (94176, 94177); (94179, 94180); (110576, 110579);
   (110581, 110587); (110589, 110590); (113821, 113822); (113824, 113827);
   (118528, 118573); (118576, 118598); (119143, 119145); (119155, 119170);
   (119173, 119179); (119210, 119213); (119362, 119364); (121344, 121398);
   (121403, 121452); (121461, 121461); (121476, 121476); (121499, 121503);
   (121505, 121519); (122880, 122886); (122888, 122904); (122907, 122913);
   (122915, 122916); (122918, 122922); (123184, 123197); (123566, 123566);
   (123628, 123631); (125136, 125142); (125252, 125259); (127995, 127999);
   (917505, 917505); (917536, 917631); (917760, 917999)
  ]%Z.

Definition in_ranges (ranges : list (Z * Z)) (u : uchar) : bool :=
  match u with
  | Code cp => existsb (λ r, ((r.1 <=? cp) && (cp <=? r.2))%Z) ranges
  | Raw _ => false
  end.

(** The first element that is not case-ignorable. *)
Fixpoint skip_ignorable (l : list uchar) : option uchar :=
  match l with
  | [] => None
  | u :: l' =>
      if in_ranges case_ignorable_ranges u then skip_ignorable l' else Some u
  end.

(** The capital sigma at the end of a word: a cased letter comes before it
    and none after it, case-ignorable characters in between not counting.
    [before] is the text before the sigma, nearest character first. *)
Definition final_sigma (before after : list uchar) : bool :=
  match skip_ignorable before with
  | Some u =>
      in_ranges cased_ranges u
      && match skip_ignorable after with
         | Some v => negb (in_ranges cased_ranges v)
         | None => true
         end
  | None => false
  end.

Fixpoint lower_from (before l : list uchar) : list uchar :=
  match l with
  | [] => []
  | u :: rest =>
      match u with
      | Code cp =>
          if (cp =? 931)%Z
          then [Code (if final_sigma before rest then 962 else 963)%Z]
          else map Code (lower_code cp)
      | Raw b => [Raw b]
      end ++ lower_from (u :: before) rest
  end.

(** [s.lower()] *)
Definition lower (s : string) : string := encode (lower_from [] (decode s)).

(** [s.replace(a, b)] for single characters [a] and [b]. *)
Fixpoint replace_char (a b : ascii) (s : string) : string :=
  match s with
  | EmptyString => EmptyString
  | String c s' =>
      String (if Ascii.eqb c a then b else c) (replace_char a b s')
  end.

(** [s.endswith(suf)] *)
Definition endswith (s suf : string) : bool :=
  (String.length suf <=? String.length s)%nat
  && String.eqb
       (String.substring (String.length s - String.length suf)
          (String.length suf) s)
       suf.

(** [q in s] on strings: [q] occurs as a contiguous block of [s]. *)
Fixpoint contains (q s : string) : bool :=
  String.prefix q s
  || match s with
     | EmptyString => false
     | String _ s' => contains q s'
     end.

(** Truthiness of a string: non-empty. *)
Definition truthy (s : string) : bool :=
  match s with EmptyString => false | _ => true end.

(** [a or b] on strings. *)
Definition or_else (a b : string) : string := if truthy a then a else b.

(** [sorted(l, key=key)]: a stable sort on string keys. An element that
    comes first in the input stays before every later element with an
    equal key. *)
Fixpoint insert_by {A} (key : A → string) (x : A) (l : list A) : list A :=
  match l with
  | [] => [x]
  | y :: l' =>
      if String.leb (key x) (key y) then x :: l
      else y :: insert_by key x l'
  end.

Definition sorted {A} (key : A → string) (l : list A) : list A :=
  foldr (insert_by key) [] l.

End PyStr.

(** ** [models.Song] *)

Record Song := mkSong {
  song_id : Z;
  title : string;
  artist : string;
  album : string;
  genre : string;
  year : Z;
  duration_seconds : Z;
  file_path : string;
  play_count : Z;
  is_favorite : bool;
}.

Global Instance Song_inhabited : Inhabited Song :=
  populate (mkSong 0 "" "" "" "" 0 0 "" 0 false).

Global Instance Song_eq_dec : EqDecision Song.
Proof. solve_decision. Defined.

(** ** Linked sequences

    [SinglyLinkedList], [DoublyLinkedList], [Stack] and [Queue] are chains of
    nodes reached from a head pointer; the list of payloads in link order is
    their whole observable state ([to_list]). *)

(** The loop shared by every [remove(predicate)]: unlink the first node whose
    payload satisfies the predicate. *)
Fixpoint remove_first {A} (predicate : A → bool) (l : list A) : list A :=
  match l with
  | [] => []
  | x :: l' => if predicate x then l' else x :: remove_first predicate l'
  end.

Module SinglyLinkedList.
Definition append {A} (data : A) (l : list A) : list A := l ++ [data].
Definition remove {A} (predicate : A → bool) (l : list A) : bool * list A :=
  (existsb predicate l, remove_first predicate l).
Definition to_list {A} (l : list A) : list A := l.
(** [__len__]: the number of nodes on the chain. *)
Definition len {A} (l : list A) : Z := Z.of_nat (length l).
End SinglyLinkedList.

Module DoublyLinkedList.
Definition append {A} (data : A) (l : list A) : list A := l ++ [data].
Definition remove {A} (predicate : A → bool) (l : list A) : bool * list A :=
  (existsb predicate l, remove_first predicate l).
Definition to_list {A} (l : list A) : list A := l.
End DoublyLinkedList.

(** The head of the list is the top of the stack. *)
Module Stack.
Definition push {A} (data : A) (st : list A) : list A := data :: st.
Definition pop {A} (st : list A) : option A * list A :=
  match st with
  | [] => (None, [])
  | data :: rest => (Some data, rest)
  end.
Definition to_list {A} (st : list A) : list A := st.
Definition peek {A} (st : list A) : option A := head st.
Definition is_empty {A} (st : list A) : bool :=
  match st with [] => true | _ => false end.
End Stack.

(** The head of the list is the front of the queue. *)
Module Queue.
Definition enqueue {A} (data : A) (q : list A) : list A := q ++ [data].
Definition dequeue {A} (q : list A) : option A * list A :=
  match q with
  | [] => (None, [])
  | data :: rest => (Some data, rest)
  end.
Definition to_list {A} (q : list A) : list A := q.
Definition peek {A} (q : list A) : option A := head q.
Definition is_empty {A} (q : list A) : bool :=
  match q with [] => true | _ => false end.
End Queue.

(** ** [GenreMultiList] *)

Module GenreMultiList.

Record GenreHeader (A : Type) := mkHeader {
  hgenre : string;
  first_song : list A;
}.
Arguments mkHeader {A} _ _.
Arguments hgenre {A} _.
Arguments first_song {A} _.

Definition same_genre (g1 g2 : string) : bool :=
  String.eqb (PyStr.lower g1) (PyStr.lower g2).

Fixpoint _find_genre {A} (g : string) (hs : list (GenreHeader A))
  : option (GenreHeader A) :=
  match hs with
  | [] => None
  | h :: hs' => if same_genre (hgenre h) g then Some h else _find_genre g hs'
  end.

(** Mutation of the header object returned by [_find_genre]: the first
    header that matches gets its song chain replaced. *)
Fixpoint update_found {A} (g : string) (f : list A → list A)
    (hs : list (GenreHeader A)) : list (GenreHeader A) :=
  match hs with
  | [] => []
  | h :: hs' =>
      if same_genre (hgenre h) g
      then mkHeader (hgenre h) (f (first_song h)) :: hs'
      else h :: update_found g f hs'
  end.

Definition add_song {A} (g : string) (song : A) (hs : list (GenreHeader A))
  : list (GenreHeader A) :=
  match _find_genre g hs with
  | Some _ => update_found g (cons song) hs
  | None => mkHeader g [song] :: hs
  end.

Definition remove_song {A} (g : string) (predicate : A → bool)
    (hs : list (GenreHeader A)) : bool * list (GenreHeader A) :=
  match _find_genre g hs with
  | None => (false, hs)
  | Some h =>
      (existsb predicate (first_song h),
       update_found g (remove_first predicate) hs)
  end.

Definition get_genres {A} (hs : list (GenreHeader A)) : list string :=
  PyStr.sorted PyStr.lower (map hgenre hs).

Definition get_songs {A} (g : string) (hs : list (GenreHeader A)) : list A :=
  match _find_genre g hs with
  | Some h => first_song h
  | None => []
  end.

End GenreMultiList.

(** ** [BST] keyed by lower-cased title *)

Module BST.

Inductive tree (A : Type) :=
| Leaf
| Node (key : string) (value : A) (left right : tree A).
Arguments Leaf {A}.
Arguments Node {A} _ _ _ _.

Fixpoint _insert {A} (node : tree A) (key : string) (value : A) : tree A :=
  match node with
  | Leaf => Node key value Leaf Leaf
  | Node k v l r =>
      match String.compare key k with
      | Lt => Node k v (_insert l key value) r
      | Gt => Node k v l (_insert r key value)
      | Eq => Node k value l r
      end
  end.

Definition insert {A} (key : string) (value : A) (t : tree A) : tree A :=
  _insert t (PyStr.lower key) value.

Fixpoint descend {A} (k : string) (node : tree A) : option A :=
  match node with
  | Leaf => None
  | Node key v l r =>
      match String.compare k key with
      | Lt => descend k l
      | Gt => descend k r
      | Eq => Some v
      end
  end.

Definition search {A} (key : string) (t : tree A) : option A :=
  descend (PyStr.lower key) t.

Fixpoint inorder {A} (t : tree A) : list A :=
  match t with
  | Leaf => []
  | Node _ v l r => inorder l ++ v :: inorder r
  end.

Fixpoint _traverse {A} (q : string) (n : tree A) : list A :=
  match n with
  | Leaf => []
  | Node key v l r =>
      (if PyStr.contains q key then [v] else [])
        ++ _traverse q l ++ _traverse q r
  end.

Definition partial_match {A} (query : string) (t : tree A) : list A :=
  _traverse (PyStr.lower query) t.

End BST.

(** ** [SongGraph]: adjacency lists keyed by song id *)

Module SongGraph.

Definition setdefault (k : Z) (adj : gmap Z (list Z)) : gmap Z (list Z) :=
  match adj !! k with
  | Some _ => adj
  | None => <[k := []]> adj
  end.

Definition add_song (song_id : Z) (adj : gmap Z (list Z)) : gmap Z (list Z) :=
  setdefault song_id adj.

Definition neighbors (song_id : Z) (adj : gmap Z (list Z)) : list Z :=
  default [] (adj !! song_id).

(** [if y not in adj[x]: adj[x].append(y)] *)
Definition append_absent (x y : Z) (adj : gmap Z (list Z))
  : gmap Z (list Z) :=
  match adj !! x with
  | Some l => if bool_decide (y ∈ l) then adj else <[x := l ++ [y]]> adj
  | None => adj
  end.

Definition add_edge (a b : Z) (adj : gmap Z (list Z)) : gmap Z (list Z) :=
  if bool_decide (a = b) then adj
  else append_absent b a (append_absent a b (setdefault b (setdefault a adj))).

(** One round of the clean-up loop of [remove_song]. *)
Definition strip (song_id : Z) (adj : gmap Z (list Z)) (n : Z)
  : gmap Z (list Z) :=
  match adj !! n with
  | Some l =>
      if bool_decide (song_id ∈ l)
      then <[n := remove_first (λ x, bool_decide (x = song_id)) l]> adj
      else adj
  | None => adj
  end.

Definition remove_song (song_id : Z) (adj : gmap Z (list Z))
  : gmap Z (list Z) :=
  match adj !! song_id with
  | Some ns => delete song_id (foldl (strip song_id) adj ns)
  | None => adj
  end.

End SongGraph.

(** ** [models.Playlist]

    A playlist wraps a doubly linked list of song references.  [sid] reads
    the [song_id] attribute of a stored reference. *)

Module Playlist.

Record t (A : Type) := mk {
  name : string;
  dll : list A;
}.
Arguments mk {A} _ _.
Arguments name {A} _.
Arguments dll {A} _.

Definition new {A} (n : string) : t A := mk n [].

Definition add {A} (song : A) (p : t A) : t A :=
  mk (name p) (DoublyLinkedList.append song (dll p)).

Definition remove_by_id {A} (sid : A → Z) (song_id : Z) (p : t A)
  : bool * t A :=
  let res := DoublyLinkedList.remove (λ s, Z.eqb (sid s) song_id) (dll p) in
  (res.1, mk (name p) res.2).

Definition to_list {A} (p : t A) : list A :=
  DoublyLinkedList.to_list (dll p).

(** The scan of [next_of]: stop at the first node carrying [song_id] and
    return the payload of its successor, if it has one. *)
Fixpoint next_from {A} (sid : A → Z) (song_id : Z) (nodes : list A)
  : option A :=
  match nodes with
  | [] => None
  | x :: rest =>
      if Z.eqb (sid x) song_id then head rest
      else next_from sid song_id rest
  end.

Definition next_of {A} (sid : A → Z) (song_id : Z) (p : t A) : option A :=
  next_from sid song_id (dll p).

(** The scan of [prev_of]; [before] is the payload of [node.prev]. *)
Fixpoint prev_from {A} (sid : A → Z) (song_id : Z) (before : option A)
    (nodes : list A) : option A :=
  match nodes with
  | [] => None
  | x :: rest =>
      if Z.eqb (sid x) song_id then before
      else prev_from sid song_id (Some x) rest
  end.

Definition prev_of {A} (sid : A → Z) (song_id : Z) (p : t A) : option A :=
  prev_from sid song_id None (dll p).

(** The scan of [find_node_index]; [idx] counts the nodes passed. *)
Fixpoint index_from {A} (sid : A → Z) (song_id : Z) (idx : Z)
    (nodes : list A) : Z :=
  match nodes with
  | [] => (-1)%Z
  | x :: rest =>
      if Z.eqb (sid x) song_id then idx
      else index_from sid song_id (idx + 1)%Z rest
  end.

Definition find_node_index {A} (sid : A → Z) (song_id : Z) (p : t A) : Z :=
  index_from sid song_id 0%Z (dll p).

End Playlist.

(** ** [MusicLibraryManager] *)

(** A reference to a [Song] object. *)
Abbreviation loc := nat.

Record Manager := mkManager {
  heap : list Song;          (* every Song object ever constructed *)
  library : list loc;        (* master SinglyLinkedList *)
  genres : list (GenreMultiList.GenreHeader loc);
  bst : BST.tree loc;
  queue : list loc;
  history : list loc;
  graph : gmap Z (list Z);
  playlists : gmap string (Playlist.t loc);
  _song_index : gmap Z loc;
  _next_id : Z;
}.

Definition with_heap (h : list Song) (m : Manager) : Manager :=
  mkManager h (library m) (genres m) (bst m) (queue m) (history m) (graph m)
    (playlists m) (_song_index m) (_next_id m).
Definition with_library (l : list loc) (m : Manager) : Manager :=
  mkManager (heap m) l (genres m) (bst m) (queue m) (history m) (graph m)
    (playlists m) (_song_index m) (_next_id m).
Definition with_genres (g : list (GenreMultiList.GenreHeader loc))
    (m : Manager) : Manager :=
  mkManager (heap m) (library m) g (bst m) (queue m) (history m) (graph m)
    (playlists m) (_song_index m) (_next_id m).
Definition with_bst (b : BST.tree loc) (m : Manager) : Manager :=
  mkManager (heap m) (library m) (genres m) b (queue m) (history m) (graph m)
    (playlists m) (_song_index m) (_next_id m).
Definition with_queue (q : list loc) (m : Manager) : Manager :=
  mkManager (heap m) (library m) (genres m) (bst m) q (history m) (graph m)
    (playlists m) (_song_index m) (_next_id m).
Definition with_history (h : list loc) (m : Manager) : Manager :=
  mkManager (heap m) (library m) (genres m) (bst m) (queue m) h (graph m)
    (playlists m) (_song_index m) (_next_id m).
Definition with_graph (g : gmap Z (list Z)) (m : Manager) : Manager :=
  mkManager (heap m) (library m) (genres m) (bst m) (queue m) (history m) g
    (playlists m) (_song_index m) (_next_id m).
Definition with_playlists (p : gmap string (Playlist.t loc)) (m : Manager)
  : Manager :=
  mkManager (heap m) (library m) (genres m) (bst m) (queue m) (history m)
    (graph m) p (_song_index m) (_next_id m).
Definition with_song_index (i : gmap Z loc) (m : Manager) : Manager :=
  mkManager (heap m) (library m) (genres m) (bst m) (queue m) (history m)
    (graph m) (playlists m) i (_next_id m).
Definition with_next_id (n : Z) (m : Manager) : Manager :=
  mkManager (heap m) (library m) (genres m) (bst m) (queue m) (history m)
    (graph m) (playlists m) (_song_index m) n.

(** Attribute access through a reference. *)
Definition deref (m : Manager) (r : loc) : Song := heap m !!! r.
Definition sid (m : Manager) (r : loc) : Z := song_id (deref m r).

(** [lambda s: s.song_id == song_id] *)
Definition has_id (m : Manager) (id : Z) (r : loc) : bool := Z.eqb (sid m r) id.

(** Truthiness of the optional arguments of the playback helpers. *)
Definition truthy_id (o : option Z) : bool :=
  match o with Some z => negb (Z.eqb z 0) | None => false end.
Definition truthy_name (o : option string) : bool :=
  match o with Some s => PyStr.truthy s | None => false end.

(** *** Library *)

Definition get_all_songs (m : Manager) : list loc :=
  SinglyLinkedList.to_list (library m).

Definition get_song_by_id (id : Z) (m : Manager) : option loc :=
  _song_index m !! id.

(** [s.title or str(s.song_id)] *)
Definition bst_key (s : Song) : string :=
  PyStr.or_else (title s) (pretty (song_id s)).

Definition _index_and_insert (r : loc) (m : Manager) : Manager :=
  let song := deref m r in
  mkManager (heap m)
    (SinglyLinkedList.append r (library m))
    (GenreMultiList.add_song (PyStr.or_else (genre song) "Unknown") r (genres m))
    (BST.insert (bst_key song) r (bst m))
    (queue m) (history m)
    (SongGraph.add_song (song_id song) (graph m))
    (playlists m)
    (<[song_id song := r]> (_song_index m))
    (_next_id m).

(** [self.bst = BST()] followed by the re-insertion loop. *)
Definition rebuild_bst (m : Manager) : BST.tree loc :=
  foldl (λ t s, BST.insert (bst_key (deref m s)) s t) BST.Leaf (get_all_songs m).

(** *** Scanning *)

Definition is_media (fname : string) : bool :=
  PyStr.endswith (PyStr.lower fname) ".mp3"
  || PyStr.endswith (PyStr.lower fname) ".wav".

(** Index of the last ["."] of a name, as [str.rfind] gives it. *)
Fixpoint rfind_dot (s : string) : option nat :=
  match s with
  | EmptyString => None
  | String c s' =>
      match rfind_dot s' with
      | Some i => Some (S i)
      | None => if Ascii.eqb c "." then Some 0%nat else None
      end
  end.

Fixpoint only_dots (s : string) : bool :=
  match s with
  | EmptyString => true
  | String c s' => Ascii.eqb c "." && only_dots s'
  end.

(** [os.path.splitext(fname)[0]] for a name without directory separators:
    the extension starts at the last dot, unless only dots precede it. *)
Definition splitext_root (fname : string) : string :=
  match rfind_dot fname with
  | Some i =>
      if only_dots (String.substring 0 i fname) then fname
      else String.substring 0 i fname
  | None => fname
  end.

Definition song_of_file (id : Z) (fname : string) : Song :=
  mkSong id
    (PyStr.replace_char "_" " " (splitext_root fname))
    "Unknown" "Unknown" "Unknown" 2024 0
    ("static/music/" +:+ fname)
    0 false.

(** The files the loop of [rescan] does not skip, in iteration order. *)
Definition media_files (listing : list string) : list string :=
  List.filter is_media (PyStr.sorted (λ s, s) listing).

(** One iteration of the loading loop: construct the [Song], insert it
    everywhere, advance the counter. *)
Definition load_file (m : Manager) (fname : string) : Manager :=
  let r := length (heap m) in
  let m1 := with_heap (heap m ++ [song_of_file (_next_id m) fname]) m in
  let m2 := _index_and_insert r m1 in
  with_next_id (_next_id m2 + 1) m2.

Definition score (a b : Song) : Z :=
  (if PyStr.truthy (artist a) && PyStr.truthy (artist b)
      && String.eqb (artist a) (artist b) then 3 else 0)
  + (if PyStr.truthy (genre a) && PyStr.truthy (genre b)
        && String.eqb (genre a) (genre b) then 2 else 0)
  + (if (Z.abs (year a - year b) <=? 2)%Z then 1 else 0).

(** The inner loop over [j] for a fixed [a = all_songs[i]]. *)
Definition link_similar (a : Song) (adj : gmap Z (list Z)) (b : Song)
  : gmap Z (list Z) :=
  if (2 <=? score a b)%Z then SongGraph.add_edge (song_id a) (song_id b) adj
  else adj.

(** The double loop that builds the similarity edges. *)
Fixpoint similarity_edges (all_songs : list Song) (adj : gmap Z (list Z))
  : gmap Z (list Z) :=
  match all_songs with
  | [] => adj
  | a :: rest => similarity_edges rest (foldl (link_similar a) adj rest)
  end.

(** [listing] is what [os.listdir(self.music_dir)] returns. *)
Definition rescan (listing : list string) (m : Manager) : Manager :=
  let m0 :=
    mkManager (heap m) [] [] BST.Leaf (queue m) (history m) ∅ (playlists m)
      ∅ 1 in
  let m1 := foldl load_file m0 (media_files listing) in
  with_graph
    (similarity_edges (map (deref m1) (get_all_songs m1)) (graph m1)) m1.

(** [MusicLibraryManager.__init__] *)
Definition init (listing : list string) : Manager :=
  rescan listing (mkManager [] [] [] BST.Leaf [] [] ∅ ∅ ∅ 1).

(** *** Update and delete *)

(** The keyword arguments of [update_song] that name a data attribute of
    [Song]; [None] is an argument that is absent or passed as [None]. *)
Record SongFields := mkFields {
  f_song_id : option Z;
  f_title : option string;
  f_artist : option string;
  f_album : option string;
  f_genre : option string;
  f_year : option Z;
  f_duration_seconds : option Z;
  f_file_path : option string;
  f_play_count : option Z;
  f_is_favorite : option bool;
}.

Definition no_fields : SongFields :=
  mkFields None None None None None None None None None None.

Definition only_genre (g : string) : SongFields :=
  mkFields None None None None (Some g) None None None None None.

(** The [setattr] loop. *)
Definition apply_fields (f : SongFields) (s : Song) : Song :=
  mkSong
    (default (song_id s) (f_song_id f))
    (default (title s) (f_title f))
    (default (artist s) (f_artist f))
    (default (album s) (f_album f))
    (default (genre s) (f_genre f))
    (default (year s) (f_year f))
    (default (duration_seconds s) (f_duration_seconds f))
    (default (file_path s) (f_file_path f))
    (default (play_count s) (f_play_count f))
    (default (is_favorite s) (f_is_favorite f)).

Definition update_song (id : Z) (fields : SongFields) (m : Manager) : Manager :=
  match _song_index m !! id with
  | None => m
  | Some r =>
      let old_genre := genre (deref m r) in
      let old_title := title (deref m r) in
      let m1 := with_heap (<[r := apply_fields fields (deref m r)]> (heap m)) m in
      let m2 :=
        if bool_decide (old_genre ≠ genre (deref m1 r)) then
          let removed :=
            GenreMultiList.remove_song old_genre (has_id m1 id) (genres m1) in
          with_genres
            (GenreMultiList.add_song (genre (deref m1 r)) r removed.2) m1
        else m1 in
      if bool_decide (old_title ≠ title (deref m2 r))
      then with_bst (rebuild_bst m2) m2
      else m2
  end.

(** The queue clean-up loop: re-enqueue every entry with another id. *)
Definition requeue_without (m : Manager) (id : Z) (entries : list loc)
  : list loc :=
  foldl (λ new_q s, if negb (has_id m id s) then Queue.enqueue s new_q else new_q)
    [] entries.

(** The history clean-up loop: push, bottom first, every entry with another
    id. *)
Definition repush_without (m : Manager) (id : Z) (entries : list loc)
  : list loc :=
  foldl (λ new_hist s,
           if negb (has_id m id s) then Stack.push s new_hist else new_hist)
    [] (reverse entries).

Definition delete_song (id : Z) (m : Manager) : Manager :=
  match _song_index m !! id with
  | None => m
  | Some r =>
      let m1 :=
        with_library (SinglyLinkedList.remove (has_id m id) (library m)).2 m in
      let m2 :=
        with_genres
          (GenreMultiList.remove_song (genre (deref m1 r)) (has_id m1 id)
             (genres m1)).2 m1 in
      let m3 := with_song_index (delete id (_song_index m2)) m2 in
      let m4 := with_bst (rebuild_bst m3) m3 in
      let m5 :=
        with_queue (requeue_without m4 id (Queue.to_list (queue m4))) m4 in
      let m6 :=
        with_history (repush_without m5 id (Stack.to_list (history m5))) m5 in
      let m7 :=
        with_playlists
          ((λ pl, (Playlist.remove_by_id (sid m6) id pl).2) <$> playlists m6)
          m6 in
      with_graph (SongGraph.remove_song id (graph m7)) m7
  end.

(** *** Favorites *)

Definition flip_favorite (s : Song) : Song :=
  mkSong (song_id s) (title s) (artist s) (album s) (genre s) (year s)
    (duration_seconds s) (file_path s) (play_count s) (negb (is_favorite s)).

Definition toggle_favorite (id : Z) (m : Manager) : option bool * Manager :=
  match _song_index m !! id with
  | None => (None, m)
  | Some r =>
      let m' := with_heap (<[r := flip_favorite (deref m r)]> (heap m)) m in
      (Some (is_favorite (deref m' r)), m')
  end.

Definition get_favorites (m : Manager) : list loc :=
  List.filter (λ s, is_favorite (deref m s)) (get_all_songs m).

(** *** Genres and search *)

Definition get_all_genres (m : Manager) : list string :=
  GenreMultiList.get_genres (genres m).

Definition get_songs_by_genre (g : string) (m : Manager) : list loc :=
  GenreMultiList.get_songs g (genres m).

Definition search_by_title (query : string) (m : Manager) : list loc :=
  match BST.search query (bst m) with
  | Some exact => [exact]
  | None => BST.partial_match query (bst m)
  end.

(** *** Playlists *)

Definition create_playlist (name : string) (m : Manager) : Manager :=
  match playlists m !! name with
  | Some _ => m
  | None => with_playlists (<[name := Playlist.new name]> (playlists m)) m
  end.

Definition delete_playlist (name : string) (m : Manager) : Manager :=
  match playlists m !! name with
  | Some _ => with_playlists (delete name (playlists m)) m
  | None => m
  end.

Definition add_song_to_playlist (name : string) (id : Z) (m : Manager)
  : Manager :=
  let m1 := create_playlist name m in
  match get_song_by_id id m1 with
  | Some song =>
      with_playlists (alter (Playlist.add song) name (playlists m1)) m1
  | None => m1
  end.

Definition remove_song_from_playlist (name : string) (id : Z) (m : Manager)
  : Manager :=
  match playlists m !! name with
  | Some pl =>
      with_playlists
        (<[name := (Playlist.remove_by_id (sid m) id pl).2]> (playlists m)) m
  | None => m
  end.

Definition get_playlist_songs (name : string) (m : Manager) : list loc :=
  match playlists m !! name with
  | Some pl => Playlist.to_list pl
  | None => []
  end.

(** *** Queue and history *)

Definition enqueue_song (id : Z) (m : Manager) : Manager :=
  match get_song_by_id id m with
  | Some song => with_queue (Queue.enqueue song (queue m)) m
  | None => m
  end.

Definition dequeue_song (m : Manager) : option loc * Manager :=
  let res := Queue.dequeue (queue m) in
  (res.1, with_queue res.2 m).

Definition get_queue_list (m : Manager) : list loc := Queue.to_list (queue m).

Definition bump_play_count (s : Song) : Song :=
  mkSong (song_id s) (title s) (artist s) (album s) (genre s) (year s)
    (duration_seconds s) (file_path s) (play_count s + 1) (is_favorite s).

Definition record_play (song : loc) (m : Manager) : Manager :=
  let m1 := with_heap (<[song := bump_play_count (deref m song)]> (heap m)) m in
  with_history (Stack.push song (history m1)) m1.

(** [self.history.to_list()[:limit]], with Python's reading of a negative
    bound. *)
Definition get_history_list (limit : Z) (m : Manager) : list loc :=
  let l := Stack.to_list (history m) in
  if (0 <=? limit)%Z then take (Z.to_nat limit) l
  else take (Z.to_nat (Z.of_nat (length l) + limit)) l.

(** *** Recommendation and playback *)

(** The outcomes of the calls to the [random] module made by one operation:
    the permutation [random.shuffle] applies and, for each [random.choice],
    the raw draw that is reduced to an index of the sequence. *)
Record Random := mkRandom {
  shuffle : list Z → list Z;
  draw_similar : nat;
  draw_any : nat;
}.

Definition choice {A} (draw : nat) (l : list A) : option A :=
  l !! (draw `mod` length l)%nat.

Definition get_similar_songs (id : Z) (m : Manager) : list Z :=
  SongGraph.neighbors id (graph m).

(** The loop of [get_next_similar_song]: the first neighbour that resolves. *)
Fixpoint first_resolving (m : Manager) (ids : list Z) : option loc :=
  match ids with
  | [] => None
  | nid :: rest =>
      match get_song_by_id nid m with
      | Some s => Some s
      | None => first_resolving m rest
      end
  end.

Definition get_next_similar_song (rnd : Random) (id : Z) (m : Manager)
  : option loc :=
  match first_resolving m (shuffle rnd (SongGraph.neighbors id (graph m))) with
  | Some s => Some s
  | None => choice (draw_similar rnd) (get_all_songs m)
  end.

(** The playlist step shared by both playback helpers: the guard
    [current_playlist_name and current_playlist_name in self.playlists and
    current_song_id], then the neighbour lookup [step]. *)
Definition playlist_step
    (step : (loc → Z) → Z → Playlist.t loc → option loc)
    (current_song_id : option Z) (current_playlist_name : option string)
    (m : Manager) : option loc :=
  match current_playlist_name, current_song_id with
  | Some name, Some id =>
      if truthy_name current_playlist_name && truthy_id current_song_id then
        match playlists m !! name with
        | Some pl => step (sid m) id pl
        | None => None
        end
      else None
  | _, _ => None
  end.

Definition get_next_song (rnd : Random) (current_song_id : option Z)
    (current_playlist_name : option string) (m : Manager)
  : option loc * Manager :=
  match playlist_step Playlist.next_of current_song_id current_playlist_name m with
  | Some nxt => (Some nxt, m)
  | None =>
      let dq := dequeue_song m in
      match dq.1 with
      | Some q => (Some q, dq.2)
      | None =>
          let similar :=
            match current_song_id with
            | Some id =>
                if truthy_id current_song_id
                then get_next_similar_song rnd id dq.2
                else None
            | None => None
            end in
          match similar with
          | Some s => (Some s, dq.2)
          | None => (choice (draw_any rnd) (get_all_songs dq.2), dq.2)
          end
      end
  end.

Definition get_previous_song (current_song_id : option Z)
    (current_playlist_name : option string) (m : Manager)
  : option loc * Manager :=
  match playlist_step Playlist.prev_of current_song_id current_playlist_name m with
  | Some prv => (Some prv, m)
  | None =>
      let popped := Stack.pop (history m) in
      let m1 := with_history popped.2 m in
      match popped.1 with
      | Some top =>
          if truthy_id current_song_id
             && bool_decide (Some (sid m1 top) = current_song_id)
          then
            let again := Stack.pop (history m1) in
            (again.1, with_history again.2 m1)
          else (Some top, m1)
      | None => (None, m1)
      end
  end.

(** ** The HTTP shell ([main.py])

    A handler is a function of the state of the one [manager] object; it
    answers with a body or with the [HTTPException] it raises, and leaves a
    state behind.  [to_dict] copies the attributes of a song, so a body holds
    [Song] values, not references. *)

Module Api.

Inductive response (A : Type) :=
| Ok (body : A)
| HttpError (status : Z) (detail : string).
Arguments Ok {A} _.
Arguments HttpError {A} _ _.

Definition to_dict (m : Manager) (song : loc) : Song := deref m song.

Definition backslash : ascii := Ascii.ascii_of_nat 92.

Definition api_songs (m : Manager) : list Song :=
  map (to_dict m) (get_all_songs m).

Definition api_song (id : Z) (m : Manager) : response Song :=
  match get_song_by_id id m with
  | Some song => Ok (to_dict m song)
  | None => HttpError 404 "Song not found"
  end.

Definition api_search (query : string) (m : Manager) : list Song :=
  map (to_dict m) (search_by_title query m).

Definition api_genres (m : Manager) : list string := get_all_genres m.

Definition api_genre_songs (g : string) (m : Manager) : list Song :=
  map (to_dict m) (get_songs_by_genre g m).

Definition api_history (m : Manager) : list Song :=
  map (to_dict m) (get_history_list 30 m).

Definition api_queue (m : Manager) : list Song :=
  map (to_dict m) (get_queue_list m).

(** The comprehension keeps the neighbour ids that resolve, in order. *)
Definition api_recommendations (id : Z) (m : Manager) : list Song :=
  omap (λ i, to_dict m <$> get_song_by_id i m) (get_similar_songs id m).

(** The body of a playback answer: the song and its audio URL. *)
Definition api_play (id : Z) (m : Manager)
  : response (Song * string) * Manager :=
  match get_song_by_id id m with
  | None => (HttpError 404 "Song not found", m)
  | Some song =>
      let m' := record_play song m in
      (Ok (to_dict m' song,
           "/" +:+ PyStr.replace_char backslash "/" (file_path (deref m' song))),
       m')
  end.

Definition api_queue_add (id : Z) (m : Manager) : list Song * Manager :=
  let m' := enqueue_song id m in
  (map (to_dict m') (get_queue_list m'), m').

Definition api_next (rnd : Random) (current_song_id : option Z)
    (current_playlist_name : option string) (m : Manager)
  : response (Song * string) * Manager :=
  let res := get_next_song rnd current_song_id current_playlist_name m in
  match res.1 with
  | None => (HttpError 404 "No next song available", res.2)
  | Some next_song =>
      let m' := record_play next_song res.2 in
      (Ok (to_dict m' next_song, "/" +:+ file_path (deref m' next_song)), m')
  end.

Definition api_prev (current_song_id : option Z)
    (current_playlist_name : option string) (m : Manager)
  : response (Song * string) * Manager :=
  let res := get_previous_song current_song_id current_playlist_name m in
  match res.1 with
  | None => (HttpError 404 "No previous song available", res.2)
  | Some prev_song =>
      let m' := record_play prev_song res.2 in
      (Ok (to_dict m' prev_song, "/" +:+ file_path (deref m' prev_song)), m')
  end.

(** The form fields of the edit page; an absent field arrives as [None]. *)
Definition admin_edit_song (id : Z) (title artist album genre : option string)
    (year : option Z) (m : Manager) : Manager :=
  update_song id
    (mkFields None title artist album genre year None None None None) m.

Definition admin_delete_song (id : Z) (m : Manager) : Manager :=
  delete_song id m.

Definition admin_rescan (listing : list string) (m : Manager) : Manager :=
  rescan listing m.

Definition health (m : Manager) : Z :=
  Z.of_nat (length (get_all_songs m)).

(** The requests that can change the state of the manager. *)
Inductive request :=
| Play (id : Z)
| QueueAdd (id : Z)
| Next (rnd : Random) (current : option Z) (playlist : option string)
| Prev (current : option Z) (playlist : option string)
| Edit (id : Z) (title artist album genre : option string) (year : option Z)
| Delete (id : Z)
| RescanDir (listing : list string).

Definition serve (q : request) (m : Manager) : Manager :=
  match q with
  | Play id => (api_play id m).2
  | QueueAdd id => (api_queue_add id m).2
  | Next rnd current playlist => (api_next rnd current playlist m).2
  | Prev current playlist => (api_prev current playlist m).2
  | Edit id title artist album genre year =>
      admin_edit_song id title artist album genre year m
  | Delete id => admin_delete_song id m
  | RescanDir listing => admin_rescan listing m
  end.

(** The states of the module-level [manager] while the application serves
    requests: constructed over the music directory, then one request after
    the other. *)
Inductive served : Manager → Prop :=
| served_start (listing : list string) : served (init listing)
| served_request (q : request) (m : Manager) :
    served m → served (serve q m).

End Api.

(** ** State predicates used by the specifications *)

(** Every entry of the id-lookup index refers to a constructed [Song]. *)
Definition index_live (m : Manager) : Prop :=
  map_Forall (λ _ r, (r < length (heap m))%nat) (_song_index m).

Global Instance index_live_dec (m : Manager) : Decision (index_live m).
Proof. unfold index_live. apply _. Defined.

(** Two managers hold the same containers; only [Song] attributes may
    differ. *)
Definition same_containers (m m' : Manager) : Prop :=
  library m' = library m ∧ genres m' = genres m ∧ bst m' = bst m
  ∧ queue m' = queue m ∧ history m' = history m ∧ graph m' = graph m
  ∧ playlists m' = playlists m ∧ _song_index m' = _song_index m
  ∧ _next_id m' = _next_id m.

(** The id carried by the referenced song is a key of the id-lookup index. *)
Definition indexed (m : Manager) (r : loc) : Prop :=
  is_Some (_song_index m !! sid m r).

Global Instance indexed_dec (m : Manager) (r : loc) : Decision (indexed m r).
Proof. unfold indexed. apply _. Defined.

(** Invariant 5: queue, history and playlists only hold indexed ids. *)
Definition refs_indexed (m : Manager) : Prop :=
  Forall (indexed m) (queue m)
  ∧ Forall (indexed m) (history m)
  ∧ map_Forall (λ _ pl, Forall (indexed m) (Playlist.to_list pl)) (playlists m).

Global Instance refs_indexed_dec (m : Manager) : Decision (refs_indexed m).
Proof. unfold refs_indexed. apply _. Defined.

(** Edges are undirected, and no neighbour is listed twice. *)
Definition graph_symmetric (adj : gmap Z (list Z)) : Prop :=
  ∀ x y, y ∈ SongGraph.neighbors x adj → x ∈ SongGraph.neighbors y adj.

Definition graph_simple (adj : gmap Z (list Z)) : Prop :=
  ∀ x, NoDup (SongGraph.neighbors x adj).

(** The [Song] objects the loading loop constructs for the files [fs] when
    the counter stands at [n]. *)
Fixpoint songs_of_files (n : Z) (fs : list string) : list Song :=
  match fs with
  | [] => []
  | f :: fs' => song_of_file n f :: songs_of_files (n + 1) fs'
  end.

(** The graph as the loading loop leaves it: one node per song, no edge. *)
Definition nodes_only (songs : list Song) : gmap Z (list Z) :=
  foldl (λ adj s, SongGraph.add_song (song_id s) adj) ∅ songs.

(** The pairs [(all_songs[i], all_songs[j])], [i < j], the double loop of
    [rescan] visits. *)
Fixpoint pairs {A} (l : list A) : list (A * A) :=
  match l with
  | [] => []
  | a :: rest => map (pair a) rest ++ pairs rest
  end.

(** Visiting the pair [(a, b)] makes [z] a neighbour of [x]. *)
Definition linked (a b : Song) (x z : Z) : Prop :=
  (2 ≤ score a b)%Z ∧ song_id a ≠ song_id b
  ∧ ((x = song_id a ∧ z = song_id b) ∨ (x = song_id b ∧ z = song_id a)).

(** The tree obtained by inserting [songs] one after the other. *)
Definition insert_all (m : Manager) (songs : list loc) (t : BST.tree loc)
  : BST.tree loc :=
  foldl (λ t s, BST.insert (bst_key (deref m s)) s t) t songs.

(** Every index entry refers to a constructed song that carries the key as
    its id. *)
Definition index_exact (m : Manager) : Prop :=
  map_Forall (λ id r, (r < length (heap m))%nat ∧ sid m r = id) (_song_index m).

(** The consistency the structures have after a rescan: the index is exact,
    no id occurs twice in the library or in a genre bucket, and the graph is
    undirected without repeated neighbours. *)
Definition well_formed (m : Manager) : Prop :=
  index_exact m
  ∧ NoDup (map (sid m) (get_all_songs m))
  ∧ (∀ g, NoDup (map (sid m) (get_songs_by_genre g m)))
  ∧ graph_symmetric (graph m)
  ∧ graph_simple (graph m).

(** The order [sorted(..., key=key)] sorts by. *)
Definition key_le {A} (key : A → string) (x y : A) : Prop :=
  String.leb (key x) (key y) = true.

(** The elements of [l] whose sort key is [k], in the order of [l]. *)
Definition with_key {A} (key : A → string) (k : string) (l : list A) : list A :=
  List.filter (λ x, String.eqb (key x) k) l.

(** The normalised names of the genre entries, in link order. *)
Definition genre_keys {A} (hs : list (GenreMultiList.GenreHeader A))
  : list string :=
  map (λ h, PyStr.lower (GenreMultiList.hgenre h)) hs.

(** [a < b] on tree keys. *)
Definition str_lt (a b : string) : Prop := String.compare a b = Lt.

(** The walk of [inorder], with the key of every node visited. *)
Fixpoint tree_entries {A} (t : BST.tree A) : list (string * A) :=
  match t with
  | BST.Leaf => []
  | BST.Node k v l r => tree_entries l ++ (k, v) :: tree_entries r
  end.

Definition tree_keys {A} (t : BST.tree A) : list string :=
  map fst (tree_entries t).

(** The search-tree condition: smaller keys to the left, larger to the
    right, at every node. *)
Fixpoint ordered {A} (t : BST.tree A) : Prop :=
  match t with
  | BST.Leaf => True
  | BST.Node k _ l r =>
      Forall (λ x, str_lt x k) (tree_keys l)
      ∧ Forall (λ x, str_lt k x) (tree_keys r)
      ∧ ordered l ∧ ordered r
  end.

(** The tree after the calls [insert(key, value)] for the pairs [kvs], in
    order. *)
Definition insert_pairs {A} (kvs : list (string * A)) (t : BST.tree A)
  : BST.tree A :=
  foldl (λ t kv, BST.insert kv.1 kv.2 t) t kvs.

(** No song is its own neighbour. *)
Definition graph_loop_free (adj : gmap Z (list Z)) : Prop :=
  ∀ x, x ∉ SongGraph.neighbors x adj.

(** An undirected graph without loops and without parallel edges. *)
Definition graph_undirected (adj : gmap Z (list Z)) : Prop :=
  graph_symmetric adj ∧ graph_simple adj ∧ graph_loop_free adj.

(** ** The coordinator as a state machine *)

(** The mutating entry points of the coordinator, with their arguments.
    [RecordPlay] takes the reference to a [Song] the caller obtained from the
    manager. *)
Inductive command :=
| Rescan (listing : list string)
| UpdateSong (id : Z) (fields : SongFields)
| DeleteSong (id : Z)
| ToggleFavorite (id : Z)
| CreatePlaylist (name : string)
| DeletePlaylist (name : string)
| AddSongToPlaylist (name : string) (id : Z)
| RemoveSongFromPlaylist (name : string) (id : Z)
| EnqueueSong (id : Z)
| DequeueSong
| RecordPlay (song : loc)
| GetNextSong (rnd : Random) (current : option Z) (playlist : option string)
| GetPreviousSong (current : option Z) (playlist : option string).

Definition run (c : command) (m : Manager) : Manager :=
  match c with
  | Rescan listing => rescan listing m
  | UpdateSong id fields => update_song id fields m
  | DeleteSong id => delete_song id m
  | ToggleFavorite id => (toggle_favorite id m).2
  | CreatePlaylist name => create_playlist name m
  | DeletePlaylist name => delete_playlist name m
  | AddSongToPlaylist name id => add_song_to_playlist name id m
  | RemoveSongFromPlaylist name id => remove_song_from_playlist name id m
  | EnqueueSong id => enqueue_song id m
  | DequeueSong => (dequeue_song m).2
  | RecordPlay song => record_play song m
  | GetNextSong rnd current playlist => (get_next_song rnd current playlist m).2
  | GetPreviousSong current playlist => (get_previous_song current playlist m).2
  end.

(** The states a process can be in: the constructor ran, then any number of
    operations. *)
Inductive reachable : Manager → Prop :=
| reachable_init (listing : list string) : reachable (init listing)
| reachable_run (c : command) (m : Manager) :
    reachable m → reachable (run c m).

(** A command that leaves the ids of the songs alone: every command but an
    update that passes [song_id]. *)
Definition keeps_ids (c : command) : Prop :=
  match c with
  | UpdateSong _ fields => f_song_id fields = None
  | _ => True
  end.

(** The states reached through such commands only. *)
Inductive reachable_keeping_ids : Manager → Prop :=
| keeping_ids_init (listing : list string) :
    reachable_keeping_ids (init listing)
| keeping_ids_run (c : command) (m : Manager) :
    keeps_ids c → reachable_keeping_ids m → reachable_keeping_ids (run c m).

(** The agreement of the library, the id-lookup index, the title tree, the
    genre index and the graph with one another. *)
Definition consistent (m : Manager) : Prop :=
  index_exact m
  ∧ NoDup (library m)
  ∧ (∀ r, r ∈ library m ↔ ∃ id, _song_index m !! id = Some r)
  ∧ bst m = insert_all m (library m) BST.Leaf
  ∧ (∀ r, r ∈ library m → r ∈ get_songs_by_genre (genre (deref m r)) m)
  ∧ (∀ g r, r ∈ get_songs_by_genre g m →
            r ∈ library m ∧ PyStr.lower (genre (deref m r)) = PyStr.lower g)
  ∧ (∀ g, NoDup (get_songs_by_genre g m))
  ∧ (∀ id, is_Some (graph m !! id) ↔ is_Some (_song_index m !! id))
  ∧ graph_undirected (graph m).

(** [m'] differs from [m] at most in the queue, the history, the playlists
    and in song attributes other than id, genre and title. *)
Definition same_catalogue (m m' : Manager) : Prop :=
  library m' = library m ∧ genres m' = genres m ∧ bst m' = bst m
  ∧ graph m' = graph m ∧ _song_index m' = _song_index m
  ∧ length (heap m') = length (heap m)
  ∧ ∀ r, song_id (deref m' r) = song_id (deref m r)
         ∧ genre (deref m' r) = genre (deref m r)
         ∧ title (deref m' r) = title (deref m r).

(** ** Scenarios *)

(** The state after constructing the manager over [listing] and running the
    commands [cs] in order. *)
Definition script (listing : list string) (cs : list command) : Manager :=
  foldl (λ m c, run c m) (init listing) cs.

Module Scenario.

(** A library of three files, hence songs 1, 2, 3 at references 0, 1, 2. *)
Definition abc : list string := ["a.mp3"; "b.mp3"; "c.mp3"].
Definition three : Manager := script abc [].

(** Songs 1, 2, 3 played in that order. *)
Definition played_abc : Manager :=
  script abc [RecordPlay 0; RecordPlay 1; RecordPlay 2].

(** Playlist "Road Trip" = [A, B, C], with a non-empty history and queue. *)
Definition road_trip : Manager :=
  script abc
    [RecordPlay 0; RecordPlay 1; RecordPlay 2; EnqueueSong 1;
     AddSongToPlaylist "Road Trip" 1; AddSongToPlaylist "Road Trip" 2;
     AddSongToPlaylist "Road Trip" 3].

(** Playlist "Road Trip" = [B, A, B, C]: B occurs twice. *)
Definition road_trip_twice : Manager :=
  script abc
    [AddSongToPlaylist "Road Trip" 2; AddSongToPlaylist "Road Trip" 1;
     AddSongToPlaylist "Road Trip" 2; AddSongToPlaylist "Road Trip" 3].

(** Song 3 has been given the genre "Rock", so that genre has an entry. *)
Definition rock_c : Manager := script abc [UpdateSong 3 (only_genre "Rock")].

Definition any_random : Random := mkRandom (λ l, l) 0 0.

(** The three songs of the similarity example. *)
Definition song_A : Song :=
  mkSong 1 "A" "X" "Unknown" "Rock" 2020 0 "static/music/A.mp3" 0 false.
Definition song_B : Song :=
  mkSong 2 "B" "X" "Unknown" "Pop" 2021 0 "static/music/B.mp3" 0 false.
Definition song_C : Song :=
  mkSong 3 "C" "Y" "Unknown" "Jazz" 1990 0 "static/music/C.mp3" 0 false.

(** Two files whose names differ in letter case only. *)
Definition hello_twice : Manager := script ["Hello.mp3"; "hello.mp3"] [].

(** Two files, song 2 waiting in the queue. *)
Definition queued_b : Manager := script ["a.mp3"; "b.mp3"] [EnqueueSong 2].

(** One file, its song waiting in the queue; then a second file appears
    that sorts before it and the directory is rescanned. *)
Definition then_a_b : Manager :=
  script ["b.mp3"] [EnqueueSong 1; Rescan ["a.mp3"; "b.mp3"]].

(** Song 1 put twice on playlist "P". *)
Definition twice_on_p : Manager :=
  script abc [AddSongToPlaylist "P" 1; AddSongToPlaylist "P" 1].

End Scenario.

(** * Basic facts *)

(** Closed facts about a scenario are settled by evaluating the model. *)
Ltac split_all := repeat match goal with |- _ ∧ _ => split end.
Ltac by_evaluation := vm_compute; first [reflexivity | discriminate | exact I].

Lemma with_history_same (m : Manager) : with_history (history m) m = m.
Proof. by destruct m. Qed.

Lemma with_heap_same (m : Manager) : with_heap (heap m) m = m.
Proof. by destruct m. Qed.

Lemma with_queue_same (m : Manager) : with_queue (queue m) m = m.
Proof. by destruct m. Qed.

Lemma flip_favorite_twice (s : Song) : flip_favorite (flip_favorite s) = s.
Proof. destruct s; unfold flip_favorite; simpl. by rewrite negb_involutive. Qed.

Lemma flip_favorite_changes (s : Song) : flip_favorite s ≠ s.
Proof.
  intros E. apply (f_equal is_favorite) in E. simpl in E.
  by destruct (is_favorite s).
Qed.

Lemma deref_lookup (m : Manager) (r : loc) (s : Song) :
  heap m !! r = Some s → deref m r = s.
Proof. intros H. unfold deref. by rewrite list_lookup_total_alt, H. Qed.

(** * References stay valid *)

Lemma index_live_mono (m m' : Manager) :
  (length (heap m) ≤ length (heap m'))%nat →
  _song_index m' ⊆ _song_index m →
  index_live m → index_live m'.
Proof.
  intros Hlen Hsub Hlive id r Hr. simpl.
  eapply Nat.lt_le_trans; [|exact Hlen].
  apply (Hlive id r). by eapply lookup_weaken.
Qed.

Lemma load_file_index_live (m : Manager) (f : string) :
  index_live m → index_live (load_file m f).
Proof.
  intros Hlive. unfold index_live, load_file, _index_and_insert.
  cbn [_song_index heap with_next_id with_heap]. rewrite length_app. simpl.
  apply map_Forall_insert_2; [lia|].
  eapply map_Forall_impl; [exact Hlive|]. simpl. lia.
Qed.

Lemma rescan_index_live (listing : list string) (m : Manager) :
  index_live (rescan listing m).
Proof.
  unfold rescan. set (m0 := mkManager _ _ _ _ _ _ _ _ _ _).
  enough (H : ∀ fs m1, index_live m1 → index_live (foldl load_file m1 fs)).
  { apply (H (media_files listing) m0). apply map_Forall_empty. }
  induction fs as [|f fs IH]; intros m1 H1; simpl; [done|].
  by apply IH, load_file_index_live.
Qed.

(** Every operation other than a rescan keeps the [Song] objects in place
    and adds no entry to the id-lookup index. *)
Lemma run_keeps_objects (c : command) (m : Manager) :
  (∀ listing, c ≠ Rescan listing) →
  length (heap (run c m)) = length (heap m)
  ∧ _song_index (run c m) ⊆ _song_index m.
Proof.
  intros Hc. destruct c; simpl.
  - by destruct (Hc listing).
  - unfold update_song. destruct (_song_index m !! id); [|done].
    repeat case_bool_decide; cbn; by rewrite length_insert.
  - unfold delete_song. destruct (_song_index m !! id); [|done].
    cbn. split; [done|]. apply delete_subseteq.
  - unfold toggle_favorite. destruct (_song_index m !! id); [|done].
    cbn. by rewrite length_insert.
  - unfold create_playlist. by destruct (playlists m !! name).
  - unfold delete_playlist. by destruct (playlists m !! name).
  - unfold add_song_to_playlist, get_song_by_id, create_playlist.
    destruct (playlists m !! name); cbn; by destruct (_song_index m !! id).
  - unfold remove_song_from_playlist. by destruct (playlists m !! name).
  - unfold enqueue_song, get_song_by_id. by destruct (_song_index m !! id).
  - done.
  - unfold record_play. cbn. by rewrite length_insert.
  - unfold get_next_song.
    destruct (playlist_step _ _ _ _); [done|].
    destruct (dequeue_song m).1; [done|].
    by destruct (match current with Some _ => _ | None => _ end).
  - unfold get_previous_song.
    destruct (playlist_step _ _ _ _); [done|].
    destruct (Stack.pop (history m)).1; [|done].
    by destruct (_ && _).
Qed.

(** In every reachable state the index refers to constructed songs only. *)
Lemma reachable_index_live (m : Manager) : reachable m → index_live m.
Proof.
  induction 1 as [listing|c m Hm IH].
  - apply rescan_index_live.
  - assert (Hc : (∃ listing, c = Rescan listing) ∨ ∀ listing, c ≠ Rescan listing).
    { destruct c; first [left; by eexists | right; by intros ?]. }
    destruct Hc as [[listing ->]|Hno].
    + apply rescan_index_live.
    + destruct (run_keeps_objects c m Hno) as [Hlen Hsub].
      apply (index_live_mono m); [lia|done|done].
Qed.

Lemma reachable_script (listing : list string) (cs : list command) :
  reachable (script listing cs).
Proof.
  unfold script. generalize (reachable_init listing).
  generalize (init listing). induction cs as [|c cs IH]; intros m Hm; [done|].
  apply IH. by apply reachable_run.
Qed.

(** * Favorites *)

Lemma toggle_favorite_known (id : Z) (m : Manager) (r : loc) (s : Song) :
  _song_index m !! id = Some r → heap m !! r = Some s →
  toggle_favorite id m
  = (Some (negb (is_favorite s)),
     with_heap (<[r := flip_favorite s]> (heap m)) m).
Proof.
  intros Hidx Hs. unfold toggle_favorite. rewrite Hidx.
  rewrite (deref_lookup _ _ _ Hs). f_equal.
  unfold deref, with_heap; simpl.
  rewrite list_lookup_total_alt, list_lookup_insert_eq; [done|].
  by eapply lookup_lt_Some.
Qed.

(** C10. [toggle_favorite] returns [None] exactly for an unknown id and
    leaves the whole state unchanged exactly then; for a known id it returns
    the new flag, replaces the song by itself with only [is_favorite]
    negated, touches no other song and no container, and a second call
    restores the original state. *)
Theorem toggle_favorite_involution (id : Z) (m : Manager) :
  index_live m →
  ((toggle_favorite id m).1 = None ↔ get_song_by_id id m = None)
  ∧ ((toggle_favorite id m).2 = m ↔ get_song_by_id id m = None)
  ∧ ∀ r, get_song_by_id id m = Some r →
      let s := deref m r in
      let m' := (toggle_favorite id m).2 in
      (toggle_favorite id m).1 = Some (negb (is_favorite s))
      ∧ heap m' !! r
        = Some (mkSong (song_id s) (title s) (artist s) (album s) (genre s)
                  (year s) (duration_seconds s) (file_path s) (play_count s)
                  (negb (is_favorite s)))
      ∧ (∀ r', r' ≠ r → heap m' !! r' = heap m !! r')
      ∧ same_containers m m'
      ∧ (toggle_favorite id m').1 = Some (is_favorite s)
      ∧ (toggle_favorite id m').2 = m.
Proof.
  intros Hlive. unfold get_song_by_id.
  destruct (_song_index m !! id) as [r|] eqn:Hidx.
  - pose proof (Hlive _ _ Hidx) as Hlt. simpl in Hlt.
    destruct (lookup_lt_is_Some_2 _ _ Hlt) as [s Hs].
    rewrite (toggle_favorite_known _ _ _ _ Hidx Hs).
    assert (Hnew : (<[r:=flip_favorite s]> (heap m)) !! r = Some (flip_favorite s))
      by by apply list_lookup_insert_eq.
    split; [split; intros ?; discriminate|].
    split.
    { split; [|discriminate]. intros E. exfalso.
      apply (f_equal heap) in E. cbn in E.
      rewrite E in Hnew. rewrite Hs in Hnew.
      injection Hnew as Hnew. by apply (flip_favorite_changes s). }
    intros r' [= <-]. rewrite (deref_lookup _ _ _ Hs). cbn zeta. cbn [fst snd].
    set (m' := with_heap (<[r:=flip_favorite s]> (heap m)) m).
    assert (Hidx' : _song_index m' !! id = Some r) by done.
    assert (Hs' : heap m' !! r = Some (flip_favorite s)) by done.
    rewrite (toggle_favorite_known _ _ _ _ Hidx' Hs').
    cbn [fst snd].
    split; [done|]. split; [done|].
    split; [intros r' Hne; by apply list_lookup_insert_ne|].
    split; [by repeat split|].
    split; [cbn; by rewrite negb_involutive|].
    unfold m'; cbn [heap with_heap].
    rewrite list_insert_insert_eq, flip_favorite_twice.
    rewrite list_insert_id by done. by destruct m.
  - unfold toggle_favorite. rewrite Hidx. cbn [fst snd].
    repeat split; try done.
Qed.

Lemma toggle_favorite_involution_witness :
  index_live Scenario.three
  ∧ (toggle_favorite 2 (toggle_favorite 2 Scenario.three).2).2 = Scenario.three.
Proof.
  assert (H : index_live Scenario.three).
  { apply (bool_decide_unpack _). vm_compute. exact I. }
  split; [exact H|].
  destruct (toggle_favorite_involution 2 Scenario.three H) as (_ & _ & Hk).
  apply (Hk 1%nat). reflexivity.
Defined.

(** * Playlists *)

Lemma create_playlist_lookup (name : string) (m : Manager) :
  playlists (create_playlist name m) !! name
  = Some (default (Playlist.new name) (playlists m !! name)).
Proof.
  unfold create_playlist.
  destruct (playlists m !! name) as [pl|] eqn:E; simpl; [done|].
  apply lookup_insert_eq.
Qed.

Lemma create_playlist_other (name other : string) (m : Manager) :
  other ≠ name →
  playlists (create_playlist name m) !! other = playlists m !! other.
Proof.
  intros Hne. unfold create_playlist.
  destruct (playlists m !! name); simpl; [done|].
  by apply lookup_insert_ne.
Qed.

Lemma create_playlist_index (name : string) (m : Manager) :
  _song_index (create_playlist name m) = _song_index m.
Proof. unfold create_playlist. by destruct (playlists m !! name). Qed.

(** C9. After [add_song_to_playlist P i] a playlist named [P] exists: it is
    the earlier one (or a fresh empty one when there was none), extended by
    the song exactly when [i] is a known id; every other playlist is
    untouched.  The operation is total: nothing can be raised. *)
Theorem add_song_to_playlist_creates (P : string) (i : Z) (m : Manager) :
  let m' := add_song_to_playlist P i m in
  let before := default (Playlist.new P) (playlists m !! P) in
  is_Some (playlists m' !! P)
  ∧ (playlists m !! P = None → before = Playlist.mk P [])
  ∧ (get_song_by_id i m = None → playlists m' !! P = Some before)
  ∧ (∀ song, get_song_by_id i m = Some song →
       playlists m' !! P
       = Some (Playlist.mk (Playlist.name before)
                 (Playlist.to_list before ++ [song])))
  ∧ (∀ Q, Q ≠ P → playlists m' !! Q = playlists m !! Q).
Proof.
  cbn zeta. unfold add_song_to_playlist, get_song_by_id.
  rewrite create_playlist_index.
  pose proof (create_playlist_lookup P m) as Hc.
  destruct (_song_index m !! i) as [song|] eqn:Hi; cbn [playlists with_playlists].
  - split; [rewrite lookup_alter_eq, Hc; by eexists|].
    split; [by intros ->|].
    split; [done|].
    split; [intros ? [= <-]; by rewrite lookup_alter_eq, Hc|].
    intros Q Hne. rewrite lookup_alter_ne by done.
    by apply create_playlist_other.
  - split; [rewrite Hc; by eexists|].
    split; [by intros ->|].
    split; [done|].
    split; [done|].
    intros Q Hne. by apply create_playlist_other.
Qed.

(** * Playback *)

Lemma next_from_first {A} (f : A → Z) (b : Z) (pre : list A) (x : A)
    (rest : list A) :
  (∀ y, y ∈ pre → f y ≠ b) → f x = b →
  Playlist.next_from f b (pre ++ x :: rest) = head rest.
Proof.
  intros Hpre Hx. induction pre as [|y pre IH]; simpl.
  - by rewrite Hx, Z.eqb_refl.
  - destruct (Z.eqb_spec (f y) b) as [E|_].
    + exfalso. apply (Hpre y); [left|done].
    + apply IH. intros z Hz. apply Hpre. by right.
Qed.

(** C4 (amended). When playlist [P] has a non-empty name, the current id [b]
    is non-zero, and the first entry of [P] carrying id [b] is immediately
    followed by [c], [get_next_song b P] returns [c] and leaves the whole
    state, in particular queue and history, as it was. *)
Theorem get_next_song_in_playlist (rnd : Random) (b : Z) (P : string)
    (m : Manager) (pl : Playlist.t loc) (pre post : list loc) (rb rc : loc) :
  P ≠ "" → b ≠ 0%Z →
  playlists m !! P = Some pl →
  Playlist.to_list pl = pre ++ rb :: rc :: post →
  sid m rb = b →
  (∀ x, x ∈ pre → sid m x ≠ b) →
  get_next_song rnd (Some b) (Some P) m = (Some rc, m).
Proof.
  intros HP Hb Hpl Hlist Hrb Hpre.
  unfold get_next_song, playlist_step. cbn [truthy_name truthy_id].
  assert (PyStr.truthy P = true) as -> by by destruct P.
  assert (negb (b =? 0)%Z = true) as ->.
  { apply negb_true_iff. by apply Z.eqb_neq. }
  cbn [andb]. rewrite Hpl. unfold Playlist.next_of.
  unfold Playlist.to_list, DoublyLinkedList.to_list in Hlist. rewrite Hlist.
  by rewrite (next_from_first (sid m) b pre rb (rc :: post) Hpre Hrb).
Qed.

Lemma get_next_song_in_playlist_witness :
  get_next_song Scenario.any_random (Some 2%Z) (Some "Road Trip")
    Scenario.road_trip
  = (Some 2%nat, Scenario.road_trip).
Proof.
  apply (get_next_song_in_playlist Scenario.any_random 2 "Road Trip"
           Scenario.road_trip (Playlist.mk "Road Trip" [0; 1; 2]%nat)
           [0%nat] [] 1%nat 2%nat).
  - discriminate.
  - discriminate.
  - vm_compute. reflexivity.
  - reflexivity.
  - vm_compute. reflexivity.
  - intros x Hx. apply list_elem_of_singleton in Hx. subst x.
    vm_compute. discriminate.
Defined.

(** C4 as stated fails when the playlist repeats a song: in [B, A, B, C]
    the entry B is immediately followed by C, yet the song after the first B,
    namely A, is returned. *)
Lemma get_next_song_repeated_entry :
  let m := Scenario.road_trip_twice in
  ∃ pl, reachable m
        ∧ playlists m !! "Road Trip" = Some pl
        ∧ Playlist.to_list pl = [1; 0] ++ 1 :: 2 :: []
        ∧ sid m 1 = 2%Z ∧ sid m 2 = 3%Z ∧ sid m 0 = 1%Z
        ∧ (get_next_song Scenario.any_random (Some 2%Z) (Some "Road Trip") m).1
          = Some 0
        ∧ (get_next_song Scenario.any_random (Some 2%Z) (Some "Road Trip") m).1
          ≠ Some 2.
Proof.
  exists (Playlist.mk "Road Trip" [1; 0; 1; 2]).
  split; [apply reachable_script|].
  split_all; by_evaluation.
Qed.

Lemma prev_step_none_pop (c : option Z) (pl : option string) (m : Manager) :
  playlist_step Playlist.prev_of c pl m = None →
  get_previous_song c pl m
  = match history m with
    | [] => (None, with_history [] m)
    | top :: rest =>
        if truthy_id c && bool_decide (Some (sid m top) = c)
        then (head rest, with_history (tail rest) m)
        else (Some top, with_history rest m)
    end.
Proof.
  intros Hstep. unfold get_previous_song. rewrite Hstep.
  destruct (history m) as [|top rest] eqn:Hh; [done|].
  cbn [Stack.pop fst snd]. change (sid (with_history rest m) top) with (sid m top).
  destruct (truthy_id c && bool_decide (Some (sid m top) = c)); [|done].
  cbn [history with_history]. by destruct rest.
Qed.

(** C5. When the playlist step yields nothing, [get_previous_song] pops the
    history, whatever current id is passed, if any.  On an empty history it
    returns nothing.  When a current id is given (non-zero, which is how the
    code tests that one is given) and the top entry carries it, it pops once
    more and returns that second entry (nothing if there is none).
    Otherwise, which includes the call without a current id, it returns the
    top entry. *)
Theorem get_previous_song_history (current : option Z) (pl : option string)
    (m : Manager) :
  playlist_step Playlist.prev_of current pl m = None →
  match history m with
  | [] => get_previous_song current pl m = (None, m)
  | top :: rest =>
      (current = Some (sid m top) → sid m top ≠ 0%Z →
       get_previous_song current pl m
       = (head rest, with_history (tail rest) m))
      ∧ (current ≠ Some (sid m top) ∨ current = Some 0%Z →
         get_previous_song current pl m = (Some top, with_history rest m))
  end.
Proof.
  intros Hstep. rewrite (prev_step_none_pop _ _ _ Hstep).
  destruct (history m) as [|top rest] eqn:Hh.
  - by rewrite <- Hh, with_history_same.
  - split.
    + intros -> Hid.
      assert (truthy_id (Some (sid m top)) = true) as ->.
      { cbn. apply negb_true_iff. by apply Z.eqb_neq. }
      by rewrite bool_decide_eq_true_2.
    + intros [Hne| ->]; [|done].
      rewrite bool_decide_eq_false_2 by congruence.
      by rewrite andb_false_r.
Qed.

Lemma get_previous_song_history_witness :
  history Scenario.played_abc = [2; 1; 0]
  ∧ sid Scenario.played_abc 2 = 3%Z
  ∧ get_previous_song (Some 3%Z) None Scenario.played_abc
    = (Some 1, with_history [0] Scenario.played_abc)
  ∧ get_previous_song None None Scenario.played_abc
    = (Some 2, with_history [1; 0] Scenario.played_abc).
Proof.
  split; [vm_compute; reflexivity|]. split; [vm_compute; reflexivity|].
  pose proof (get_previous_song_history (Some 3%Z) None Scenario.played_abc)
    as H.
  pose proof (get_previous_song_history None None Scenario.played_abc) as H'.
  change (history Scenario.played_abc) with [2; 1; 0] in H, H'.
  split.
  - apply H; [reflexivity|vm_compute; reflexivity|vm_compute; discriminate].
  - apply H'; [reflexivity|]. left. discriminate.
Defined.

(** * Rescan and song ids *)

Lemma load_file_heap (m : Manager) (f : string) :
  heap (load_file m f) = heap m ++ [song_of_file (_next_id m) f].
Proof. reflexivity. Qed.

Lemma load_file_library (m : Manager) (f : string) :
  library (load_file m f) = library m ++ [length (heap m)].
Proof. reflexivity. Qed.

Lemma load_file_next_id (m : Manager) (f : string) :
  _next_id (load_file m f) = (_next_id m + 1)%Z.
Proof. reflexivity. Qed.

Lemma load_file_sid_old (m : Manager) (f : string) (r : loc) :
  (r < length (heap m))%nat → sid (load_file m f) r = sid m r.
Proof.
  intros Hr. unfold sid, deref. rewrite load_file_heap.
  by rewrite lookup_total_app_l.
Qed.

Lemma load_file_sid_new (m : Manager) (f : string) :
  sid (load_file m f) (length (heap m)) = _next_id m.
Proof.
  unfold sid, deref. rewrite load_file_heap.
  rewrite lookup_total_app_r by lia. by rewrite Nat.sub_diag.
Qed.

(** The loading loop numbers the files consecutively from the counter. *)
Lemma load_files_ids (fs : list string) (m : Manager) :
  Forall (λ r, (r < length (heap m))%nat) (library m) →
  let m' := foldl load_file m fs in
  map (sid m') (library m')
  = map (sid m) (library m)
      ++ map (λ k, (_next_id m + Z.of_nat k)%Z) (seq 0 (length fs))
  ∧ _next_id m' = (_next_id m + Z.of_nat (length fs))%Z.
Proof.
  revert m. induction fs as [|f fs IH]; intros m Hlib; cbn zeta.
  - simpl. rewrite app_nil_r. split; [done|lia].
  - cbn [foldl]. 
    assert (Hlib1 : Forall (λ r, (r < length (heap (load_file m f)))%nat)
                      (library (load_file m f))).
    { rewrite load_file_library, load_file_heap, length_app. simpl.
      apply Forall_app. split.
      - eapply Forall_impl; [exact Hlib|]. simpl. lia.
      - apply Forall_singleton. lia. }
    destruct (IH (load_file m f) Hlib1) as [Hids Hnext].
    rewrite Hids, Hnext, load_file_next_id. split; [|simpl length; lia].
    rewrite load_file_library, map_app. simpl map at 2.
    rewrite load_file_sid_new.
    rewrite <- app_assoc. f_equal.
    { apply map_ext_Forall. eapply Forall_impl; [exact Hlib|].
      intros r Hr. by apply load_file_sid_old. }
    simpl. rewrite Z.add_0_r. f_equal.
    rewrite <- seq_shift, map_map. apply map_ext. intros k. lia.
Qed.

Lemma delete_song_heap (id : Z) (m : Manager) :
  heap (delete_song id m) = heap m.
Proof. unfold delete_song. by destruct (_song_index m !! id). Qed.

Lemma delete_song_next_id (id : Z) (m : Manager) :
  _next_id (delete_song id m) = _next_id m.
Proof. unfold delete_song. by destruct (_song_index m !! id). Qed.

(** C2 as stated fails across rescans: song "b" is created with id 1 and is
    still referenced by the queue when a rescan of a directory that gained
    "a.mp3" hands id 1 to song "a". *)
Lemma rescan_reassigns_id :
  let m := Scenario.then_a_b in
  reachable m
  ∧ queue m = [0] ∧ get_song_by_id 1 m = Some 1
  ∧ sid m 0 = 1%Z ∧ sid m 1 = 1%Z
  ∧ file_path (deref m 0) = "static/music/b.mp3"
  ∧ file_path (deref m 1) = "static/music/a.mp3"
  ∧ deref m 0 ≠ deref m 1.
Proof.
  cbn zeta. split; [apply reachable_script|].
  split_all; by_evaluation.
Qed.

(** C1. Rescanning a directory that lost a file leaves the queue holding a
    song whose id is no longer in the id-lookup index: invariant 5 holds
    before the rescan and fails after it. *)
Theorem rescan_orphans_queue :
  let before := Scenario.queued_b in
  let after := run (Rescan ["a.mp3"]) before in
  reachable before
  ∧ refs_indexed before
  ∧ queue after = [1] ∧ sid after 1 = 2%Z ∧ get_song_by_id 2 after = None
  ∧ ¬ refs_indexed after.
Proof.
  cbn zeta.
  split; [apply reachable_script|].
  split; [apply (bool_decide_unpack _); vm_compute; exact I|].
  split_all; try by_evaluation.
  apply (bool_decide_unpack _). vm_compute. exact I.
Qed.

(** * The genre index *)

Section genre_index.
Context {A : Type}.
Implicit Types (hs : list (GenreMultiList.GenreHeader A)) (g : string).

Import GenreMultiList.

Lemma same_genre_trans_false g1 g2 h :
  PyStr.lower g1 ≠ PyStr.lower g2 →
  same_genre h g1 = true → same_genre h g2 = false.
Proof.
  unfold same_genre. intros Hne H1.
  apply String.eqb_eq in H1. apply String.eqb_neq. congruence.
Qed.

Lemma same_genre_refl g : same_genre g g = true.
Proof. unfold same_genre. apply String.eqb_refl. Qed.

Lemma get_songs_update_found g f hs :
  is_Some (_find_genre g hs) →
  get_songs g (update_found g f hs) = f (get_songs g hs).
Proof.
  unfold get_songs. induction hs as [|h hs IH]; simpl.
  - by intros [? ?].
  - destruct (same_genre (hgenre h) g) eqn:E; simpl.
    + by rewrite E.
    + rewrite E. apply IH.
Qed.

Lemma find_genre_update_found_other g g' f hs :
  PyStr.lower g' ≠ PyStr.lower g →
  _find_genre g' (update_found g f hs) = _find_genre g' hs.
Proof.
  intros Hne. induction hs as [|h hs IH]; simpl; [done|].
  destruct (same_genre (hgenre h) g) eqn:E; simpl.
  - assert (same_genre (hgenre h) g' = false) as ->; [|done].
    eapply same_genre_trans_false; [|exact E]. congruence.
  - by rewrite IH.
Qed.

Lemma hgenre_update_found g f hs :
  map hgenre (update_found g f hs) = map hgenre hs.
Proof.
  induction hs as [|h hs IH]; simpl; [done|].
  destruct (same_genre (hgenre h) g); simpl; [done|]. by rewrite IH.
Qed.

Lemma find_genre_is_Some_update_found g g' f hs :
  is_Some (_find_genre g' hs) → is_Some (_find_genre g' (update_found g f hs)).
Proof.
  induction hs as [|h hs IH]; simpl; [done|].
  destruct (same_genre (hgenre h) g) eqn:E; simpl.
  - destruct (same_genre (hgenre h) g'); [by eexists|done].
  - destruct (same_genre (hgenre h) g'); [by eexists|apply IH].
Qed.

Lemma get_songs_add_song g x hs :
  get_songs g (add_song g x hs) = x :: get_songs g hs.
Proof.
  unfold add_song. destruct (_find_genre g hs) as [h|] eqn:E.
  - apply get_songs_update_found. rewrite E. by eexists.
  - unfold get_songs at 1. simpl. rewrite same_genre_refl. simpl.
    unfold get_songs. by rewrite E.
Qed.

Lemma get_songs_add_song_other g g' x hs :
  PyStr.lower g' ≠ PyStr.lower g →
  get_songs g' (add_song g x hs) = get_songs g' hs.
Proof.
  intros Hne. unfold add_song, get_songs.
  destruct (_find_genre g hs) as [h|] eqn:E.
  - by rewrite find_genre_update_found_other.
  - simpl. assert (same_genre g g' = false) as ->; [|done].
    unfold same_genre. apply String.eqb_neq. congruence.
Qed.

Lemma hgenre_add_song_known g x hs :
  is_Some (_find_genre g hs) →
  map hgenre (add_song g x hs) = map hgenre hs.
Proof.
  intros [h E]. unfold add_song. rewrite E. apply hgenre_update_found.
Qed.

Lemma get_songs_remove_song g p hs :
  get_songs g (remove_song g p hs).2 = remove_first p (get_songs g hs).
Proof.
  unfold remove_song. destruct (_find_genre g hs) as [h|] eqn:E; simpl.
  - apply get_songs_update_found. rewrite E. by eexists.
  - unfold get_songs. by rewrite E.
Qed.

Lemma hgenre_remove_song g p hs :
  map hgenre (remove_song g p hs).2 = map hgenre hs.
Proof.
  unfold remove_song. destruct (_find_genre g hs); simpl; [|done].
  apply hgenre_update_found.
Qed.

Lemma find_genre_is_Some_remove_song g g' p hs :
  is_Some (_find_genre g' hs) →
  is_Some (_find_genre g' (remove_song g p hs).2).
Proof.
  unfold remove_song. destruct (_find_genre g hs); simpl; [|done].
  apply find_genre_is_Some_update_found.
Qed.

End genre_index.

Lemma remove_first_unique {A} (f : A → Z) (id : Z) (l : list A) (x : A) :
  NoDup (map f l) → x ∈ remove_first (λ y, Z.eqb (f y) id) l → f x ≠ id.
Proof.
  induction l as [|y l IH]; simpl; [by intros _ ?%elem_of_nil|].
  intros Hnd Hx. apply NoDup_cons in Hnd as [Hy Hnd].
  destruct (Z.eqb_spec (f y) id) as [E|E].
  - intros Hfx. apply Hy. rewrite E, <- Hfx.
    apply list_elem_of_fmap. by exists x.
  - apply elem_of_cons in Hx as [->|Hx]; [done|]. by apply IH.
Qed.

Lemma deref_with_genres g (m : Manager) (r : loc) :
  deref (with_genres g m) r = deref m r.
Proof. reflexivity. Qed.

(** What [update_song] does when only a new genre is passed. *)
Lemma update_song_only_genre (id : Z) (G : string) (m : Manager) (r : loc)
    (s : Song) :
  _song_index m !! id = Some r → heap m !! r = Some s → genre s ≠ G →
  let m1 := with_heap (<[r := apply_fields (only_genre G) s]> (heap m)) m in
  update_song id (only_genre G) m
  = with_genres
      (GenreMultiList.add_song G r
         (GenreMultiList.remove_song (genre s) (has_id m1 id) (genres m)).2)
      m1.
Proof.
  intros Hidx Hs HG m1. unfold update_song. rewrite Hidx.
  rewrite (deref_lookup _ _ _ Hs). fold m1.
  assert (Hs1 : deref m1 r = apply_fields (only_genre G) s).
  { apply deref_lookup. unfold m1; simpl. apply list_lookup_insert_eq.
    by eapply lookup_lt_Some. }
  rewrite Hs1. change (genre (apply_fields (only_genre G) s)) with G.
  rewrite (bool_decide_eq_true_2 _ HG).
  rewrite deref_with_genres, Hs1.
  change (title (apply_fields (only_genre G) s)) with (title s).
  rewrite bool_decide_eq_false_2 by (intros H; by apply H).
  reflexivity.
Qed.

(** C7 (amended). For a song [s] of the index and a genre [G] that differs
    from [s]'s genre even when letter case is ignored, after
    [update_song(s.song_id, genre=G)] the song is listed under [G] and no
    longer under its old genre, and when some genre entry already matched [G]
    the genre listing is unchanged.  (The old genre's bucket is assumed to
    hold every id once.) *)
Theorem update_song_genre_moves (id : Z) (G : string) (m : Manager)
    (r : loc) (s : Song) :
  get_song_by_id id m = Some r →
  heap m !! r = Some s →
  song_id s = id →
  PyStr.lower G ≠ PyStr.lower (genre s) →
  NoDup (map (sid m) (get_songs_by_genre (genre s) m)) →
  let m' := update_song id (only_genre G) m in
  r ∈ get_songs_by_genre G m'
  ∧ (r ∉ get_songs_by_genre (genre s) m')
  ∧ (is_Some (GenreMultiList._find_genre G (genres m)) →
     get_all_genres m' = get_all_genres m).
Proof.
  intros Hidx Hs Hid Hlow Hnd. cbn zeta.
  unfold get_song_by_id in Hidx.
  assert (HG : genre s ≠ G) by congruence.
  rewrite (update_song_only_genre id G m r s Hidx Hs HG). cbn zeta.
  set (s' := apply_fields (only_genre G) s).
  set (m1 := with_heap (<[r:=s']> (heap m)) m).
  assert (Hsid : ∀ x, sid m1 x = sid m x).
  { intros x. unfold sid, deref, m1. simpl.
    destruct (decide (x = r)) as [->|Hne].
    - rewrite !list_lookup_total_alt, Hs.
      rewrite list_lookup_insert_eq by by eapply lookup_lt_Some. done.
    - rewrite !list_lookup_total_alt. by rewrite list_lookup_insert_ne. }
  unfold get_songs_by_genre, get_all_genres, GenreMultiList.get_genres.
  cbn [genres with_genres].
  split; [rewrite get_songs_add_song; by left|].
  split.
  - rewrite get_songs_add_song_other by congruence.
    rewrite get_songs_remove_song. intros Hin.
    apply (remove_first_unique (sid m1) id _ r) in Hin.
    + apply Hin. rewrite Hsid. unfold sid. by rewrite (deref_lookup _ _ _ Hs).
    + erewrite map_ext; [exact Hnd|]. intros x. apply Hsid.
  - intros Hex. rewrite hgenre_add_song_known.
    + by rewrite hgenre_remove_song.
    + by apply find_genre_is_Some_remove_song.
Qed.

Lemma update_song_genre_moves_witness :
  let m := Scenario.rock_c in
  let m' := update_song 1 (only_genre "ROCK") m in
  0 ∈ get_songs_by_genre "ROCK" m'
  ∧ (0 ∉ get_songs_by_genre "Unknown" m')
  ∧ get_all_genres m' = get_all_genres m.
Proof.
  cbn zeta.
  destruct (update_song_genre_moves 1 "ROCK" Scenario.rock_c 0
              (mkSong 1 "a" "Unknown" "Unknown" "Unknown" 2024 0
                 "static/music/a.mp3" 0 false)) as (H1 & H2 & H3).
  - vm_compute. reflexivity.
  - vm_compute. reflexivity.
  - reflexivity.
  - vm_compute. discriminate.
  - apply (bool_decide_unpack _). vm_compute. exact I.
  - split; [exact H1|]. split; [exact H2|]. apply H3.
    eexists. vm_compute. reflexivity.
Defined.

(** C7 as stated fails for a genre that differs from the old one only in
    letter case: the song is unlinked from and put back into the same
    bucket, so it is still listed under its old genre. *)
Lemma update_song_genre_case_variant :
  let m := Scenario.three in
  let m' := update_song 1 (only_genre "unknown") m in
  reachable m
  ∧ get_song_by_id 1 m = Some 0
  ∧ genre (deref m 0) = "Unknown"
  ∧ "unknown" ≠ "Unknown"
  ∧ 0 ∈ get_songs_by_genre "unknown" m'
  ∧ 0 ∈ get_songs_by_genre "Unknown" m'.
Proof.
  cbn zeta. split; [apply reachable_script|].
  split; [vm_compute; reflexivity|]. split; [vm_compute; reflexivity|].
  split; [discriminate|].
  split; apply (bool_decide_unpack _); vm_compute; exact I.
Qed.

(** * The similarity graph *)

Section similarity_graph.
Implicit Types (adj : gmap Z (list Z)) (a b : Song) (x y z k : Z).

Import SongGraph.

Lemma neighbors_setdefault k x adj :
  neighbors x (setdefault k adj) = neighbors x adj.
Proof.
  unfold neighbors, setdefault. destruct (adj !! k) eqn:E; [done|].
  destruct (decide (k = x)) as [->|Hne].
  - by rewrite lookup_insert_eq, E.
  - by rewrite lookup_insert_ne.
Qed.

Lemma setdefault_is_Some k k' adj :
  k' = k ∨ is_Some (adj !! k') → is_Some (setdefault k adj !! k').
Proof.
  unfold setdefault. destruct (adj !! k) eqn:E.
  - intros [->|H]; [by rewrite E|done].
  - intros [->|H]; [rewrite lookup_insert_eq; by eexists|].
    destruct (decide (k = k')) as [->|Hne].
    + rewrite lookup_insert_eq. by eexists.
    + by rewrite lookup_insert_ne.
Qed.

Lemma append_absent_is_Some x y k adj :
  is_Some (adj !! k) → is_Some (append_absent x y adj !! k).
Proof.
  intros Hk. unfold append_absent. destruct (adj !! x) as [l|] eqn:E; [|done].
  case_bool_decide; [done|].
  destruct (decide (x = k)) as [->|Hne].
  - rewrite lookup_insert_eq. by eexists.
  - by rewrite lookup_insert_ne.
Qed.

Lemma neighbors_append_absent x y x' z adj :
  is_Some (adj !! x) →
  z ∈ neighbors x' (append_absent x y adj)
  ↔ z ∈ neighbors x' adj ∨ (x' = x ∧ z = y).
Proof.
  intros [l Hl]. unfold append_absent, neighbors. rewrite Hl.
  case_bool_decide as Hy.
  - split; [by left|]. intros [H|[-> ->]]; [done|]. by rewrite Hl.
  - destruct (decide (x = x')) as [<-|Hne].
    + rewrite lookup_insert_eq, Hl. simpl. rewrite elem_of_app.
      rewrite list_elem_of_singleton. intuition congruence.
    + rewrite lookup_insert_ne by done. intuition congruence.
Qed.

Lemma neighbors_add_edge (u v : Z) x z adj :
  z ∈ neighbors x (add_edge u v adj)
  ↔ z ∈ neighbors x adj ∨ (u ≠ v ∧ ((x = u ∧ z = v) ∨ (x = v ∧ z = u))).
Proof.
  unfold add_edge. case_bool_decide as Huv; [intuition congruence|].
  assert (Hu : is_Some (setdefault v (setdefault u adj) !! u)).
  { apply setdefault_is_Some. right. apply setdefault_is_Some. by left. }
  assert (Hv : is_Some (setdefault v (setdefault u adj) !! v)).
  { apply setdefault_is_Some. by left. }
  rewrite neighbors_append_absent by by apply append_absent_is_Some.
  rewrite neighbors_append_absent by done.
  rewrite !neighbors_setdefault. intuition congruence.
Qed.

Lemma neighbors_link_similar a adj b x z :
  z ∈ neighbors x (link_similar a adj b)
  ↔ z ∈ neighbors x adj ∨ linked a b x z.
Proof.
  unfold link_similar, linked.
  destruct (Z.leb_spec 2 (score a b)) as [Hs|Hs].
  - rewrite neighbors_add_edge. intuition congruence.
  - split; [by left|]. intros [H|[H _]]; [done|lia].
Qed.

Lemma neighbors_link_all a (rest : list Song) adj x z :
  z ∈ neighbors x (foldl (link_similar a) adj rest)
  ↔ z ∈ neighbors x adj ∨ ∃ b, b ∈ rest ∧ linked a b x z.
Proof.
  revert adj. induction rest as [|b rest IH]; intros adj; simpl.
  - split; [by left|]. intros [H|(b & Hb & _)]; [done|].
    by apply elem_of_nil in Hb.
  - rewrite IH, neighbors_link_similar. split.
    + intros [[H|H]|(b' & Hb' & H)].
      * by left.
      * right. exists b. split; [by left|done].
      * right. exists b'. split; [by right|done].
    + intros [H|(b' & Hb' & H)]; [by left; left|].
      apply elem_of_cons in Hb' as [->|Hb'].
      * left. by right.
      * right. by exists b'.
Qed.

Lemma neighbors_similarity_edges (songs : list Song) adj x z :
  z ∈ neighbors x (similarity_edges songs adj)
  ↔ z ∈ neighbors x adj
    ∨ ∃ a b, (a, b) ∈ pairs songs ∧ linked a b x z.
Proof.
  revert adj. induction songs as [|a rest IH]; intros adj; simpl.
  - split; [by left|]. intros [H|(a & b & Hab & _)]; [done|].
    by apply elem_of_nil in Hab.
  - rewrite IH, neighbors_link_all. split.
    + intros [[H|(b & Hb & H)]|(a' & b' & Hab & H)].
      * by left.
      * right. exists a, b. split; [|done].
        apply elem_of_app. left. apply list_elem_of_fmap. by exists b.
      * right. exists a', b'. split; [|done]. apply elem_of_app. by right.
    + intros [H|(a' & b' & Hab & H)]; [by left; left|].
      apply elem_of_app in Hab as [Hab|Hab].
      * apply list_elem_of_fmap in Hab as (b & [= -> ->] & Hb).
        left. right. by exists b.
      * right. by exists a', b'.
Qed.

Lemma neighbors_nodes_only (songs : list Song) x :
  neighbors x (nodes_only songs) = [].
Proof.
  unfold nodes_only.
  enough (H : ∀ adj, neighbors x adj = [] →
              neighbors x (foldl (λ adj s, add_song (song_id s) adj) adj songs)
              = []) by by apply H.
  induction songs as [|s songs IH]; intros adj Hadj; simpl; [done|].
  apply IH. unfold add_song. by rewrite neighbors_setdefault.
Qed.

End similarity_graph.

Lemma pairs_elem_of {A} (l : list A) (a b : A) :
  (a, b) ∈ pairs l → a ∈ l ∧ b ∈ l.
Proof.
  induction l as [|c l IH]; simpl; [by intros ?%elem_of_nil|].
  intros [H|H]%elem_of_app.
  - apply list_elem_of_fmap in H as (b' & [= -> ->] & Hb).
    split; [by left|by right].
  - destruct (IH H). split; by right.
Qed.

Lemma pairs_total {A} (l : list A) (a b : A) :
  a ∈ l → b ∈ l → a ≠ b → (a, b) ∈ pairs l ∨ (b, a) ∈ pairs l.
Proof.
  induction l as [|c l IH]; simpl; [by intros ?%elem_of_nil|].
  intros Ha Hb Hne.
  apply elem_of_cons in Ha as [->|Ha]; apply elem_of_cons in Hb as [->|Hb].
  - done.
  - left. apply elem_of_app. left. apply list_elem_of_fmap. by exists b.
  - right. apply elem_of_app. left. apply list_elem_of_fmap. by exists a.
  - destruct (IH Ha Hb Hne); [left|right]; apply elem_of_app; by right.
Qed.

Lemma song_id_inj (songs : list Song) (a b : Song) :
  NoDup (map song_id songs) → a ∈ songs → b ∈ songs →
  song_id a = song_id b → a = b.
Proof.
  induction songs as [|c songs IH]; simpl; [by intros _ ?%elem_of_nil|].
  intros [Hc Hnd]%NoDup_cons Ha Hb Hid.
  apply elem_of_cons in Ha as [->|Ha]; apply elem_of_cons in Hb as [->|Hb].
  - done.
  - exfalso. apply Hc. rewrite Hid. apply list_elem_of_fmap. by exists b.
  - exfalso. apply Hc. rewrite <- Hid. apply list_elem_of_fmap. by exists a.
  - by apply IH.
Qed.

Lemma score_sym (a b : Song) : score a b = score b a.
Proof.
  unfold score.
  rewrite (String.eqb_sym (artist a)), (String.eqb_sym (genre a)).
  rewrite (andb_comm (PyStr.truthy (artist a))).
  rewrite (andb_comm (PyStr.truthy (genre a))).
  replace (Z.abs (year a - year b)) with (Z.abs (year b - year a)) by lia.
  done.
Qed.

Lemma load_file_deref_old (m : Manager) (f : string) (r : loc) :
  (r < length (heap m))%nat → deref (load_file m f) r = deref m r.
Proof.
  intros Hr. unfold deref. rewrite load_file_heap.
  by rewrite lookup_total_app_l.
Qed.

Lemma load_file_deref_new (m : Manager) (f : string) :
  deref (load_file m f) (length (heap m)) = song_of_file (_next_id m) f.
Proof.
  unfold deref. rewrite load_file_heap.
  rewrite lookup_total_app_r by lia. by rewrite Nat.sub_diag.
Qed.

Lemma load_file_graph (m : Manager) (f : string) :
  graph (load_file m f) = SongGraph.add_song (_next_id m) (graph m).
Proof.
  unfold load_file, _index_and_insert. cbn [graph with_next_id].
  f_equal. unfold deref. cbn [heap with_heap].
  rewrite lookup_total_app_r by lia. by rewrite Nat.sub_diag.
Qed.

(** The loading loop appends the constructed songs to the library and gives
    each a node. *)
Lemma load_files_songs (fs : list string) (m : Manager) :
  Forall (λ r, (r < length (heap m))%nat) (library m) →
  let m' := foldl load_file m fs in
  map (deref m') (library m')
  = map (deref m) (library m) ++ songs_of_files (_next_id m) fs
  ∧ graph m'
    = foldl (λ adj s, SongGraph.add_song (song_id s) adj) (graph m)
        (songs_of_files (_next_id m) fs).
Proof.
  revert m. induction fs as [|f fs IH]; intros m Hlib; cbn zeta.
  - simpl. by rewrite app_nil_r.
  - cbn [foldl songs_of_files].
    assert (Hlib1 : Forall (λ r, (r < length (heap (load_file m f)))%nat)
                      (library (load_file m f))).
    { rewrite load_file_library, load_file_heap, length_app. simpl.
      apply Forall_app. split.
      - eapply Forall_impl; [exact Hlib|]. simpl. lia.
      - apply Forall_singleton. lia. }
    destruct (IH (load_file m f) Hlib1) as [Hsongs Hgraph].
    rewrite Hsongs, Hgraph, load_file_next_id, load_file_graph. split; [|done].
    rewrite load_file_library, map_app. simpl map at 2.
    rewrite load_file_deref_new, <- app_assoc. f_equal.
    apply map_ext_Forall. eapply Forall_impl; [exact Hlib|].
    intros r Hr. by apply load_file_deref_old.
Qed.

Lemma rescan_library_NoDup (listing : list string) (m : Manager) :
  NoDup (map (sid (rescan listing m)) (get_all_songs (rescan listing m))).
Proof.
  unfold rescan, get_all_songs, SinglyLinkedList.to_list.
  set (m0 := mkManager _ _ _ _ _ _ _ _ _ _).
  destruct (load_files_ids (media_files listing) m0) as [E _];
    [by apply Forall_nil|].
  cbn zeta in E. cbn [library with_graph].
  change (sid (with_graph ?g ?x)) with (sid x). rewrite E. simpl.
  apply NoDup_fmap_2; [|apply NoDup_seq]. intros a b. lia.
Qed.

(** The graph a rescan ends with is the edge construction run over the
    complete set of songs it created, from the edge-free graph. *)
Lemma rescan_graph (listing : list string) (m : Manager) :
  let m' := rescan listing m in
  let songs := songs_of_files 1 (media_files listing) in
  map (deref m') (get_all_songs m') = songs
  ∧ graph m' = similarity_edges songs (nodes_only songs).
Proof.
  cbn zeta. unfold rescan, get_all_songs, SinglyLinkedList.to_list.
  set (m0 := mkManager _ _ _ _ _ _ _ _ _ _).
  destruct (load_files_songs (media_files listing) m0) as [Hsongs Hgraph].
  { by apply Forall_nil. }
  cbn zeta in Hsongs, Hgraph. cbn [library graph with_graph].
  change (deref (with_graph ?g ?x)) with (deref x).
  change (map (deref m0) (library m0) ++ ?l) with l in Hsongs.
  by rewrite Hsongs, Hgraph.
Qed.

(** C6. Over a song set with pairwise distinct ids, starting from the
    edge-free graph the loading loop leaves, the edge construction of
    [rescan] links two distinct songs, in both directions, exactly when
    their score (3 for an equal non-empty artist, 2 for an equal non-empty
    genre, 1 for release years at most 2 apart) is at least 2; and the graph
    a rescan ends with is this construction over all the songs it created,
    whose ids are pairwise distinct. *)
Theorem similarity_edges_score (songs : list Song) (a b : Song) :
  NoDup (map song_id songs) →
  a ∈ songs → b ∈ songs → song_id a ≠ song_id b →
  let adj := similarity_edges songs (nodes_only songs) in
  (song_id b ∈ SongGraph.neighbors (song_id a) adj ↔ (2 ≤ score a b)%Z)
  ∧ (song_id a ∈ SongGraph.neighbors (song_id b) adj ↔ (2 ≤ score a b)%Z)
  ∧ score a b
    = ((if PyStr.truthy (artist a) && PyStr.truthy (artist b)
           && bool_decide (artist a = artist b) then 3 else 0)
       + (if PyStr.truthy (genre a) && PyStr.truthy (genre b)
             && bool_decide (genre a = genre b) then 2 else 0)
       + (if bool_decide (Z.abs (year a - year b) ≤ 2)%Z then 1 else 0))%Z
  ∧ ∀ listing m,
      let m' := rescan listing m in
      let all_songs := map (deref m') (get_all_songs m') in
      NoDup (map song_id all_songs)
      ∧ graph m' = similarity_edges all_songs (nodes_only all_songs).
Proof.
  intros Hnd Ha Hb Hne. cbn zeta.
  assert (Hrescan : ∀ listing m,
    NoDup (map song_id (map (deref (rescan listing m))
                          (get_all_songs (rescan listing m))))
    ∧ graph (rescan listing m)
      = similarity_edges
          (map (deref (rescan listing m)) (get_all_songs (rescan listing m)))
          (nodes_only (map (deref (rescan listing m))
                         (get_all_songs (rescan listing m))))).
  { intros listing m. split.
    - rewrite map_map. apply rescan_library_NoDup.
    - destruct (rescan_graph listing m) as [Hsongs Hgraph].
      cbn zeta in Hsongs, Hgraph. by rewrite Hsongs. }
  assert (Hab : a ≠ b) by congruence.
  assert (Hedge : ∀ x z,
    z ∈ SongGraph.neighbors x (similarity_edges songs (nodes_only songs))
    ↔ ∃ a' b', (a', b') ∈ pairs songs ∧ linked a' b' x z).
  { intros x z. rewrite neighbors_similarity_edges, neighbors_nodes_only.
    split; [intros [H|H]; [by apply elem_of_nil in H|done]|by right]. }
  assert (Hback : ∀ a' b', (a', b') ∈ pairs songs →
    (song_id a' = song_id a ∧ song_id b' = song_id b)
    ∨ (song_id a' = song_id b ∧ song_id b' = song_id a) →
    linked a' b' (song_id a) (song_id b) ∨ linked a' b' (song_id b) (song_id a) →
    (2 ≤ score a b)%Z).
  { intros a' b' Hp Hids [(Hs & _)|(Hs & _)];
      destruct (pairs_elem_of _ _ _ Hp) as [Ha' Hb'];
      destruct Hids as [[E1 E2]|[E1 E2]];
      apply (song_id_inj songs _ _ Hnd) in E1; try done;
      apply (song_id_inj songs _ _ Hnd) in E2; try done; subst a' b';
      first [exact Hs | by rewrite score_sym]. }
  split; [|split; [|split; [|exact Hrescan]]].
  - rewrite Hedge. split.
    + intros (a' & b' & Hp & Hl). apply (Hback a' b' Hp); [|by left].
      destruct Hl as (_ & _ & [[? ?]|[? ?]]); [left|right]; by split.
    + intros Hs. destruct (pairs_total songs a b Ha Hb Hab) as [Hp|Hp].
      * exists a, b. split; [done|]. split; [done|]. split; [done|]. by left.
      * exists b, a. split; [done|]. split; [by rewrite score_sym|].
        split; [done|]. by right.
  - rewrite Hedge. split.
    + intros (a' & b' & Hp & Hl). apply (Hback a' b' Hp); [|by right].
      destruct Hl as (_ & _ & [[? ?]|[? ?]]); [right|left]; by split.
    + intros Hs. destruct (pairs_total songs a b Ha Hb Hab) as [Hp|Hp].
      * exists a, b. split; [done|]. split; [done|]. split; [done|]. by right.
      * exists b, a. split; [done|]. split; [by rewrite score_sym|].
        split; [done|]. by left.
  - unfold score. f_equal; [f_equal|].
    + destruct (String.eqb_spec (artist a) (artist b));
        [by rewrite bool_decide_eq_true_2|by rewrite bool_decide_eq_false_2].
    + destruct (String.eqb_spec (genre a) (genre b));
        [by rewrite bool_decide_eq_true_2|by rewrite bool_decide_eq_false_2].
    + destruct (Z.leb_spec (Z.abs (year a - year b)) 2);
        [by rewrite bool_decide_eq_true_2|rewrite bool_decide_eq_false_2; [done|lia]].
Qed.

Lemma similarity_edges_score_witness :
  let songs := [Scenario.song_A; Scenario.song_B; Scenario.song_C] in
  let adj := similarity_edges songs (nodes_only songs) in
  SongGraph.neighbors (song_id Scenario.song_A) adj = [song_id Scenario.song_B]
  ∧ score Scenario.song_A Scenario.song_B = 4%Z
  ∧ score Scenario.song_A Scenario.song_C = 0%Z
  ∧ (song_id Scenario.song_B ∈ SongGraph.neighbors (song_id Scenario.song_A) adj
     ↔ (2 ≤ score Scenario.song_A Scenario.song_B)%Z).
Proof.
  cbn zeta. split; [vm_compute; reflexivity|].
  split; [vm_compute; reflexivity|]. split; [vm_compute; reflexivity|].
  apply (similarity_edges_score
           [Scenario.song_A; Scenario.song_B; Scenario.song_C]
           Scenario.song_A Scenario.song_B).
  - apply (bool_decide_unpack _). vm_compute. exact I.
  - apply (bool_decide_unpack _). vm_compute. exact I.
  - apply (bool_decide_unpack _). vm_compute. exact I.
  - discriminate.
Defined.

(** * Title search *)

Section title_tree.
Context {A : Type}.
Implicit Types (t : BST.tree A) (k : string) (v : A).

Import BST.

Lemma compare_same k : String.compare k k = Eq.
Proof.
  pose proof (String.compare_antisym k k) as H.
  by destruct (String.compare k k).
Qed.

(** A descent for the key just inserted follows the path of the insertion. *)
Lemma descend_insert_same t k v : descend k (_insert t k v) = Some v.
Proof.
  induction t as [|key value l IHl r IHr]; simpl.
  - by rewrite compare_same.
  - destruct (String.compare k key) eqn:E; simpl; rewrite E; done.
Qed.

(** A descent for any other key does not see the insertion. *)
Lemma descend_insert_other t k k' v :
  k' ≠ k → descend k' (_insert t k v) = descend k' t.
Proof.
  intros Hne. induction t as [|key value l IHl r IHr]; simpl.
  - destruct (String.compare k' k) eqn:E; try done.
    by apply String.compare_eq_iff in E.
  - destruct (String.compare k key) eqn:E; simpl.
    + apply String.compare_eq_iff in E. subst key.
      destruct (String.compare k' k) eqn:E'; try done.
      by apply String.compare_eq_iff in E'.
    + by rewrite IHl.
    + by rewrite IHr.
Qed.

End title_tree.

Lemma descend_insert_all (m : Manager) (songs : list loc) (r : loc)
    (k : string) (t : BST.tree loc) :
  PyStr.lower (bst_key (deref m r)) = k →
  Forall (λ r', r' = r ∨ PyStr.lower (bst_key (deref m r')) ≠ k) songs →
  r ∈ songs ∨ BST.descend k t = Some r →
  BST.descend k (insert_all m songs t) = Some r.
Proof.
  intros Hk. revert t.
  induction songs as [|s songs IH]; intros t Huniq Hin; simpl.
  - destruct Hin as [Hin|Hin]; [by apply elem_of_nil in Hin|done].
  - apply Forall_cons in Huniq as [Hs Huniq]. apply IH; [done|].
    unfold BST.insert.
    destruct (decide (PyStr.lower (bst_key (deref m s)) = k)) as [E|E].
    + right. destruct Hs as [->|Hs]; [|done].
      rewrite E. apply descend_insert_same.
    + destruct Hin as [Hin|Hin].
      * apply elem_of_cons in Hin as [->|Hin]; [done|by left].
      * right. by rewrite descend_insert_other.
Qed.

Lemma insert_all_ext (m m' : Manager) (songs : list loc) (t : BST.tree loc) :
  Forall (λ r, deref m' r = deref m r) songs →
  insert_all m' songs t = insert_all m songs t.
Proof.
  revert t. induction songs as [|s songs IH]; intros t Hs; simpl; [done|].
  apply Forall_cons in Hs as [Hs Hrest]. rewrite Hs. by apply IH.
Qed.

Lemma insert_all_snoc (m : Manager) (songs : list loc) (s : loc)
    (t : BST.tree loc) :
  insert_all m (songs ++ [s]) t
  = BST.insert (bst_key (deref m s)) s (insert_all m songs t).
Proof. unfold insert_all. by rewrite foldl_app. Qed.

Lemma load_file_bst (m : Manager) (f : string) :
  bst (load_file m f)
  = BST.insert (bst_key (deref (load_file m f) (length (heap m))))
      (length (heap m)) (bst m).
Proof. reflexivity. Qed.

(** The tree a rescan builds holds the songs of the library, inserted in
    library order under their titles. *)
Lemma rescan_bst (listing : list string) (m : Manager) :
  let m' := rescan listing m in
  bst m' = insert_all m' (get_all_songs m') BST.Leaf.
Proof.
  cbn zeta. unfold rescan, get_all_songs, SinglyLinkedList.to_list.
  set (m0 := mkManager _ _ _ _ _ _ _ _ _ _).
  cbn [bst library with_graph].
  change (insert_all (with_graph ?g ?x)) with (insert_all x).
  enough (H : ∀ fs m1,
            Forall (λ r, (r < length (heap m1))%nat) (library m1) →
            bst m1 = insert_all m1 (library m1) BST.Leaf →
            bst (foldl load_file m1 fs)
            = insert_all (foldl load_file m1 fs)
                (library (foldl load_file m1 fs)) BST.Leaf).
  { apply H; [by apply Forall_nil|done]. }
  induction fs as [|f fs IH]; intros m1 Hlib Hbst; simpl; [done|].
  apply IH.
  - rewrite load_file_library, load_file_heap, length_app. simpl.
    apply Forall_app. split.
    + eapply Forall_impl; [exact Hlib|]. simpl. lia.
    + apply Forall_singleton. lia.
  - rewrite load_file_bst, load_file_library, insert_all_snoc. f_equal.
    rewrite Hbst. symmetry. apply insert_all_ext.
    eapply Forall_impl; [exact Hlib|]. intros r Hr.
    by apply load_file_deref_old.
Qed.

(** C8 (amended). When the tree holds the songs [songs], inserted one after
    the other, and [r] is one of them with a non-empty title that no other
    inserted song shares once letter case is ignored, [search_by_title] of
    that title finds [r] by exact lookup and returns exactly [r]; the
    traversal for partial matches runs only when the exact lookup misses.
    After a rescan the tree holds the songs of the library in this way. *)
Theorem search_by_title_round_trip (m : Manager) (songs : list loc) (r : loc) :
  bst m = insert_all m songs BST.Leaf →
  r ∈ songs →
  title (deref m r) ≠ "" →
  Forall (λ r', r' = r
                ∨ PyStr.lower (bst_key (deref m r'))
                  ≠ PyStr.lower (title (deref m r))) songs →
  BST.search (title (deref m r)) (bst m) = Some r
  ∧ search_by_title (title (deref m r)) m = [r]
  ∧ (∀ q, BST.search q (bst m) = None →
          search_by_title q m = BST.partial_match q (bst m))
  ∧ ∀ listing m0,
      bst (rescan listing m0)
      = insert_all (rescan listing m0) (get_all_songs (rescan listing m0))
          BST.Leaf.
Proof.
  intros Hbst Hin Htitle Huniq.
  assert (Hkey : bst_key (deref m r) = title (deref m r)).
  { unfold bst_key, PyStr.or_else. by destruct (title (deref m r)). }
  assert (Hfound : BST.search (title (deref m r)) (bst m) = Some r).
  { unfold BST.search. rewrite Hbst.
    apply descend_insert_all; [by rewrite Hkey|done|by left]. }
  split; [done|]. split; [|split].
  - unfold search_by_title. by rewrite Hfound.
  - intros q Hq. unfold search_by_title. by rewrite Hq.
  - intros listing m0. apply rescan_bst.
Qed.

Lemma search_by_title_round_trip_witness :
  title (deref Scenario.three 1) = "b"
  ∧ search_by_title "b" Scenario.three = [1].
Proof.
  split; [vm_compute; reflexivity|].
  destruct (search_by_title_round_trip Scenario.three [0; 1; 2] 1)
    as (_ & H & _ & _).
  - vm_compute. reflexivity.
  - apply (bool_decide_unpack _). vm_compute. exact I.
  - vm_compute. discriminate.
  - apply (bool_decide_unpack _). vm_compute. exact I.
  - exact H.
Defined.

(** C8 as stated fails for titles that differ in letter case only: "Hello"
    is unique among the titles "Hello" and "hello", yet both songs share the
    tree key "hello", the later insertion overwrites the earlier one, and the
    search for "Hello" returns the song titled "hello". *)
Lemma search_by_title_case_collision :
  let m := Scenario.hello_twice in
  reachable m
  ∧ get_all_songs m = [0; 1]
  ∧ title (deref m 0) = "Hello" ∧ title (deref m 1) = "hello"
  ∧ bst m = insert_all m [0; 1] BST.Leaf
  ∧ search_by_title "Hello" m = [1]
  ∧ search_by_title "Hello" m ≠ [0].
Proof.
  cbn zeta. split; [apply reachable_script|].
  split_all; by_evaluation.
Qed.

(** * Delete *)

Lemma requeue_without_filter (m : Manager) (id : Z) (entries : list loc) :
  requeue_without m id entries
  = List.filter (λ s, negb (has_id m id s)) entries.
Proof.
  unfold requeue_without.
  enough (H : ∀ acc, foldl (λ new_q s, if negb (has_id m id s)
                                       then Queue.enqueue s new_q else new_q)
                       acc entries
                     = acc ++ List.filter (λ s, negb (has_id m id s)) entries)
    by apply (H []).
  induction entries as [|s entries IH]; intros acc; simpl.
  - by rewrite app_nil_r.
  - rewrite IH. destruct (negb (has_id m id s)); [|done].
    unfold Queue.enqueue. by rewrite <- app_assoc.
Qed.

Lemma repush_without_filter (m : Manager) (id : Z) (entries : list loc) :
  repush_without m id entries
  = List.filter (λ s, negb (has_id m id s)) entries.
Proof.
  unfold repush_without.
  enough (H : ∀ l acc, foldl (λ new_hist s, if negb (has_id m id s)
                                            then Stack.push s new_hist
                                            else new_hist) acc l
                       = List.filter (λ s, negb (has_id m id s)) (reverse l)
                           ++ acc).
  { rewrite H, reverse_involutive. apply app_nil_r. }
  induction l as [|s l IH]; intros acc; simpl; [done|].
  rewrite IH, reverse_cons, List.filter_app. simpl.
  destruct (negb (has_id m id s)); simpl.
  - unfold Stack.push. by rewrite <- app_assoc.
  - by rewrite app_nil_r.
Qed.

(** Queue and history are filtered completely: no entry with the deleted id
    survives, however often it occurred. *)
Lemma delete_song_queue_history (id : Z) (m : Manager) (r : loc) :
  is_Some (get_song_by_id id m) →
  let m' := delete_song id m in
  (r ∈ queue m' → sid m' r ≠ id) ∧ (r ∈ history m' → sid m' r ≠ id).
Proof.
  intros [r0 Hr0]. unfold get_song_by_id in Hr0. cbn zeta.
  unfold delete_song. rewrite Hr0.
  cbn [queue history with_graph with_playlists with_history with_queue
       with_bst with_song_index with_genres with_library].
  unfold Queue.to_list, Stack.to_list.
  rewrite requeue_without_filter, repush_without_filter.
  split; intros Hin; apply list_elem_of_In, List.filter_In in Hin as [_ Hin];
    apply negb_true_iff, Z.eqb_neq in Hin; exact Hin.
Qed.

Lemma remove_first_subset {A} (p : A → bool) (l : list A) (x : A) :
  x ∈ remove_first p l → x ∈ l.
Proof.
  induction l as [|y l IH]; simpl; [done|].
  destruct (p y); [by right|].
  intros [->|H]%elem_of_cons; [by left|right; by apply IH].
Qed.

Section tree_values.
Context {A : Type}.
Implicit Types (t : BST.tree A) (k q : string) (v x : A).

Import BST.

Lemma inorder_insert t k v x :
  x ∈ inorder (_insert t k v) → x = v ∨ x ∈ inorder t.
Proof.
  induction t as [|key value l IHl r IHr]; simpl.
  - intros [->|H]%elem_of_cons; [by left|by right].
  - destruct (String.compare k key); simpl; rewrite !elem_of_app, !elem_of_cons.
    + intuition.
    + intros [H|H]; [|intuition]. destruct (IHl H); intuition.
    + intros [H|[H|H]]; [intuition|intuition|]. destruct (IHr H); intuition.
Qed.

Lemma descend_inorder t k v : descend k t = Some v → v ∈ inorder t.
Proof.
  induction t as [|key value l IHl r IHr]; simpl; [done|].
  rewrite elem_of_app, elem_of_cons.
  destruct (String.compare k key); [intros [= ->]|..]; intuition.
Qed.

Lemma traverse_inorder t q x : x ∈ _traverse q t → x ∈ inorder t.
Proof.
  induction t as [|key value l IHl r IHr]; simpl; [done|].
  rewrite !elem_of_app, elem_of_cons.
  intros [H|[H|H]]; [|intuition..].
  destruct (PyStr.contains q key); [|by apply elem_of_nil in H].
  apply list_elem_of_singleton in H. intuition.
Qed.

End tree_values.

(** Every value of a rebuilt tree is one of the songs inserted. *)
Lemma inorder_insert_all (m : Manager) (songs : list loc) (t : BST.tree loc)
    (x : loc) :
  x ∈ BST.inorder (insert_all m songs t) → x ∈ songs ∨ x ∈ BST.inorder t.
Proof.
  revert t. induction songs as [|s songs IH]; intros t; simpl; [by right|].
  intros H. apply IH in H as [H|H]; [left; by right|].
  apply inorder_insert in H as [->|H]; [left; by left|by right].
Qed.

Lemma search_by_title_inorder (q : string) (m : Manager) (x : loc) :
  x ∈ search_by_title q m → x ∈ BST.inorder (bst m).
Proof.
  unfold search_by_title, BST.search, BST.partial_match.
  destruct (BST.descend (PyStr.lower q) (bst m)) as [v|] eqn:E.
  - intros ->%list_elem_of_singleton. by eapply descend_inorder.
  - apply traverse_inorder.
Qed.

Section graph_removal.
Implicit Types (adj : gmap Z (list Z)) (x n id : Z).

Import SongGraph.

Lemma neighbors_strip id adj n x :
  neighbors x (strip id adj n)
  = if bool_decide (n = x)
    then remove_first (λ y, bool_decide (y = id)) (neighbors x adj)
    else neighbors x adj.
Proof.
  unfold strip, neighbors. case_bool_decide as Hn.
  - subst n. destruct (adj !! x) as [l|] eqn:E; simpl; [|by rewrite E].
    case_bool_decide as Hl.
    + by rewrite lookup_insert_eq.
    + rewrite E. simpl. clear E. induction l as [|y l IH]; simpl; [done|].
      case_bool_decide as Hy; [subst y; exfalso; apply Hl; by left|].
      f_equal. apply IH. intros H. apply Hl. by right.
  - destruct (adj !! n) as [l|] eqn:E; [|done].
    case_bool_decide; [|done]. by rewrite lookup_insert_ne.
Qed.

Lemma neighbors_strip_subset id adj n x z :
  z ∈ neighbors x (strip id adj n) → z ∈ neighbors x adj.
Proof.
  rewrite neighbors_strip. case_bool_decide; [|done]. apply remove_first_subset.
Qed.

Lemma neighbors_strip_all_subset id (ns : list Z) adj x z :
  z ∈ neighbors x (foldl (strip id) adj ns) → z ∈ neighbors x adj.
Proof.
  revert adj. induction ns as [|n ns IH]; intros adj; simpl; [done|].
  intros H. by eapply neighbors_strip_subset, IH.
Qed.

Lemma remove_first_id_NoDup id (l : list Z) :
  NoDup l → id ∉ remove_first (λ y, bool_decide (y = id)) l.
Proof.
  induction l as [|y l IH]; simpl; [intros _; apply not_elem_of_nil|].
  intros [Hy Hl]%NoDup_cons. case_bool_decide as E; [by subst y|].
  apply not_elem_of_cons. split; [congruence|by apply IH].
Qed.

Lemma neighbors_strip_all_clean id (ns : list Z) adj x :
  NoDup (neighbors x adj) → x ∈ ns →
  id ∉ neighbors x (foldl (strip id) adj ns).
Proof.
  revert adj. induction ns as [|n ns IH]; intros adj Hnd Hx; simpl.
  - by apply elem_of_nil in Hx.
  - destruct (decide (n = x)) as [->|Hne].
    + intros H. apply neighbors_strip_all_subset in H.
      rewrite neighbors_strip, bool_decide_eq_true_2 in H by done.
      by apply (remove_first_id_NoDup id _ Hnd).
    + apply elem_of_cons in Hx as [->|Hx]; [done|].
      apply IH; [|done].
      by rewrite neighbors_strip, bool_decide_eq_false_2.
Qed.

(** In an undirected graph without repeated neighbours, [remove_song]
    removes the node and every mention of it. *)
Lemma remove_song_clean id adj :
  graph_symmetric adj → graph_simple adj →
  remove_song id adj !! id = None
  ∧ ∀ x, id ∉ neighbors x (remove_song id adj).
Proof.
  intros Hsym Hsimple. unfold remove_song.
  destruct (adj !! id) as [ns|] eqn:E.
  - split; [apply lookup_delete_eq|]. intros x.
    destruct (decide (x = id)) as [->|Hne].
    + unfold neighbors. rewrite lookup_delete_eq. apply not_elem_of_nil.
    + unfold neighbors. rewrite lookup_delete_ne by done.
      fold (neighbors x (foldl (strip id) adj ns)).
      destruct (decide (id ∈ neighbors x adj)) as [Hin|Hout].
      * apply neighbors_strip_all_clean; [apply Hsimple|].
        apply Hsym in Hin. unfold neighbors in Hin. by rewrite E in Hin.
      * intros H. apply Hout. by eapply neighbors_strip_all_subset.
  - split; [done|]. intros x Hin. apply Hsym in Hin.
    unfold neighbors in Hin. rewrite E in Hin. by apply elem_of_nil in Hin.
Qed.

End graph_removal.

(** Apart from the playlists, a deleted id is gone from every structure:
    the library, the title tree (exact and partial search), its genre
    bucket, the queue, the history and the graph. *)
Lemma delete_song_clears_rest (id : Z) (m : Manager) (r : loc) :
  get_song_by_id id m = Some r →
  NoDup (map (sid m) (get_all_songs m)) →
  NoDup (map (sid m) (get_songs_by_genre (genre (deref m r)) m)) →
  graph_symmetric (graph m) → graph_simple (graph m) →
  let m' := delete_song id m in
  get_song_by_id id m' = None
  ∧ (∀ x, x ∈ get_all_songs m' → sid m' x ≠ id)
  ∧ (∀ q x, x ∈ search_by_title q m' → sid m' x ≠ id)
  ∧ (∀ x, x ∈ get_songs_by_genre (genre (deref m r)) m' → sid m' x ≠ id)
  ∧ (∀ x, x ∈ queue m' → sid m' x ≠ id)
  ∧ (∀ x, x ∈ history m' → sid m' x ≠ id)
  ∧ graph m' !! id = None
  ∧ (∀ x, id ∉ get_similar_songs x m').
Proof.
  intros Hidx Hlib Hbucket Hsym Hsimple. cbn zeta.
  assert (Hknown : is_Some (get_song_by_id id m)) by by eexists.
  assert (Hqh := λ x, delete_song_queue_history id m x Hknown).
  cbn zeta in Hqh.
  assert (Hsid : ∀ x, sid (delete_song id m) x = sid m x).
  { intros x. unfold sid, deref. by rewrite delete_song_heap. }
  assert (Hlib' : ∀ x, x ∈ get_all_songs (delete_song id m) → sid m x ≠ id).
  { intros x. unfold get_song_by_id in Hidx. unfold delete_song.
    rewrite Hidx. cbn. apply remove_first_unique. exact Hlib. }
  unfold get_song_by_id in Hidx.
  split.
  { unfold get_song_by_id, delete_song. rewrite Hidx. cbn.
    apply lookup_delete_eq. }
  split; [intros x Hx; rewrite Hsid; by apply Hlib'|].
  split.
  { intros q x Hx. rewrite Hsid. apply Hlib'.
    apply search_by_title_inorder in Hx. revert Hx.
    unfold delete_song. rewrite Hidx. cbn.
    intros Hx. apply inorder_insert_all in Hx as [Hx|Hx]; [done|].
    by apply elem_of_nil in Hx. }
  split.
  { intros x. rewrite Hsid. unfold delete_song. rewrite Hidx.
    unfold get_songs_by_genre. cbn.
    rewrite get_songs_remove_song. apply remove_first_unique. exact Hbucket. }
  split; [intros x; apply Hqh|]. split; [intros x; apply Hqh|].
  unfold get_similar_songs, delete_song. rewrite Hidx. cbn.
  by apply remove_song_clean.
Qed.

(** C3. A song that sits twice on a playlist is still on it after
    [delete_song]: only its first entry is unlinked, although the id is gone
    from the index, the library, the queue, the history and the graph. *)
Theorem delete_song_keeps_repeated_entry :
  let before := Scenario.twice_on_p in
  let after := run (DeleteSong 1) before in
  reachable before
  ∧ get_song_by_id 1 before = Some 0
  ∧ get_playlist_songs "P" before = [0; 0]
  ∧ sid before 0 = 1%Z
  ∧ get_song_by_id 1 after = None
  ∧ get_all_songs after = [1; 2]
  ∧ get_playlist_songs "P" after = [0]
  ∧ sid after 0 = 1%Z.
Proof.
  cbn zeta. split; [apply reachable_script|].
  split_all; by_evaluation.
Qed.

(** * Consistency after a rescan *)

Lemma load_file_song_index (m : Manager) (f : string) :
  _song_index (load_file m f)
  = <[_next_id m := length (heap m)]> (_song_index m).
Proof.
  unfold load_file, _index_and_insert. cbn [_song_index with_next_id].
  unfold deref. cbn [heap with_heap _song_index].
  rewrite lookup_total_app_r by lia. by rewrite Nat.sub_diag.
Qed.

Lemma load_file_index_exact (m : Manager) (f : string) :
  index_exact m → index_exact (load_file m f).
Proof.
  intros Hex.
  assert (Hlen : length (heap (load_file m f)) = S (length (heap m))).
  { rewrite load_file_heap, length_app. simpl. lia. }
  unfold index_exact. rewrite load_file_song_index, Hlen.
  apply map_Forall_insert_2.
  - split; [lia|apply load_file_sid_new].
  - eapply map_Forall_impl; [exact Hex|]. simpl. intros id r [Hr Hid].
    split; [lia|]. by rewrite load_file_sid_old.
Qed.

Lemma load_file_genres (m : Manager) (f : string) :
  genres (load_file m f)
  = GenreMultiList.add_song "Unknown" (length (heap m)) (genres m).
Proof.
  unfold load_file, _index_and_insert. cbn [genres with_next_id].
  unfold deref. cbn [heap with_heap genres].
  rewrite lookup_total_app_r by lia. by rewrite Nat.sub_diag.
Qed.

(** The loading loop files every song under the one genre "Unknown". *)
Lemma load_files_genres (fs : list string) (m : Manager) :
  genres m = match library m with
             | [] => []
             | _ => [GenreMultiList.mkHeader "Unknown" (reverse (library m))]
             end →
  let m' := foldl load_file m fs in
  genres m' = match library m' with
              | [] => []
              | _ => [GenreMultiList.mkHeader "Unknown" (reverse (library m'))]
              end.
Proof.
  revert m. induction fs as [|f fs IH]; intros m Hm; cbn zeta; [done|].
  cbn [foldl]. apply IH.
  rewrite load_file_genres, load_file_library, Hm.
  destruct (library m) as [|r lib]; [done|].
  rewrite reverse_app. destruct (_ ++ _) eqn:E; [by destruct lib|].
  done.
Qed.

Lemma add_edge_simple (u v x : Z) (adj : gmap Z (list Z)) :
  NoDup (SongGraph.neighbors x adj) →
  NoDup (SongGraph.neighbors x (SongGraph.add_edge u v adj)).
Proof.
  assert (Happ : ∀ a b adj', NoDup (SongGraph.neighbors x adj') →
            NoDup (SongGraph.neighbors x (SongGraph.append_absent a b adj'))).
  { intros a b adj' Hnd. unfold SongGraph.append_absent.
    destruct (adj' !! a) as [l|] eqn:E; [|done].
    case_bool_decide as Hb; [done|].
    unfold SongGraph.neighbors in *.
    destruct (decide (a = x)) as [->|Hne].
    - rewrite lookup_insert_eq. rewrite E in Hnd. simpl in *.
      apply NoDup_app. split; [done|]. split; [|apply NoDup_singleton].
      intros y Hy ->%list_elem_of_singleton. done.
    - by rewrite lookup_insert_ne. }
  intros Hnd. unfold SongGraph.add_edge. case_bool_decide; [done|].
  apply Happ, Happ. by rewrite !neighbors_setdefault.
Qed.

Lemma similarity_edges_simple (songs : list Song) (adj : gmap Z (list Z)) :
  graph_simple adj → graph_simple (similarity_edges songs adj).
Proof.
  revert adj. induction songs as [|a rest IH]; intros adj Hadj; simpl; [done|].
  apply IH. clear IH. revert adj Hadj.
  induction rest as [|b rest IH]; intros adj Hadj; simpl; [done|].
  apply IH. intros x. unfold link_similar.
  destruct (2 <=? score a b)%Z; [by apply add_edge_simple|done].
Qed.

Lemma similarity_edges_symmetric (songs : list Song) :
  graph_symmetric (similarity_edges songs (nodes_only songs)).
Proof.
  intros x z. rewrite !neighbors_similarity_edges, !neighbors_nodes_only.
  intros [H|(a & b & Hp & Hs & Hne & Hl)]; [by apply elem_of_nil in H|].
  right. exists a, b. split; [done|]. split; [done|]. split; [done|].
  destruct Hl as [[? ?]|[? ?]]; [right|left]; by split.
Qed.

Lemma rescan_well_formed (listing : list string) (m : Manager) :
  well_formed (rescan listing m).
Proof.
  destruct (rescan_graph listing m) as [Hsongs Hgraph]. cbn zeta in *.
  unfold well_formed. rewrite Hgraph.
  pose proof (rescan_library_NoDup listing m) as Hids.
  split; [|split; [exact Hids|split; [|split]]].
  - unfold rescan. set (m0 := mkManager _ _ _ _ _ _ _ _ _ _).
    enough (H : ∀ fs m1, index_exact m1 → index_exact (foldl load_file m1 fs)).
    { apply (H (media_files listing) m0). apply map_Forall_empty. }
    induction fs as [|f fs IH]; intros m1 H1; simpl; [done|].
    by apply IH, load_file_index_exact.
  - intros g. revert Hids.
    unfold rescan, get_songs_by_genre, get_all_songs, SinglyLinkedList.to_list.
    set (m0 := mkManager _ _ _ _ _ _ _ _ _ _).
    pose proof (load_files_genres (media_files listing) m0 eq_refl) as Hg.
    cbn zeta in Hg. cbn [genres library with_graph].
    change (sid (with_graph ?gr ?x)) with (sid x). rewrite Hg.
    destruct (library (foldl load_file m0 (media_files listing))) as [|r lib];
      [intros _; apply NoDup_nil_2|].
    intros Hnd. unfold GenreMultiList.get_songs. simpl.
    destruct (GenreMultiList.same_genre "Unknown" g); simpl;
      [|apply NoDup_nil_2].
    eapply NoDup_Permutation_proper; [|exact Hnd].
    apply Permutation_map, reverse_Permutation.
  - apply similarity_edges_symmetric.
  - apply similarity_edges_simple. intros x.
    rewrite neighbors_nodes_only. apply NoDup_nil_2.
Qed.

(** * Playlist navigation *)

Section playlist_navigation.
Context {A : Type} (f : A → Z).
Implicit Types (l pre post : list A) (x y : A) (id : Z).

Lemma next_from_absent id l :
  id ∉ map f l → Playlist.next_from f id l = None.
Proof.
  induction l as [|z l IH]; simpl; [done|]. intros Hid.
  apply not_elem_of_cons in Hid as [Hz Hl].
  destruct (Z.eqb_spec (f z) id); [congruence|by apply IH].
Qed.

Lemma prev_from_absent id (before : option A) l :
  id ∉ map f l → Playlist.prev_from f id before l = None.
Proof.
  revert before. induction l as [|z l IH]; intros before; simpl; [done|].
  intros Hid. apply not_elem_of_cons in Hid as [Hz Hl].
  destruct (Z.eqb_spec (f z) id); [congruence|by apply IH].
Qed.

Lemma prev_from_first id (before : option A) pre x post :
  (∀ z, z ∈ pre → f z ≠ id) → f x = id →
  Playlist.prev_from f id before (pre ++ x :: post) = last (option_list before ++ pre).
Proof.
  revert before. induction pre as [|z pre IH]; intros before Hpre Hx; simpl.
  - rewrite Hx, Z.eqb_refl, app_nil_r. by destruct before.
  - destruct (Z.eqb_spec (f z) id) as [E|_].
    + exfalso. apply (Hpre z); [by left|done].
    + rewrite IH; [|intros w Hw; apply Hpre; by right|done].
      destruct before; simpl; [|done]. by destruct pre.
Qed.

Lemma index_from_range id (idx : Z) l :
  Playlist.index_from f id idx l = (-1)%Z ∧ id ∉ map f l
  ∨ ∃ pre x post, l = pre ++ x :: post ∧ f x = id
      ∧ (∀ z, z ∈ pre → f z ≠ id)
      ∧ Playlist.index_from f id idx l = (idx + Z.of_nat (length pre))%Z.
Proof.
  revert idx. induction l as [|z l IH]; intros idx; simpl.
  - left. split; [done|apply not_elem_of_nil].
  - destruct (Z.eqb_spec (f z) id) as [E|E].
    + right. exists [], z, l. simpl. repeat split; [done| |lia].
      intros w Hw. by apply elem_of_nil in Hw.
    + destruct (IH (idx + 1)%Z) as [[H1 H2]|(pre & x & post & -> & Hx & Hpre & Hi)].
      * left. split; [done|]. apply not_elem_of_cons. by split.
      * right. exists (z :: pre), x, post. simpl. repeat split; [done| |lia].
        intros w [->|Hw]%elem_of_cons; [done|by apply Hpre].
Qed.

End playlist_navigation.

(** X1. In a playlist that holds every id at most once, [next_of] and
    [prev_of] are inverse to each other on neighbouring entries; the first
    entry has no predecessor, the last no successor, and an id that is not
    on the playlist has neither. *)
Theorem playlist_next_prev_inverse {A} (f : A → Z) (p : Playlist.t A) :
  NoDup (map f (Playlist.to_list p)) →
  (∀ pre x y post, Playlist.to_list p = pre ++ x :: y :: post →
     Playlist.next_of f (f x) p = Some y ∧ Playlist.prev_of f (f y) p = Some x)
  ∧ (∀ x rest, Playlist.to_list p = x :: rest →
       Playlist.prev_of f (f x) p = None)
  ∧ (∀ pre y, Playlist.to_list p = pre ++ [y] →
       Playlist.next_of f (f y) p = None)
  ∧ (∀ id, id ∉ map f (Playlist.to_list p) →
       Playlist.next_of f id p = None ∧ Playlist.prev_of f id p = None).
Proof.
  unfold Playlist.to_list, DoublyLinkedList.to_list, Playlist.next_of,
    Playlist.prev_of.
  intros Hnd. split; [|split; [|split]].
  - intros pre x y post E. rewrite E in Hnd |- *.
    rewrite map_app in Hnd. simpl in Hnd.
    apply NoDup_app in Hnd as (Hpre & Hdisj & Hrest).
    apply NoDup_cons in Hrest as [Hx Hrest].
    apply NoDup_cons in Hrest as [Hy _].
    split.
    + apply (next_from_first f (f x) pre x (y :: post)); [|done].
      intros z Hz Hfz. apply (Hdisj (f z)).
      * apply list_elem_of_fmap. by exists z.
      * rewrite Hfz. by left.
    + replace (pre ++ x :: y :: post) with ((pre ++ [x]) ++ y :: post)
        by by rewrite <- app_assoc.
      rewrite (prev_from_first f (f y) None (pre ++ [x]) y post); [|  |done].
      * simpl. by rewrite last_snoc.
      * intros z [Hz| ->%list_elem_of_singleton]%elem_of_app Hfz.
        -- apply (Hdisj (f z)); [apply list_elem_of_fmap; by exists z|].
           rewrite Hfz. right. by left.
        -- apply Hx. rewrite Hfz. by left.
  - intros x rest E. rewrite E. simpl. by rewrite Z.eqb_refl.
  - intros pre y E. rewrite E in Hnd |- *.
    rewrite map_app in Hnd. apply NoDup_app in Hnd as (_ & Hdisj & _).
    rewrite (next_from_first f (f y) pre y []); [done| |done].
    intros z Hz Hfz. apply (Hdisj (f z)).
    + apply list_elem_of_fmap. by exists z.
    + rewrite Hfz. by left.
  - intros id Hid. split; [by apply next_from_absent|by apply prev_from_absent].
Qed.

Lemma playlist_next_prev_inverse_witness :
  let p := Playlist.mk "P" [10; 20; 30]%Z in
  Playlist.next_of (λ z, z) 20 p = Some 30%Z
  ∧ Playlist.prev_of (λ z, z) 30 p = Some 20%Z.
Proof.
  cbn zeta.
  assert (H : NoDup (map (λ z : Z, z)
                       (Playlist.to_list (Playlist.mk "P" [10; 20; 30]%Z)))).
  { apply (bool_decide_unpack _). vm_compute. exact I. }
  destruct (playlist_next_prev_inverse (λ z : Z, z) _ H) as (Hn & _).
  apply (Hn [10%Z] 20%Z 30%Z []). reflexivity.
Defined.

(** X2. [find_node_index] answers -1 exactly when no entry carries the id;
    otherwise it answers the position of the first entry that carries it,
    and [next_of] returns the entry right after that position. *)
Theorem find_node_index_first {A} (f : A → Z) (id : Z) (p : Playlist.t A) :
  let i := Playlist.find_node_index f id p in
  (i = (-1)%Z ↔ id ∉ map f (Playlist.to_list p))
  ∧ ((-1 ≤ i < Z.of_nat (length (Playlist.to_list p)))%Z)
  ∧ (i ≠ (-1)%Z →
     (∃ x, Playlist.to_list p !! Z.to_nat i = Some x ∧ f x = id)
     ∧ (∀ j y, (j < Z.to_nat i)%nat → Playlist.to_list p !! j = Some y →
               f y ≠ id)
     ∧ Playlist.next_of f id p = Playlist.to_list p !! S (Z.to_nat i)).
Proof.
  cbn zeta. unfold Playlist.find_node_index, Playlist.to_list,
    DoublyLinkedList.to_list, Playlist.next_of.
  destruct (index_from_range f id 0 (Playlist.dll p))
    as [[Hi Hno]|(pre & x & post & E & Hx & Hpre & Hi)].
  - rewrite Hi. split; [done|]. split; [lia|done].
  - rewrite Hi, E. clear Hi E.
    assert (Hin : id ∈ map f (pre ++ x :: post)).
    { apply list_elem_of_fmap. exists x. split; [done|].
      apply elem_of_app. right. by left. }
    split; [split; [lia|done]|]. split; [rewrite length_app; simpl; lia|].
    intros _. replace (Z.to_nat (0 + Z.of_nat (length pre))) with (length pre)
      by lia.
    split; [|split].
    + exists x. split; [|done]. by rewrite list_lookup_middle.
    + intros j y Hj Hy. apply Hpre.
      rewrite lookup_app_l in Hy by done. by eapply list_elem_of_lookup_2.
    + rewrite (next_from_first f id pre x post Hpre Hx).
      rewrite lookup_app_r by lia.
      replace (S (length pre) - length pre)%nat with 1%nat by lia.
      by destruct post.
Qed.

(** * Sorting and the genre listing *)

Section sorting.
Context {A : Type} (key : A → string).
Implicit Types (x y : A) (l : list A).

Lemma insert_by_Permutation x l : PyStr.insert_by key x l ≡ₚ x :: l.
Proof.
  induction l as [|y l IH]; simpl; [done|].
  destruct (String.leb (key x) (key y)); [done|].
  rewrite IH. apply Permutation_swap.
Qed.

Lemma sorted_Permutation l : PyStr.sorted key l ≡ₚ l.
Proof.
  induction l as [|x l IH]; simpl; [done|].
  unfold PyStr.sorted in *. simpl. by rewrite insert_by_Permutation, IH.
Qed.

Lemma insert_by_Sorted x l :
  Sorted (key_le key) l → Sorted (key_le key) (PyStr.insert_by key x l).
Proof.
  induction l as [|y l IH]; simpl; intros Hs.
  - by repeat constructor.
  - destruct (String.leb (key x) (key y)) eqn:E.
    + constructor; [done|]. by constructor.
    + apply Sorted_inv in Hs as [Hs Hhd]. constructor; [by apply IH|].
      assert (Hyx : key_le key y x).
      { destruct (String.leb_total (key x) (key y)) as [H|H]; [congruence|done]. }
      destruct l as [|z l]; simpl; [by constructor|].
      destruct (String.leb (key x) (key z)); constructor; [done|].
      by apply HdRel_inv in Hhd.
Qed.

Lemma sorted_Sorted l : Sorted (key_le key) (PyStr.sorted key l).
Proof.
  induction l as [|x l IH]; [constructor|].
  unfold PyStr.sorted in *. simpl. by apply insert_by_Sorted.
Qed.

Lemma leb_false_key_ne x y :
  String.leb (key x) (key y) = false → String.eqb (key y) (key x) = false.
Proof.
  intros E. apply String.eqb_neq. intros Heq. rewrite Heq in E.
  destruct (String.leb_total (key x) (key x)); congruence.
Qed.

Lemma with_key_insert_by k x l :
  with_key key k (PyStr.insert_by key x l) = with_key key k (x :: l).
Proof.
  induction l as [|y l IH]; [done|]. cbn [PyStr.insert_by].
  destruct (String.leb (key x) (key y)) eqn:E; [done|].
  unfold with_key in *. cbn [List.filter] in *. rewrite IH.
  destruct (String.eqb_spec (key x) k) as [Hx|Hx]; [|done].
  subst k. by rewrite (leb_false_key_ne _ _ E).
Qed.

Lemma with_key_sorted k l :
  with_key key k (PyStr.sorted key l) = with_key key k l.
Proof.
  induction l as [|x l IH]; [done|].
  unfold PyStr.sorted in *. cbn [foldr]. rewrite with_key_insert_by.
  unfold with_key in *. cbn [List.filter]. by rewrite IH.
Qed.

End sorting.

(** X3. [get_genres] lists exactly the stored genre names, each entry once,
    in ascending order of the lower-cased name; names that are equal up to
    letter case keep the order of the genre chain. *)
Theorem get_genres_sorted {A} (hs : list (GenreMultiList.GenreHeader A)) :
  GenreMultiList.get_genres hs ≡ₚ map GenreMultiList.hgenre hs
  ∧ Sorted (key_le PyStr.lower) (GenreMultiList.get_genres hs)
  ∧ ∀ k, with_key PyStr.lower k (GenreMultiList.get_genres hs)
         = with_key PyStr.lower k (map GenreMultiList.hgenre hs).
Proof.
  unfold GenreMultiList.get_genres. split; [apply sorted_Permutation|].
  split; [apply sorted_Sorted|]. intros k. apply with_key_sorted.
Qed.

Section genre_entries.
Context {A : Type}.
Implicit Types (hs : list (GenreMultiList.GenreHeader A)) (g : string).

Import GenreMultiList.

Lemma same_genre_lower h g :
  same_genre h g = true ↔ PyStr.lower h = PyStr.lower g.
Proof. unfold same_genre. apply String.eqb_eq. Qed.

Lemma find_genre_None g hs :
  _find_genre g hs = None ↔ PyStr.lower g ∉ genre_keys hs.
Proof.
  induction hs as [|h hs IH]; simpl.
  - split; [intros _; apply not_elem_of_nil|done].
  - rewrite not_elem_of_cons, <- IH.
    destruct (same_genre (hgenre h) g) eqn:E.
    + apply same_genre_lower in E. split; [done|]. intros [H _]. congruence.
    + split; [|by intros [_ ?]]. intros H. split; [|done].
      intros Heq. symmetry in Heq. apply same_genre_lower in Heq. congruence.
Qed.

Lemma find_genre_Some g hs h :
  _find_genre g hs = Some h → h ∈ hs ∧ PyStr.lower (hgenre h) = PyStr.lower g.
Proof.
  induction hs as [|h' hs IH]; simpl; [done|].
  destruct (same_genre (hgenre h') g) eqn:E.
  - intros [= ->]. split; [by left|by apply same_genre_lower].
  - intros H. destruct (IH H). split; [by right|done].
Qed.

Lemma find_genre_same_key g g' hs :
  PyStr.lower g = PyStr.lower g' → _find_genre g hs = _find_genre g' hs.
Proof.
  intros E. induction hs as [|h hs IH]; simpl; [done|].
  unfold same_genre. by rewrite E, IH.
Qed.

Lemma update_found_same_key g g' f hs :
  PyStr.lower g = PyStr.lower g' → update_found g f hs = update_found g' f hs.
Proof.
  intros E. induction hs as [|h hs IH]; simpl; [done|].
  unfold same_genre. by rewrite E, IH.
Qed.

Lemma update_found_keep g (f : list A → list A) hs :
  f (get_songs g hs) = get_songs g hs → update_found g f hs = hs.
Proof.
  unfold get_songs. induction hs as [|h hs IH]; simpl; [done|].
  destruct (same_genre (hgenre h) g).
  - intros ->. by destruct h.
  - intros H. by rewrite IH.
Qed.

Lemma genre_keys_update_found g f hs :
  genre_keys (update_found g f hs) = genre_keys hs.
Proof.
  unfold genre_keys. rewrite <- !(map_map hgenre PyStr.lower).
  by rewrite hgenre_update_found.
Qed.

End genre_entries.

Lemma remove_first_keep {A} (p : A → bool) (l : list A) :
  existsb p l = false → remove_first p l = l.
Proof.
  induction l as [|x l IH]; simpl; [done|].
  destruct (p x); simpl; [done|]. intros H. by rewrite IH.
Qed.

Lemma remove_first_length {A} (p : A → bool) (l : list A) :
  existsb p l = true → S (length (remove_first p l)) = length l.
Proof.
  induction l as [|x l IH]; simpl; [done|].
  destruct (p x); simpl; [done|]. intros H. by rewrite IH.
Qed.

(** X4. The genre chain never holds two entries for one genre, whatever
    the letter case: [add_song] and [remove_song] keep the normalised names
    pairwise distinct, so every entry is the one its own name finds and the
    genre listing never shows a genre twice. *)
Theorem genre_entries_distinct {A} (g : string) (x : A) (p : A → bool)
    (hs : list (GenreMultiList.GenreHeader A)) :
  NoDup (genre_keys hs) →
  NoDup (genre_keys (GenreMultiList.add_song g x hs))
  ∧ NoDup (genre_keys (GenreMultiList.remove_song g p hs).2)
  ∧ (∀ h, h ∈ hs → GenreMultiList._find_genre (GenreMultiList.hgenre h) hs = Some h)
  ∧ NoDup (map PyStr.lower (GenreMultiList.get_genres hs)).
Proof.
  intros Hnd. split; [|split; [|split]].
  - unfold GenreMultiList.add_song.
    destruct (GenreMultiList._find_genre g hs) eqn:E.
    + by rewrite genre_keys_update_found.
    + simpl. apply NoDup_cons. split; [by apply find_genre_None|done].
  - unfold GenreMultiList.remove_song.
    destruct (GenreMultiList._find_genre g hs); simpl; [|done].
    by rewrite genre_keys_update_found.
  - clear g x p. induction hs as [|h' hs IH]; intros h Hh; simpl.
    + by apply elem_of_nil in Hh.
    + simpl in Hnd. apply NoDup_cons in Hnd as [Hh' Hnd].
      apply elem_of_cons in Hh as [->|Hh]; [by rewrite same_genre_refl|].
      destruct (GenreMultiList.same_genre _ _) eqn:E; [|by apply IH].
      exfalso. apply Hh'. apply same_genre_lower in E. rewrite E.
      unfold genre_keys. apply list_elem_of_fmap. by exists h.
  - eapply NoDup_Permutation_proper; [|exact Hnd].
    unfold genre_keys. rewrite <- (map_map GenreMultiList.hgenre PyStr.lower).
    apply Permutation_map. unfold GenreMultiList.get_genres.
    apply sorted_Permutation.
Qed.

Lemma genre_entries_distinct_witness :
  let hs := GenreMultiList.add_song "Rock" 1%nat
              (GenreMultiList.add_song "Jazz" 2%nat []) in
  NoDup (genre_keys (GenreMultiList.add_song "ROCK" 3%nat hs)).
Proof.
  cbn zeta. refine (proj1 (genre_entries_distinct "ROCK" 3%nat (λ _, false) _ _)).
  apply (bool_decide_unpack _). vm_compute. exact I.
Defined.

(** X5. Genre names are matched without regard to letter case: two
    spellings of one genre find the same entry and the same songs, a song
    added under either spelling is listed under both, and once an entry
    exists a later spelling neither adds an entry nor renames it. *)
Theorem genre_lookup_ignores_case {A} (g g' : string) (x : A)
    (hs : list (GenreMultiList.GenreHeader A)) :
  PyStr.lower g = PyStr.lower g' →
  GenreMultiList._find_genre g hs = GenreMultiList._find_genre g' hs
  ∧ GenreMultiList.get_songs g hs = GenreMultiList.get_songs g' hs
  ∧ GenreMultiList.get_songs g' (GenreMultiList.add_song g x hs)
    = x :: GenreMultiList.get_songs g' hs
  ∧ (is_Some (GenreMultiList._find_genre g hs) →
     GenreMultiList.add_song g' x hs = GenreMultiList.add_song g x hs
     ∧ map GenreMultiList.hgenre (GenreMultiList.add_song g' x hs)
       = map GenreMultiList.hgenre hs).
Proof.
  intros E. pose proof (find_genre_same_key g g' hs E) as Hfind.
  split; [done|]. split; [unfold GenreMultiList.get_songs; by rewrite Hfind|].
  split.
  - unfold GenreMultiList.get_songs at 1.
    rewrite <- (find_genre_same_key g g' _ E).
    fold (GenreMultiList.get_songs g (GenreMultiList.add_song g x hs)).
    rewrite get_songs_add_song. unfold GenreMultiList.get_songs.
    by rewrite Hfind.
  - intros [h Hh]. unfold GenreMultiList.add_song.
    rewrite <- Hfind, Hh. split.
    + symmetry. by apply update_found_same_key.
    + apply hgenre_update_found.
Qed.

Lemma genre_lookup_ignores_case_witness :
  GenreMultiList.get_songs "rock"
    (GenreMultiList.add_song "ROCK" 2%nat (GenreMultiList.add_song "Rock" 1%nat []))
  = [2; 1]%nat.
Proof.
  destruct (genre_lookup_ignores_case "ROCK" "rock" 2%nat
              (GenreMultiList.add_song "Rock" 1%nat [])) as (_ & _ & H & _).
  - reflexivity.
  - rewrite H. reflexivity.
Defined.

(** X6. [remove_song] answers [True] exactly when the genre's bucket holds a
    song satisfying the predicate; then the bucket loses one song, otherwise
    the index is unchanged.  In both cases the genre entry itself stays, even
    when its bucket becomes empty. *)
Theorem genre_remove_song_flag {A} (g : string) (p : A → bool)
    (hs : list (GenreMultiList.GenreHeader A)) :
  let res := GenreMultiList.remove_song g p hs in
  (res.1 = true ↔ ∃ x, x ∈ GenreMultiList.get_songs g hs ∧ p x = true)
  ∧ (res.1 = false → res.2 = hs)
  ∧ (res.1 = true →
     S (length (GenreMultiList.get_songs g res.2))
     = length (GenreMultiList.get_songs g hs))
  ∧ map GenreMultiList.hgenre res.2 = map GenreMultiList.hgenre hs.
Proof.
  cbn zeta.
  assert (Hflag : (GenreMultiList.remove_song g p hs).1
                  = existsb p (GenreMultiList.get_songs g hs)).
  { unfold GenreMultiList.remove_song, GenreMultiList.get_songs.
    by destruct (GenreMultiList._find_genre g hs). }
  rewrite Hflag. split; [|split; [|split]].
  - rewrite existsb_exists. split; intros (x & Hx & Hp); exists x;
      (split; [by apply list_elem_of_In|done]).
  - intros Hno. unfold GenreMultiList.remove_song.
    destruct (GenreMultiList._find_genre g hs); simpl; [|done].
    apply update_found_keep. by apply remove_first_keep.
  - intros Hyes. rewrite get_songs_remove_song. by apply remove_first_length.
  - apply hgenre_remove_song.
Qed.

(** X7. Genres are never forgotten between rescans: [delete_song] leaves the
    genre listing as it is, even when it removes the last song of a genre,
    and [update_song] keeps every listed genre and adds at most one. *)
Theorem genres_never_forgotten (id : Z) (fields : SongFields) (m : Manager) :
  get_all_genres (delete_song id m) = get_all_genres m
  ∧ (∀ g, g ∈ get_all_genres m → g ∈ get_all_genres (update_song id fields m))
  ∧ (length (get_all_genres (update_song id fields m))
     ≤ S (length (get_all_genres m)))%nat.
Proof.
  unfold get_all_genres, GenreMultiList.get_genres. split; [|split].
  - unfold delete_song. destruct (_song_index m !! id); [|done].
    cbn. by rewrite hgenre_remove_song.
  - intros g. rewrite !sorted_Permutation. unfold update_song.
    destruct (_song_index m !! id); [|done].
    repeat case_bool_decide; cbn; try done.
    all: unfold GenreMultiList.add_song;
      destruct (GenreMultiList._find_genre _ _); cbn;
      rewrite ?hgenre_update_found, hgenre_remove_song; try done;
      intros ?; by right.
  - rewrite !(Permutation_length (sorted_Permutation _ _)), !length_map.
    unfold update_song. destruct (_song_index m !! id); [|lia].
    repeat case_bool_decide; cbn; try lia.
    all: unfold GenreMultiList.add_song;
      destruct (GenreMultiList._find_genre _ _); cbn;
      rewrite <- ?(length_map GenreMultiList.hgenre),
        ?hgenre_update_found, ?hgenre_remove_song, ?length_map; lia.
Qed.

(** * The title tree as a search tree *)

Lemma str_lt_trans (a b c : string) : str_lt a b → str_lt b c → str_lt a c.
Proof.
  unfold str_lt. intros H1 H2.
  apply OrderedTypeEx.String_as_OT.cmp_lt.
  eapply OrderedTypeEx.String_as_OT.lt_trans;
    by apply OrderedTypeEx.String_as_OT.cmp_lt.
Qed.

Lemma str_gt_lt (a b : string) : String.compare a b = Gt → str_lt b a.
Proof.
  unfold str_lt. intros H. rewrite String.compare_antisym, H. done.
Qed.

Section search_tree.
Context {A : Type}.
Implicit Types (t : BST.tree A) (k q : string) (v : A).

Import BST.

Lemma tree_keys_node k v (l r : tree A) :
  tree_keys (Node k v l r) = tree_keys l ++ k :: tree_keys r.
Proof. unfold tree_keys. simpl. by rewrite map_app. Qed.

Lemma tree_keys_insert t k v x :
  x ∈ tree_keys (_insert t k v) ↔ x = k ∨ x ∈ tree_keys t.
Proof.
  induction t as [|key value l IHl r IHr]; simpl.
  - unfold tree_keys. simpl. rewrite list_elem_of_singleton.
    split; [by left|]. intros [H|H]; [done|by apply elem_of_nil in H].
  - destruct (String.compare k key) eqn:E;
      rewrite !tree_keys_node, !elem_of_app, !elem_of_cons.
    + apply String.compare_eq_iff in E. subst key. intuition.
    + rewrite IHl. intuition.
    + rewrite IHr. intuition.
Qed.

Lemma ordered_insert t k v : ordered t → ordered (_insert t k v).
Proof.
  induction t as [|key value l IHl r IHr]; simpl.
  - intros _. unfold tree_keys. simpl. by repeat split.
  - intros (Hl & Hr & Hol & Hor).
    destruct (String.compare k key) eqn:E; simpl.
    + done.
    + split; [|by auto]. apply Forall_forall. intros x Hx.
      apply tree_keys_insert in Hx as [->|Hx]; [done|].
      by eapply Forall_forall in Hl.
    + split; [done|]. split; [|by auto]. apply Forall_forall. intros x Hx.
      apply tree_keys_insert in Hx as [->|Hx]; [by apply str_gt_lt|].
      by eapply Forall_forall in Hr.
Qed.

Lemma ordered_keys_sorted t : ordered t → StronglySorted str_lt (tree_keys t).
Proof.
  induction t as [|key value l IHl r IHr]; simpl.
  - intros _. constructor.
  - intros (Hl & Hr & Hol & Hor). rewrite tree_keys_node.
    apply StronglySorted_app_2; [|by apply IHl|].
    + intros x1 x2 H1 [->|H2]%elem_of_cons.
      * by eapply Forall_forall in Hl.
      * eapply str_lt_trans; [by eapply Forall_forall in Hl|].
        by eapply Forall_forall in Hr.
    + apply StronglySorted_cons. split; [done|by apply IHr].
Qed.

Lemma inorder_entries t : inorder t = map snd (tree_entries t).
Proof.
  induction t as [|key value l IHl r IHr]; simpl; [done|].
  by rewrite map_app, IHl, IHr.
Qed.

Lemma tree_entries_insert_length t k v :
  (length (tree_entries (_insert t k v)) ≤ S (length (tree_entries t)))%nat.
Proof.
  induction t as [|key value l IHl r IHr]; simpl; [lia|].
  destruct (String.compare k key); simpl; rewrite !length_app; simpl; lia.
Qed.

Lemma prefix_same q : String.prefix q q = true.
Proof.
  induction q as [|c q IH]; simpl; [done|].
  by destruct (ascii_dec c c).
Qed.

Lemma contains_same q : PyStr.contains q q = true.
Proof. destruct q; [done|]. cbn [PyStr.contains]. by rewrite prefix_same. Qed.

Lemma contains_empty k : PyStr.contains "" k = true.
Proof. by destruct k. Qed.

Lemma descend_traverse t k v : descend k t = Some v → v ∈ _traverse k t.
Proof.
  induction t as [|key value l IHl r IHr]; simpl; [done|].
  destruct (String.compare k key) eqn:E; rewrite !elem_of_app.
  - apply String.compare_eq_iff in E. subst key. intros [= ->].
    left. rewrite contains_same. by left.
  - intros H. right. left. by apply IHl.
  - intros H. right. right. by apply IHr.
Qed.

Lemma traverse_all t : _traverse "" t ≡ₚ inorder t.
Proof.
  induction t as [|key value l IHl r IHr]; simpl; [done|].
  rewrite contains_empty, IHl, IHr. simpl.
  by rewrite Permutation_middle.
Qed.

End search_tree.

(** X8. The tree is a case-insensitive map with last write wins: after
    [insert(k, v)] a search for any spelling of [k] returns [v], and a search
    for any other key returns what it returned before. *)
Theorem bst_search_after_insert {A} (q k : string) (v : A) (t : BST.tree A) :
  BST.search q (BST.insert k v t)
  = if bool_decide (PyStr.lower q = PyStr.lower k) then Some v
    else BST.search q t.
Proof.
  unfold BST.search, BST.insert. case_bool_decide as E.
  - rewrite E. apply descend_insert_same.
  - by apply descend_insert_other.
Qed.

(** X9. However the songs are inserted, the tree stays a search tree:
    [inorder] visits the nodes in strictly ascending key order, the keys are
    exactly the lower-cased inserted keys, each once, and so the tree never
    holds more nodes than insertions were made. *)
Theorem bst_inorder_ascending {A} (kvs : list (string * A)) :
  let t := insert_pairs kvs BST.Leaf in
  ordered t
  ∧ StronglySorted str_lt (tree_keys t)
  ∧ BST.inorder t = map snd (tree_entries t)
  ∧ (∀ k, k ∈ tree_keys t ↔ k ∈ map (λ kv, PyStr.lower kv.1) kvs)
  ∧ (length (BST.inorder t) ≤ length kvs)%nat.
Proof.
  cbn zeta.
  assert (H : ∀ t0 : BST.tree A, ordered t0 →
    ordered (insert_pairs kvs t0)
    ∧ (∀ k, k ∈ tree_keys (insert_pairs kvs t0)
            ↔ k ∈ tree_keys t0 ∨ k ∈ map (λ kv, PyStr.lower kv.1) kvs)
    ∧ (length (tree_entries (insert_pairs kvs t0))
       ≤ length (tree_entries t0) + length kvs)%nat).
  { induction kvs as [|[k v] kvs IH]; intros t0 Ht0.
    - simpl. split; [done|]. split; [|lia]. intros k. split; [by left|].
      intros [H|H]; [done|by apply elem_of_nil in H].
    - change (insert_pairs ((k, v) :: kvs) t0)
        with (insert_pairs kvs (BST.insert k v t0)).
      destruct (IH (BST.insert k v t0)) as (Ho & Hk & Hlen).
      { by apply ordered_insert. }
      split; [done|]. split.
      + intros x. rewrite Hk. unfold BST.insert. rewrite tree_keys_insert.
        cbn [map fst]. rewrite elem_of_cons. intuition.
      + pose proof (tree_entries_insert_length t0 (PyStr.lower k) v).
        unfold BST.insert in *. cbn [length]. lia. }
  destruct (H BST.Leaf I) as (Ho & Hk & Hlen).
  split; [done|]. split; [by apply ordered_keys_sorted|].
  split; [apply inorder_entries|]. split.
  - intros k. rewrite Hk. split; [|by right].
    intros [Hin|Hin]; [by apply elem_of_nil in Hin|done].
  - rewrite inorder_entries, length_map. simpl in Hlen. lia.
Qed.

(** X10. The partial-match traversal covers the exact lookup: a song found
    by [search] is among the songs [partial_match] returns for the same
    query; every partial match is a value of the tree; and the empty query
    matches every node. *)
Theorem partial_match_covers_search {A} (q : string) (t : BST.tree A) :
  (∀ v, BST.search q t = Some v → v ∈ BST.partial_match q t)
  ∧ (∀ v, v ∈ BST.partial_match q t → v ∈ BST.inorder t)
  ∧ BST.partial_match "" t ≡ₚ BST.inorder t.
Proof.
  unfold BST.search, BST.partial_match. split; [|split].
  - intros v. apply descend_traverse.
  - intros v. apply traverse_inorder.
  - apply traverse_all.
Qed.

(** * The similarity graph under edits *)

Lemma remove_first_NoDup {A} (p : A → bool) (l : list A) :
  NoDup l → NoDup (remove_first p l).
Proof.
  induction l as [|x l IH]; simpl; [done|].
  intros [Hx Hl]%NoDup_cons. destruct (p x); [done|].
  apply NoDup_cons. split; [|by apply IH].
  intros H. by apply Hx, (remove_first_subset p).
Qed.

Lemma remove_first_id_elem_of (id z : Z) (l : list Z) :
  NoDup l →
  z ∈ remove_first (λ y, bool_decide (y = id)) l ↔ z ∈ l ∧ z ≠ id.
Proof.
  intros Hnd. split.
  - intros Hz. split; [by eapply remove_first_subset|].
    intros ->. by apply (remove_first_id_NoDup id l Hnd).
  - intros [Hz Hne]. induction l as [|y l IH]; simpl; [done|].
    apply NoDup_cons in Hnd as [_ Hnd].
    apply elem_of_cons in Hz as [->|Hz].
    + rewrite bool_decide_eq_false_2 by done. by left.
    + case_bool_decide; [done|]. right. by apply IH.
Qed.

Section graph_edits.
Implicit Types (adj : gmap Z (list Z)) (x z n id : Z).

Import SongGraph.

Lemma neighbors_lookup x z adj :
  z ∈ neighbors x adj → ∃ l, adj !! x = Some l ∧ z ∈ l.
Proof.
  unfold neighbors. destruct (adj !! x) as [l|]; simpl.
  - intros H. by exists l.
  - by intros H%elem_of_nil.
Qed.

Lemma setdefault_known k adj : is_Some (adj !! k) → setdefault k adj = adj.
Proof. intros [l E]. unfold setdefault. by rewrite E. Qed.

Lemma append_absent_known x z adj :
  z ∈ neighbors x adj → append_absent x z adj = adj.
Proof.
  intros (l & E & Hz)%neighbors_lookup. unfold append_absent. rewrite E.
  by rewrite bool_decide_eq_true_2.
Qed.

Lemma strip_is_Some id adj n x :
  is_Some (strip id adj n !! x) ↔ is_Some (adj !! x).
Proof.
  unfold strip. destruct (adj !! n) as [l|] eqn:E; [|done].
  case_bool_decide; [|done].
  destruct (decide (n = x)) as [->|Hne].
  - rewrite lookup_insert_eq, E. split; intros _; by eexists.
  - by rewrite lookup_insert_ne.
Qed.

Lemma strip_all_is_Some id (ns : list Z) adj x :
  is_Some (foldl (strip id) adj ns !! x) ↔ is_Some (adj !! x).
Proof.
  revert adj. induction ns as [|n ns IH]; intros adj; simpl; [done|].
  by rewrite IH, strip_is_Some.
Qed.

Lemma neighbors_strip_all_NoDup id (ns : list Z) adj x :
  NoDup (neighbors x adj) → NoDup (neighbors x (foldl (strip id) adj ns)).
Proof.
  revert adj. induction ns as [|n ns IH]; intros adj Hnd; simpl; [done|].
  apply IH. rewrite neighbors_strip. case_bool_decide; [|done].
  by apply remove_first_NoDup.
Qed.

Lemma neighbors_strip_all_elem_of id (ns : list Z) adj x z :
  NoDup (neighbors x adj) →
  z ∈ neighbors x (foldl (strip id) adj ns)
  ↔ z ∈ neighbors x adj ∧ (x ∈ ns → z ≠ id).
Proof.
  revert adj. induction ns as [|n ns IH]; intros adj Hnd; simpl.
  - split; [|by intros [? _]]. intros H. split; [done|].
    by intros ?%elem_of_nil.
  - rewrite IH.
    + rewrite neighbors_strip. case_bool_decide as Hn.
      * subst n. rewrite remove_first_id_elem_of by done.
        split; [intros [[? ?] _]; by split|].
        intros [Hz Hid]. split; [split; [done|]|]; intros; apply Hid; by left.
      * rewrite elem_of_cons. intuition congruence.
    + rewrite neighbors_strip. case_bool_decide; [|done].
      by apply remove_first_NoDup.
Qed.

(** What [remove_song] leaves of an undirected graph. *)
Lemma neighbors_remove_song id adj x z :
  graph_symmetric adj → graph_simple adj →
  z ∈ neighbors x (remove_song id adj)
  ↔ z ∈ neighbors x adj ∧ x ≠ id ∧ z ≠ id.
Proof.
  intros Hsym Hsimple. unfold remove_song.
  destruct (adj !! id) as [ns|] eqn:E.
  - destruct (decide (x = id)) as [->|Hne].
    + unfold neighbors at 1. rewrite lookup_delete_eq. simpl.
      split; [by intros ?%elem_of_nil|by intros (_ & ? & _)].
    + unfold neighbors at 1. rewrite lookup_delete_ne by done.
      fold (neighbors x (foldl (strip id) adj ns)).
      rewrite neighbors_strip_all_elem_of by apply Hsimple.
      assert (Hns : x ∈ ns ↔ id ∈ neighbors x adj).
      { split.
        - intros Hx. apply Hsym. unfold neighbors. by rewrite E.
        - intros Hid. apply Hsym in Hid. unfold neighbors in Hid.
          by rewrite E in Hid. }
      rewrite Hns. split.
      * intros [Hz Hid]. split; [done|]. split; [done|].
        intros ->. by apply Hid.
      * intros (Hz & _ & Hid). by split.
  - split; [|by intros [? _]]. intros Hz. split; [done|]. split.
    + intros ->. unfold neighbors in Hz. rewrite E in Hz.
      by apply elem_of_nil in Hz.
    + intros ->. apply Hsym in Hz. unfold neighbors in Hz. rewrite E in Hz.
      by apply elem_of_nil in Hz.
Qed.

Lemma remove_song_simple id adj :
  graph_simple adj → graph_simple (remove_song id adj).
Proof.
  intros Hsimple x. unfold remove_song.
  destruct (adj !! id) as [ns|] eqn:E; [|apply Hsimple].
  destruct (decide (x = id)) as [->|Hne].
  - unfold neighbors. rewrite lookup_delete_eq. apply NoDup_nil_2.
  - unfold neighbors. rewrite lookup_delete_ne by done.
    apply neighbors_strip_all_NoDup, Hsimple.
Qed.

End graph_edits.

(** X11. [add_edge] is idempotent and does nothing for a loop; the order of
    its two arguments does not matter for who is whose neighbour. *)
Theorem add_edge_idempotent (a b : Z) (adj : gmap Z (list Z)) :
  SongGraph.add_edge a a adj = adj
  ∧ SongGraph.add_edge a b (SongGraph.add_edge a b adj)
    = SongGraph.add_edge a b adj
  ∧ ∀ x z, z ∈ SongGraph.neighbors x (SongGraph.add_edge a b adj)
           ↔ z ∈ SongGraph.neighbors x (SongGraph.add_edge b a adj).
Proof.
  split; [|split].
  - unfold SongGraph.add_edge. by rewrite bool_decide_eq_true_2.
  - destruct (decide (a = b)) as [->|Hne].
    { unfold SongGraph.add_edge. by rewrite !bool_decide_eq_true_2. }
    set (g := SongGraph.add_edge a b adj).
    assert (Hab : b ∈ SongGraph.neighbors a g).
    { apply neighbors_add_edge. right. split; [done|]. by left. }
    assert (Hba : a ∈ SongGraph.neighbors b g).
    { apply neighbors_add_edge. right. split; [done|]. by right. }
    unfold SongGraph.add_edge at 1. rewrite bool_decide_eq_false_2 by done.
    destruct (neighbors_lookup _ _ _ Hab) as (la & Ea & _).
    destruct (neighbors_lookup _ _ _ Hba) as (lb & Eb & _).
    rewrite (setdefault_known a g) by by eexists.
    rewrite (setdefault_known b g) by by eexists.
    rewrite (append_absent_known a b g) by done.
    by rewrite (append_absent_known b a g).
  - intros x z. rewrite !neighbors_add_edge. intuition congruence.
Qed.

(** X12. Every edit of the graph keeps it undirected, loop-free and free of
    parallel edges: if it is so before [add_song], [add_edge] or
    [remove_song], it is so afterwards; the empty graph is so. *)
Theorem graph_stays_undirected (a b : Z) (adj : gmap Z (list Z)) :
  graph_undirected adj →
  graph_undirected (SongGraph.add_song a adj)
  ∧ graph_undirected (SongGraph.add_edge a b adj)
  ∧ graph_undirected (SongGraph.remove_song a adj)
  ∧ graph_undirected ∅.
Proof.
  intros (Hsym & Hsimple & Hloop). split; [|split; [|split]].
  - unfold graph_undirected, graph_symmetric, graph_simple, graph_loop_free,
      SongGraph.add_song.
    setoid_rewrite neighbors_setdefault. done.
  - split; [|split].
    + intros x z. rewrite !neighbors_add_edge.
      intros [H|H]; [left; by apply Hsym|right; intuition].
    + intros x. by apply add_edge_simple.
    + intros x. rewrite neighbors_add_edge.
      intros [H|(Hne & [[-> ->]|[-> ->]])]; [by apply (Hloop x)|done|done].
  - split; [|split].
    + intros x z. rewrite !neighbors_remove_song by done.
      intros (H & ? & ?). split; [by apply Hsym|done].
    + by apply remove_song_simple.
    + intros x. rewrite neighbors_remove_song by done.
      intros (H & _). by apply (Hloop x).
  - split; [|split]; intros x; unfold SongGraph.neighbors;
      rewrite ?lookup_empty; simpl.
    + intros z H. by apply elem_of_nil in H.
    + apply NoDup_nil_2.
    + apply not_elem_of_nil.
Qed.

Lemma graph_stays_undirected_witness :
  graph_undirected (SongGraph.add_edge 1 2 ∅).
Proof.
  assert (H : graph_undirected ∅).
  { split; [|split]; intros x; unfold SongGraph.neighbors;
      rewrite ?lookup_empty; simpl.
    - intros z H. by apply elem_of_nil in H.
    - apply NoDup_nil_2.
    - apply not_elem_of_nil. }
  exact (proj1 (proj2 (graph_stays_undirected 1 2 ∅ H))).
Defined.

(** X13. In an undirected graph [remove_song] removes exactly the node and
    its edges: afterwards the id is no node and nobody's neighbour, every
    other adjacency is as before, and every other node is still a node. *)
Theorem remove_song_exact (id : Z) (adj : gmap Z (list Z)) :
  graph_symmetric adj → graph_simple adj →
  SongGraph.remove_song id adj !! id = None
  ∧ (∀ x z, z ∈ SongGraph.neighbors x (SongGraph.remove_song id adj)
            ↔ z ∈ SongGraph.neighbors x adj ∧ x ≠ id ∧ z ≠ id)
  ∧ (∀ x, x ≠ id →
          (is_Some (SongGraph.remove_song id adj !! x) ↔ is_Some (adj !! x))).
Proof.
  intros Hsym Hsimple. split; [|split].
  - by apply remove_song_clean.
  - intros x z. by apply neighbors_remove_song.
  - intros x Hne. unfold SongGraph.remove_song.
    destruct (adj !! id) as [ns|]; [|done].
    by rewrite lookup_delete_ne, strip_all_is_Some.
Qed.

Lemma remove_song_exact_witness :
  let adj := SongGraph.add_edge 2 3 (SongGraph.add_edge 1 2 ∅) in
  SongGraph.remove_song 2 adj !! 2%Z = None
  ∧ (3%Z ∈ SongGraph.neighbors 2 adj).
Proof.
  cbn zeta. split.
  - refine (proj1 (remove_song_exact 2 _ _ _)).
    + intros x z. rewrite !neighbors_add_edge.
      unfold SongGraph.neighbors. rewrite !lookup_empty. simpl.
      rewrite !elem_of_nil. intuition.
    + intros x. apply add_edge_simple, add_edge_simple.
      unfold SongGraph.neighbors. rewrite lookup_empty. apply NoDup_nil_2.
  - apply (bool_decide_unpack _). vm_compute. exact I.
Defined.

(** * Edge cases of the coordinator *)

Lemma apply_no_fields (s : Song) : apply_fields no_fields s = s.
Proof. by destruct s. Qed.

Lemma heap_insert_same (m : Manager) (r : loc) :
  <[r := deref m r]> (heap m) = heap m.
Proof.
  unfold deref. destruct (heap m !! r) as [s|] eqn:E.
  - rewrite list_lookup_total_alt, E. by apply list_insert_id.
  - apply list_insert_ge. by apply lookup_ge_None.
Qed.

(** X14. An update that passes no field (or passes every field as [None])
    changes nothing at all, whether the id is known or not: no attribute, no
    genre bucket, and the title tree is not rebuilt. *)
Theorem update_song_no_fields (id : Z) (m : Manager) :
  update_song id no_fields m = m
  ∧ Api.admin_edit_song id None None None None None m = m.
Proof.
  assert (H : update_song id no_fields m = m).
  { unfold update_song. destruct (_song_index m !! id) as [r|]; [|done].
    rewrite apply_no_fields, heap_insert_same, with_heap_same. cbn zeta.
    rewrite (bool_decide_eq_false_2 (genre (deref m r) ≠ genre (deref m r)))
      by (intros H; by apply H).
    by rewrite bool_decide_eq_false_2 by (intros H; by apply H). }
  split; [exact H|]. exact H.
Qed.

(** X15. Unknown keys and empty containers never raise and never change the
    state: an unknown song id makes [update_song], [delete_song] and
    [enqueue_song] no-ops and [api_play] a 404; an unknown playlist name
    makes [delete_playlist] and [remove_song_from_playlist] no-ops and lists
    no songs; an unknown genre or graph node lists nothing; an empty queue
    dequeues nothing. *)
Theorem unknown_keys_change_nothing (id : Z) (fields : SongFields)
    (name g : string) (m : Manager) :
  (get_song_by_id id m = None →
     update_song id fields m = m ∧ delete_song id m = m
     ∧ enqueue_song id m = m
     ∧ Api.api_play id m = (Api.HttpError 404 "Song not found", m)
     ∧ Api.api_song id m = Api.HttpError 404 "Song not found")
  ∧ (playlists m !! name = None →
       delete_playlist name m = m
       ∧ remove_song_from_playlist name id m = m
       ∧ get_playlist_songs name m = [])
  ∧ (GenreMultiList._find_genre g (genres m) = None →
       get_songs_by_genre g m = []
       ∧ (GenreMultiList.remove_song g (has_id m id) (genres m)).1 = false)
  ∧ (graph m !! id = None →
       get_similar_songs id m = [] ∧ Api.api_recommendations id m = []
       ∧ SongGraph.remove_song id (graph m) = graph m)
  ∧ (queue m = [] → dequeue_song m = (None, m)).
Proof.
  split; [|split; [|split; [|split]]].
  - unfold get_song_by_id, update_song, delete_song, enqueue_song,
      Api.api_play, Api.api_song, get_song_by_id.
    by intros ->.
  - unfold delete_playlist, remove_song_from_playlist, get_playlist_songs.
    by intros ->.
  - unfold get_songs_by_genre, GenreMultiList.get_songs,
      GenreMultiList.remove_song. by intros ->.
  - unfold Api.api_recommendations, get_similar_songs, SongGraph.neighbors,
      SongGraph.remove_song. by intros ->.
  - unfold dequeue_song. intros E. rewrite E. simpl.
    by rewrite <- E, with_queue_same.
Qed.

(** * History and playback order *)

Lemma choice_Some {A} (draw : nat) (l : list A) :
  l ≠ [] → is_Some (choice draw l).
Proof.
  intros Hl. unfold choice. apply lookup_lt_is_Some_2.
  apply Nat.mod_upper_bound. by destruct l.
Qed.

Lemma choice_elem_of {A} (draw : nat) (l : list A) (x : A) :
  choice draw l = Some x → x ∈ l.
Proof. unfold choice. apply list_elem_of_lookup_2. Qed.

(** X16. [record_play] adds exactly one to the play count of the song,
    touches no other attribute and no other song, and puts the song on top
    of the history; [get_history_list] returns the most recent plays first,
    at most [limit] of them. *)
Theorem record_play_history (song : loc) (limit : Z) (m : Manager) :
  (song < length (heap m))%nat →
  (0 ≤ limit)%Z →
  let s := deref m song in
  let m' := record_play song m in
  deref m' song
  = mkSong (song_id s) (title s) (artist s) (album s) (genre s) (year s)
      (duration_seconds s) (file_path s) (play_count s + 1) (is_favorite s)
  ∧ (∀ r, r ≠ song → deref m' r = deref m r)
  ∧ history m' = song :: history m
  ∧ get_history_list (limit + 1) m' = song :: get_history_list limit m
  ∧ get_history_list limit m `prefix_of` history m
  ∧ length (get_history_list limit m)
    = Nat.min (Z.to_nat limit) (length (history m)).
Proof.
  intros Hlive Hlimit. cbn zeta. unfold record_play.
  split; [|split; [|split; [|split; [|split]]]].
  - unfold deref at 1. cbn [heap with_heap with_history].
    rewrite list_lookup_total_alt, list_lookup_insert_eq by done. done.
  - intros r Hne. unfold deref. cbn [heap with_heap with_history].
    rewrite !list_lookup_total_alt. by rewrite list_lookup_insert_ne.
  - done.
  - unfold get_history_list, Stack.to_list, Stack.push.
    cbn [history with_heap with_history].
    rewrite !(proj2 (Z.leb_le _ _)) by lia.
    replace (Z.to_nat (limit + 1)) with (S (Z.to_nat limit)) by lia. done.
  - unfold get_history_list, Stack.to_list.
    rewrite (proj2 (Z.leb_le _ _)) by lia. apply prefix_take.
  - unfold get_history_list, Stack.to_list.
    rewrite (proj2 (Z.leb_le _ _)) by lia. apply length_take.
Qed.

Lemma record_play_history_witness :
  get_history_list (1 + 1) (record_play 1 Scenario.played_abc) = [1; 2].
Proof.
  destruct (record_play_history 1 1 Scenario.played_abc) as (_ & _ & _ & H & _).
  - vm_compute. lia.
  - lia.
  - rewrite H. by_evaluation.
Defined.

(** X17. [get_next_song] answers nothing only when there is nothing to play:
    whenever it returns [None] the library is empty and so is the queue;
    with a song in the library it always returns a song. *)
Theorem get_next_song_none_only_if_empty (rnd : Random)
    (current_song_id : option Z) (current_playlist_name : option string)
    (m : Manager) :
  ((get_next_song rnd current_song_id current_playlist_name m).1 = None →
   get_all_songs m = [] ∧ queue m = [])
  ∧ (get_all_songs m ≠ [] →
     is_Some (get_next_song rnd current_song_id current_playlist_name m).1).
Proof.
  assert (H : (get_next_song rnd current_song_id current_playlist_name m).1
              = None → get_all_songs m = [] ∧ queue m = []).
  { unfold get_next_song.
    destruct (playlist_step _ _ _ _); [done|].
    unfold dequeue_song, Queue.dequeue.
    destruct (queue m) as [|q rest] eqn:Hq; [|done]. cbn [fst snd].
    destruct (match current_song_id with Some _ => _ | None => _ end);
      [done|].
    cbn [fst]. intros Hnone. split; [|done].
    destruct (get_all_songs (with_queue [] m)) as [|x l] eqn:E; [done|].
    destruct (choice_Some (draw_any rnd) (x :: l)) as [y Hy]; [done|].
    congruence. }
  split; [exact H|]. intros Hlib.
  destruct (get_next_song rnd current_song_id current_playlist_name m).1
    eqn:E; [by eexists|].
  by destruct (H eq_refl).
Qed.

(** X18. [get_next_song] touches nothing but the queue, whose head it may
    take; when the playlist step yields nothing and the queue is not empty,
    it returns the head of the queue and leaves the rest, whatever the
    current song and the random draws are. *)
Theorem get_next_song_queue_first (rnd : Random) (current_song_id : option Z)
    (current_playlist_name : option string) (m : Manager) :
  let res := get_next_song rnd current_song_id current_playlist_name m in
  (res.2 = m ∨ ∃ q, queue m = q :: queue res.2 ∧ res.1 = Some q
                    ∧ res.2 = with_queue (queue res.2) m)
  ∧ (playlist_step Playlist.next_of current_song_id current_playlist_name m
     = None →
     ∀ q rest, queue m = q :: rest → res = (Some q, with_queue rest m)).
Proof.
  cbn zeta. unfold get_next_song.
  destruct (playlist_step _ _ _ _) as [nxt|].
  { split; [by left|done]. }
  unfold dequeue_song, Queue.dequeue.
  destruct (queue m) as [|q rest] eqn:Hq; cbn [fst snd].
  - assert (Hsame : with_queue [] m = m) by by rewrite <- Hq, with_queue_same.
    rewrite !Hsame. split; [|by intros _ q rest [=]].
    left. by destruct (match current_song_id with Some _ => _ | None => _ end).
  - split.
    + right. exists q. by repeat split.
    + by intros _ q' rest' [= <- <-].
Qed.

(** X19. [get_previous_song] touches nothing but the history, from which it
    pops at most two entries: the history afterwards is the old one without
    its first zero, one or two entries. *)
Theorem get_previous_song_pops_at_most_two (current_song_id : option Z)
    (current_playlist_name : option string) (m : Manager) :
  let res := get_previous_song current_song_id current_playlist_name m in
  res.2 = with_history (history res.2) m
  ∧ ∃ n, (n ≤ 2)%nat ∧ history res.2 = drop n (history m)
         ∧ (res.1 = None →
            playlist_step Playlist.prev_of current_song_id
              current_playlist_name m = None
            ∧ (length (history m) ≤ 1)%nat ∧ history res.2 = []).
Proof.
  cbn zeta. unfold get_previous_song.
  destruct (playlist_step _ _ _ _) as [prv|].
  { split; [by rewrite with_history_same|]. exists 0%nat.
    split; [lia|]. by split. }
  destruct (history m) as [|top rest] eqn:Hh; cbn [Stack.pop fst snd].
  - split; [done|]. exists 0%nat. split; [lia|]. split; [done|].
    intros _. split; [done|]. split; [simpl; lia|done].
  - destruct (truthy_id current_song_id && _).
    + cbn [history with_history]. destruct rest as [|second rest];
        cbn [Stack.pop fst snd].
      * split; [done|]. exists 1%nat. split; [lia|]. split; [done|].
        intros _. split; [done|]. split; [simpl; lia|done].
      * split; [done|]. exists 2%nat. split; [lia|]. by split.
    + split; [done|]. exists 1%nat. split; [lia|]. by split.
Qed.

Lemma first_resolving_Some (m : Manager) (ids : list Z) (r : loc) :
  first_resolving m ids = Some r →
  ∃ nid, nid ∈ ids ∧ get_song_by_id nid m = Some r.
Proof.
  induction ids as [|nid ids IH]; simpl; [done|].
  destruct (get_song_by_id nid m) as [s|] eqn:E.
  - intros [= ->]. exists nid. split; [by left|done].
  - intros H. destruct (IH H) as (n & Hn & Hr). exists n. split; [by right|done].
Qed.

Lemma first_resolving_None (m : Manager) (ids : list Z) :
  first_resolving m ids = None ↔ ∀ nid, nid ∈ ids → get_song_by_id nid m = None.
Proof.
  induction ids as [|nid ids IH]; simpl.
  - split; [|done]. by intros _ n ?%elem_of_nil.
  - destruct (get_song_by_id nid m) as [s|] eqn:E.
    + split; [done|]. intros H. rewrite (H nid) in E; [done|by left].
    + rewrite IH. split.
      * intros H n [->|Hn]%elem_of_cons; [done|by apply H].
      * intros H n Hn. apply H. by right.
Qed.

(** X20. With no playlist step and an empty queue, a given current id sends
    [get_next_song] to the similarity graph: if some neighbour of the
    current song is still in the index, the answer is the song of such a
    neighbour; if none is, the answer is a random pick from the library.
    The state is not changed.  ([random.shuffle] permutes its argument.) *)
Theorem get_next_song_similar (rnd : Random) (id : Z)
    (current_playlist_name : option string) (m : Manager) :
  (∀ l, shuffle rnd l ≡ₚ l) →
  playlist_step Playlist.next_of (Some id) current_playlist_name m = None →
  queue m = [] → id ≠ 0%Z →
  let res := get_next_song rnd (Some id) current_playlist_name m in
  res.2 = m
  ∧ ((∃ nid, nid ∈ get_similar_songs id m ∧ is_Some (get_song_by_id nid m)) →
     ∃ nid song, nid ∈ get_similar_songs id m
                 ∧ get_song_by_id nid m = Some song ∧ res.1 = Some song)
  ∧ ((∀ nid, nid ∈ get_similar_songs id m → get_song_by_id nid m = None) →
     res.1 = choice (draw_similar rnd) (get_all_songs m)).
Proof.
  intros Hperm Hstep Hq Hid. cbn zeta. unfold get_next_song.
  rewrite Hstep. unfold dequeue_song. rewrite Hq. cbn [Queue.dequeue fst snd].
  assert (Hsame : with_queue [] m = m) by by rewrite <- Hq, with_queue_same.
  rewrite !Hsame.
  assert (truthy_id (Some id) = true) as ->.
  { cbn. apply negb_true_iff. by apply Z.eqb_neq. }
  unfold get_next_similar_song, get_similar_songs.
  destruct (first_resolving m (shuffle rnd (SongGraph.neighbors id (graph m))))
    as [song|] eqn:E.
  - split; [done|]. split.
    + intros _. destruct (first_resolving_Some _ _ _ E) as (nid & Hn & Hs).
      exists nid, song. rewrite Hperm in Hn. by repeat split.
    + intros Hnone. destruct (first_resolving_Some _ _ _ E) as (nid & Hn & Hs).
      rewrite Hperm in Hn. rewrite (Hnone nid Hn) in Hs. done.
  - assert (Hnone : ∀ nid, nid ∈ SongGraph.neighbors id (graph m) →
                           get_song_by_id nid m = None).
    { intros nid Hn. eapply first_resolving_None; [exact E|].
      by rewrite Hperm. }
    destruct (choice (draw_similar rnd) (get_all_songs m)) as [song|] eqn:Ec.
    + split; [done|]. split; [|done].
      intros (nid & Hn & [s Hs]). rewrite (Hnone nid Hn) in Hs. done.
    + split; [done|]. split.
      * intros (nid & Hn & [s Hs]). rewrite (Hnone nid Hn) in Hs. done.
      * intros _. cbn [fst]. unfold choice in *.
        destruct (get_all_songs m) as [|x l]; [done|].
        apply lookup_ge_None in Ec.
        pose proof (Nat.mod_upper_bound (draw_similar rnd) (length (x :: l))).
        simpl in *. lia.
Qed.

Lemma get_next_song_similar_witness :
  (get_next_song Scenario.any_random (Some 1%Z) None Scenario.three).2
  = Scenario.three.
Proof.
  refine (proj1 (get_next_song_similar Scenario.any_random 1 None
                   Scenario.three _ _ _ _)).
  - intros l. reflexivity.
  - reflexivity.
  - by_evaluation.
  - discriminate.
Defined.

(** * More on rescan *)

Lemma load_files_heap (fs : list string) (m : Manager) :
  let m' := foldl load_file m fs in
  heap m' = heap m ++ songs_of_files (_next_id m) fs
  ∧ library m' = library m ++ seq (length (heap m)) (length fs)
  ∧ queue m' = queue m ∧ history m' = history m ∧ playlists m' = playlists m.
Proof.
  revert m. induction fs as [|f fs IH]; intros m; cbn zeta.
  - simpl. by rewrite !app_nil_r.
  - cbn [foldl songs_of_files length seq].
    destruct (IH (load_file m f)) as (Hh & Hl & Hq & Hhi & Hp).
    rewrite Hh, Hl, Hq, Hhi, Hp.
    rewrite load_file_heap, load_file_library, load_file_next_id, length_app.
    simpl. rewrite <- !app_assoc. simpl.
    replace (length (heap m) + 1)%nat with (S (length (heap m))) by lia.
    done.
Qed.

Lemma media_files_elem_of (listing : list string) (f : string) :
  f ∈ media_files listing ↔ f ∈ listing ∧ is_media f = true.
Proof.
  unfold media_files. rewrite list_elem_of_In, List.filter_In.
  rewrite <- list_elem_of_In. by rewrite sorted_Permutation.
Qed.

Lemma songs_of_files_fresh (n : Z) (fs : list string) :
  Forall (λ s, ∃ f, f ∈ fs ∧ s = song_of_file (song_id s) f)
    (songs_of_files n fs).
Proof.
  revert n. induction fs as [|f fs IH]; intros n; simpl; [constructor|].
  constructor.
  - exists f. split; [by left|done].
  - eapply Forall_impl; [apply IH|]. intros s (f' & Hf & Hs).
    exists f'. split; [by right|done].
Qed.

Lemma songs_of_files_length (n : Z) (fs : list string) :
  length (songs_of_files n fs) = length fs.
Proof. revert n. induction fs as [|f fs IH]; intros n; simpl; [done|]. by rewrite IH. Qed.

(** X21. A rescan starts every song afresh: the library holds exactly one
    song per media file of the listing, in the order of the files, the k-th
    built from the k-th file with id k; each has play count 0, favourite
    flag off, artist, album and genre "Unknown", year 2024, duration 0 and
    the path of its file under static/music; hence no song is a favourite
    any more. *)
Theorem rescan_resets_songs (listing : list string) (m : Manager) :
  let m' := rescan listing m in
  map (deref m') (get_all_songs m') = songs_of_files 1 (media_files listing)
  ∧ length (get_all_songs m') = length (media_files listing)
  ∧ Forall (λ r, ∃ f, f ∈ listing ∧ is_media f = true
                      ∧ deref m' r = song_of_file (sid m' r) f)
      (get_all_songs m')
  ∧ Forall (λ r, play_count (deref m' r) = 0%Z
                 ∧ is_favorite (deref m' r) = false
                 ∧ genre (deref m' r) = "Unknown"
                 ∧ artist (deref m' r) = "Unknown"
                 ∧ album (deref m' r) = "Unknown"
                 ∧ year (deref m' r) = 2024%Z
                 ∧ duration_seconds (deref m' r) = 0%Z)
      (get_all_songs m')
  ∧ get_favorites m' = [].
Proof.
  cbn zeta. destruct (rescan_graph listing m) as [Hsongs _].
  cbn zeta in Hsongs.
  assert (Hfresh : Forall (λ r, ∃ f, f ∈ listing ∧ is_media f = true
                     ∧ deref (rescan listing m) r
                       = song_of_file (sid (rescan listing m) r) f)
                     (get_all_songs (rescan listing m))).
  { pose proof (songs_of_files_fresh 1 (media_files listing)) as H.
    rewrite <- Hsongs in H. apply Forall_forall. intros r Hr.
    rewrite Forall_forall in H.
    destruct (H (deref (rescan listing m) r)) as (f & Hf & Hs).
    { apply list_elem_of_fmap. by exists r. }
    apply media_files_elem_of in Hf as [Hf Hmedia]. by exists f. }
  assert (Hattr : Forall (λ r, play_count (deref (rescan listing m) r) = 0%Z
                 ∧ is_favorite (deref (rescan listing m) r) = false
                 ∧ genre (deref (rescan listing m) r) = "Unknown"
                 ∧ artist (deref (rescan listing m) r) = "Unknown"
                 ∧ album (deref (rescan listing m) r) = "Unknown"
                 ∧ year (deref (rescan listing m) r) = 2024%Z
                 ∧ duration_seconds (deref (rescan listing m) r) = 0%Z)
              (get_all_songs (rescan listing m))).
  { eapply Forall_impl; [exact Hfresh|]. simpl.
    intros r (f & _ & _ & ->). by repeat split. }
  split; [exact Hsongs|]. split; [|split; [done|split; [done|]]].
  - rewrite <- (length_map (deref (rescan listing m))), Hsongs.
    apply songs_of_files_length.
  - unfold get_favorites. revert Hattr. clear.
    generalize (get_all_songs (rescan listing m)). intros l Hl.
    induction Hl as [|r l (_ & Hfav & _) _ IH]; simpl; [done|].
    by rewrite Hfav.
Qed.


Lemma leb_trans (a b c : string) :
  String.leb a b = true → String.leb b c = true → String.leb a c = true.
Proof.
  unfold String.leb.
  destruct (String.compare a b) eqn:Eab; [|  |done].
  - apply String.compare_eq_iff in Eab. by subst b.
  - destruct (String.compare b c) eqn:Ebc; [|  |done].
    + apply String.compare_eq_iff in Ebc. subst c. by rewrite Eab.
    + intros _ _. by rewrite (str_lt_trans a b c Eab Ebc).
Qed.

Lemma sorted_names_unique (l l' : list string) :
  l ≡ₚ l' → PyStr.sorted (λ s, s) l = PyStr.sorted (λ s, s) l'.
Proof.
  intros Hperm.
  assert (Htrans : Transitive (key_le (λ s : string, s))).
  { intros a b c. apply leb_trans. }
  apply (Sorted_unique_strong (key_le (λ s : string, s))).
  - intros a b _ _. apply String.leb_antisym.
  - apply sorted_Sorted.
  - apply sorted_Sorted.
  - by rewrite !sorted_Permutation.
Qed.

Lemma filter_Permutation_list {A} (p : A → bool) (l l' : list A) :
  l ≡ₚ l' → List.filter p l ≡ₚ List.filter p l'.
Proof.
  induction 1 as [|x l l' _ IH|x y l|l l' l'' _ IH1 _ IH2]; simpl.
  - done.
  - destruct (p x); [by constructor|done].
  - destruct (p x), (p y); try done. apply perm_swap.
  - by etrans.
Qed.

Lemma filter_StronglySorted {A} (R : relation A) (p : A → bool) (l : list A) :
  StronglySorted R l → StronglySorted R (List.filter p l).
Proof.
  induction 1 as [|x l _ IH Hx]; simpl; [constructor|].
  destruct (p x); [|done]. constructor; [done|].
  apply Forall_forall. intros y Hy%list_elem_of_In%List.filter_In.
  rewrite Forall_forall in Hx. apply Hx, list_elem_of_In, Hy.
Qed.

Lemma media_files_Permutation (listing : list string) :
  media_files listing ≡ₚ List.filter is_media listing.
Proof. apply filter_Permutation_list, sorted_Permutation. Qed.

Lemma media_files_sorted (listing : list string) :
  StronglySorted (key_le (λ f, f)) (media_files listing).
Proof.
  apply filter_StronglySorted, Sorted_StronglySorted; [|apply sorted_Sorted].
  intros a b c. apply leb_trans.
Qed.

(** C2 (amended). A rescan takes the media files of the listing in sorted
    file-name order, builds one song per file and numbers them 1, 2, ..., n
    in that order; so the ids in the library are pairwise distinct, and the
    counter is left at n + 1.  [delete_song] creates no song and does not
    move the counter.  (Each rescan restarts at 1.) *)
Theorem rescan_assigns_ids (listing : list string) (m : Manager) :
  let m' := rescan listing m in
  let files := media_files listing in
  let n := length files in
  files ≡ₚ List.filter is_media listing
  ∧ StronglySorted (key_le (λ f, f)) files
  ∧ map (deref m') (get_all_songs m') = songs_of_files 1 files
  ∧ map (sid m') (get_all_songs m') = map (λ k, (1 + Z.of_nat k)%Z) (seq 0 n)
  ∧ NoDup (map (sid m') (get_all_songs m'))
  ∧ _next_id m' = (1 + Z.of_nat n)%Z
  ∧ ∀ id m0, heap (delete_song id m0) = heap m0
             ∧ _next_id (delete_song id m0) = _next_id m0.
Proof.
  cbn zeta.
  split; [apply media_files_Permutation|].
  split; [apply media_files_sorted|].
  split; [apply rescan_graph|].
  unfold rescan, get_all_songs, SinglyLinkedList.to_list.
  set (m0 := mkManager _ _ _ _ _ _ _ _ _ _).
  destruct (load_files_ids (media_files listing) m0) as [Hids Hnext].
  { by apply Forall_nil. }
  cbn zeta in Hids. cbn [library _next_id with_graph].
  change (sid (with_graph ?g ?x)) with (sid x).
  assert (E : map (sid (foldl load_file m0 (media_files listing)))
                (library (foldl load_file m0 (media_files listing)))
              = map (λ k, (1 + Z.of_nat k)%Z)
                  (seq 0 (length (media_files listing)))) by exact Hids.
  split; [exact E|]. split.
  - rewrite E. apply NoDup_fmap_2; [|apply NoDup_seq].
    intros a b. lia.
  - split; [exact Hnext|].
    intros id m1. split; [apply delete_song_heap|apply delete_song_next_id].
Qed.

(** X23. The result of a rescan does not depend on the order in which the
    directory is listed: two listings with the same file names give the
    same state, ids included. *)
Theorem rescan_ignores_listing_order (listing listing' : list string)
    (m : Manager) :
  listing ≡ₚ listing' →
  media_files listing = media_files listing'
  ∧ rescan listing m = rescan listing' m.
Proof.
  intros Hperm.
  assert (H : media_files listing = media_files listing').
  { unfold media_files. by rewrite (sorted_names_unique _ _ Hperm). }
  split; [done|]. unfold rescan. by rewrite H.
Qed.

Lemma rescan_ignores_listing_order_witness :
  rescan ["b.mp3"; "a.mp3"] Scenario.three
  = rescan ["a.mp3"; "b.mp3"] Scenario.three.
Proof.
  refine (proj2 (rescan_ignores_listing_order _ _ _ _)).
  apply Permutation_swap.
Defined.

(** * More on delete *)

Lemma remove_first_filter {A} (f : A → Z) (id : Z) (l : list A) :
  NoDup (map f l) →
  remove_first (λ y, Z.eqb (f y) id) l
  = List.filter (λ y, negb (Z.eqb (f y) id)) l.
Proof.
  induction l as [|x l IH]; simpl; [done|].
  intros [Hx Hl]%NoDup_cons. destruct (Z.eqb_spec (f x) id) as [E|E]; simpl.
  - symmetry. apply List.forallb_filter_id, forallb_forall.
    intros y Hy. apply negb_true_iff, Z.eqb_neq. intros Hfy. apply Hx.
    rewrite E, <- Hfy. apply list_elem_of_fmap. exists y.
    split; [done|by apply list_elem_of_In].
  - by rewrite IH.
Qed.

Lemma delete_song_unknown (id : Z) (m : Manager) :
  _song_index m !! id = None → delete_song id m = m.
Proof. intros E. unfold delete_song. by rewrite E. Qed.

(** X24. Deleting a song twice is the same as deleting it once; a delete
    changes no attribute of any song and leaves every other id of the index
    where it was; and when the library holds every id once, the library
    afterwards is the old one without the deleted song, in the old order. *)
Theorem delete_song_once (id : Z) (m : Manager) :
  delete_song id (delete_song id m) = delete_song id m
  ∧ (∀ r, deref (delete_song id m) r = deref m r)
  ∧ (∀ id', id' ≠ id →
       get_song_by_id id' (delete_song id m) = get_song_by_id id' m)
  ∧ (NoDup (map (sid m) (get_all_songs m)) →
     is_Some (get_song_by_id id m) →
     get_all_songs (delete_song id m)
     = List.filter (λ r, negb (has_id m id r)) (get_all_songs m)).
Proof.
  split; [|split; [|split]].
  - apply delete_song_unknown.
    destruct (_song_index m !! id) as [r|] eqn:E.
    + unfold delete_song. rewrite E. cbn. apply lookup_delete_eq.
    + by rewrite (delete_song_unknown id m E).
  - intros r. unfold deref. by rewrite delete_song_heap.
  - intros id' Hne. unfold get_song_by_id, delete_song.
    destruct (_song_index m !! id); [|done]. cbn.
    by apply lookup_delete_ne.
  - intros Hnd [r Hr]. unfold get_song_by_id in Hr. unfold delete_song.
    rewrite Hr. cbn. by apply remove_first_filter.
Qed.

(** * The structures stay consistent *)

Lemma insert_all_keys_ext (m m' : Manager) (songs : list loc)
    (t : BST.tree loc) :
  (∀ r, bst_key (deref m' r) = bst_key (deref m r)) →
  insert_all m' songs t = insert_all m songs t.
Proof.
  intros Hk. revert t. induction songs as [|s songs IH]; intros t; simpl;
    [done|]. by rewrite Hk, IH.
Qed.

Lemma same_catalogue_refl (m : Manager) : same_catalogue m m.
Proof. by repeat split. Qed.

Lemma consistent_same_catalogue (m m' : Manager) :
  same_catalogue m m' → consistent m → consistent m'.
Proof.
  intros (Hl & Hg & Hb & Hgr & Hi & Hlen & Hmeta)
    (Hex & Hnd & Hli & Hbst & Hg1 & Hg2 & Hg3 & Hnodes & Hund).
  assert (Hgenre : ∀ r, genre (deref m' r) = genre (deref m r))
    by (intros r; apply Hmeta).
  assert (Hsid : ∀ r, sid m' r = sid m r) by (intros r; apply Hmeta).
  unfold consistent, index_exact, get_songs_by_genre in *.
  rewrite Hl, Hg, Hb, Hgr, Hi, Hlen.
  split.
  { eapply map_Forall_impl; [exact Hex|]. simpl. intros id r [? ?].
    by rewrite Hsid. }
  split; [done|]. split; [done|]. split.
  { rewrite Hbst. symmetry. apply insert_all_keys_ext. intros r.
    unfold bst_key. destruct (Hmeta r) as (-> & _ & ->). done. }
  split; [intros r Hr; rewrite Hgenre; by apply Hg1|].
  split; [intros g r Hr; rewrite Hgenre; by apply Hg2|].
  done.
Qed.

(** Writing a song back with the same id, genre and title. *)
Lemma same_catalogue_heap_update (m : Manager) (r : loc) (s' : Song) :
  song_id s' = song_id (deref m r) → genre s' = genre (deref m r) →
  title s' = title (deref m r) →
  same_catalogue m (with_heap (<[r := s']> (heap m)) m).
Proof.
  intros Hid Hgenre Htitle. unfold same_catalogue. cbn.
  rewrite length_insert. repeat split; try done.
  all: unfold deref; cbn; destruct (decide (r0 = r)) as [->|Hne];
    [|by rewrite !list_lookup_total_alt, list_lookup_insert_ne].
  all: destruct (decide (r < length (heap m))%nat) as [Hlt|Hge];
    [rewrite (list_lookup_total_alt (<[r:=s']> (heap m))),
       list_lookup_insert_eq by done; done
    |by rewrite list_insert_ge by lia].
Qed.

Lemma same_catalogue_trans (m1 m2 m3 : Manager) :
  same_catalogue m1 m2 → same_catalogue m2 m3 → same_catalogue m1 m3.
Proof.
  intros (Hl & Hg & Hb & Hgr & Hi & Hlen & Hmeta)
    (Hl' & Hg' & Hb' & Hgr' & Hi' & Hlen' & Hmeta').
  unfold same_catalogue.
  rewrite Hl', Hl, Hg', Hg, Hb', Hb, Hgr', Hgr, Hi', Hi, Hlen', Hlen.
  repeat split; try done.
  all: destruct (Hmeta r) as (? & ? & ?); destruct (Hmeta' r) as (? & ? & ?);
    congruence.
Qed.

Lemma same_catalogue_with_queue (m : Manager) (q : list loc) :
  same_catalogue m (with_queue q m).
Proof. by repeat split. Qed.

Lemma same_catalogue_with_history (m : Manager) (h : list loc) :
  same_catalogue m (with_history h m).
Proof. by repeat split. Qed.

Lemma same_catalogue_with_playlists (m : Manager)
    (p : gmap string (Playlist.t loc)) :
  same_catalogue m (with_playlists p m).
Proof. by repeat split. Qed.

(** The commands that only play, queue or arrange songs. *)
Lemma run_same_catalogue (c : command) (m : Manager) :
  match c with
  | Rescan _ | UpdateSong _ _ | DeleteSong _ => True
  | _ => same_catalogue m (run c m)
  end.
Proof.
  pose proof (same_catalogue_refl m) as Hrefl.
  destruct c; try exact I; simpl.
  - unfold toggle_favorite. destruct (_song_index m !! id); [|done].
    by apply same_catalogue_heap_update.
  - unfold create_playlist. destruct (playlists m !! name); [done|].
    apply same_catalogue_with_playlists.
  - unfold delete_playlist. destruct (playlists m !! name); [|done].
    apply same_catalogue_with_playlists.
  - unfold add_song_to_playlist, get_song_by_id.
    apply (same_catalogue_trans m (create_playlist name m)).
    + unfold create_playlist. destruct (playlists m !! name);
        [apply same_catalogue_refl|apply same_catalogue_with_playlists].
    + destruct (_song_index (create_playlist name m) !! id);
        [apply same_catalogue_with_playlists|apply same_catalogue_refl].
  - unfold remove_song_from_playlist. destruct (playlists m !! name); [|done].
    apply same_catalogue_with_playlists.
  - unfold enqueue_song, get_song_by_id. destruct (_song_index m !! id);
      [|done]. apply same_catalogue_with_queue.
  - apply same_catalogue_with_queue.
  - unfold record_play.
    apply (same_catalogue_trans m
             (with_heap (<[song := bump_play_count (deref m song)]> (heap m)) m));
      [by apply same_catalogue_heap_update|].
    apply same_catalogue_with_history.
  - unfold get_next_song.
    destruct (playlist_step _ _ _ _); [done|].
    unfold dequeue_song.
    destruct (Queue.dequeue (queue m)).1; [apply same_catalogue_with_queue|].
    destruct (match current with Some _ => _ | None => _ end);
      apply same_catalogue_with_queue.
  - unfold get_previous_song.
    destruct (playlist_step _ _ _ _); [done|].
    destruct (Stack.pop (history m)).1; [|apply same_catalogue_with_history].
    destruct (_ && _); [|apply same_catalogue_with_history].
    eapply same_catalogue_trans; apply same_catalogue_with_history.
Qed.

Lemma setdefault_is_Some_iff (k x : Z) (adj : gmap Z (list Z)) :
  is_Some (SongGraph.setdefault k adj !! x) ↔ x = k ∨ is_Some (adj !! x).
Proof.
  split; [|apply setdefault_is_Some].
  unfold SongGraph.setdefault. destruct (adj !! k) eqn:E; [by right|].
  destruct (decide (k = x)) as [->|Hne]; [by left|].
  rewrite lookup_insert_ne by done. by right.
Qed.

Lemma append_absent_is_Some_iff (x y k : Z) (adj : gmap Z (list Z)) :
  is_Some (SongGraph.append_absent x y adj !! k) ↔ is_Some (adj !! k).
Proof.
  split; [|apply append_absent_is_Some].
  unfold SongGraph.append_absent. destruct (adj !! x) as [l|] eqn:E; [|done].
  case_bool_decide; [done|].
  destruct (decide (x = k)) as [->|Hne].
  - intros _. by eexists.
  - by rewrite lookup_insert_ne.
Qed.

Lemma add_edge_nodes (a b x : Z) (adj : gmap Z (list Z)) :
  is_Some (adj !! a) → is_Some (adj !! b) →
  is_Some (SongGraph.add_edge a b adj !! x) ↔ is_Some (adj !! x).
Proof.
  intros Ha Hb. unfold SongGraph.add_edge. case_bool_decide; [done|].
  rewrite !append_absent_is_Some_iff.
  by rewrite (setdefault_known a adj Ha), (setdefault_known b adj Hb).
Qed.

Lemma similarity_edges_nodes (songs : list Song) (adj : gmap Z (list Z))
    (x : Z) :
  Forall (λ s, is_Some (adj !! song_id s)) songs →
  is_Some (similarity_edges songs adj !! x) ↔ is_Some (adj !! x).
Proof.
  revert adj. induction songs as [|a rest IH]; intros adj Hnodes; simpl;
    [done|].
  apply Forall_cons in Hnodes as [Ha Hrest].
  assert (Hinner : ∀ bs adj', is_Some (adj' !! song_id a) →
            Forall (λ s, is_Some (adj' !! song_id s)) bs →
            ∀ y, is_Some (foldl (link_similar a) adj' bs !! y)
                 ↔ is_Some (adj' !! y)).
  { induction bs as [|b bs IHb]; intros adj' Ha' Hbs y; simpl; [done|].
    apply Forall_cons in Hbs as [Hb Hbs].
    assert (Hstep : ∀ z, is_Some (link_similar a adj' b !! z)
                         ↔ is_Some (adj' !! z)).
    { intros z. unfold link_similar.
      destruct (2 <=? score a b)%Z; [by apply add_edge_nodes|done]. }
    rewrite IHb; [apply Hstep|by apply Hstep|].
    eapply Forall_impl; [exact Hbs|]. intros s Hs. by apply Hstep. }
  rewrite IH; [by apply Hinner|].
  eapply Forall_impl; [exact Hrest|]. intros s Hs. by apply Hinner.
Qed.

Lemma load_file_fresh_index (m : Manager) (f : string) :
  (∀ id r, _song_index m !! id = Some r → (id < _next_id m)%Z) →
  (∀ r, r ∈ library m ↔ ∃ id, _song_index m !! id = Some r) →
  (∀ id, is_Some (graph m !! id) ↔ is_Some (_song_index m !! id)) →
  (∀ id r, _song_index (load_file m f) !! id = Some r →
           (id < _next_id (load_file m f))%Z)
  ∧ (∀ r, r ∈ library (load_file m f)
          ↔ ∃ id, _song_index (load_file m f) !! id = Some r)
  ∧ (∀ id, is_Some (graph (load_file m f) !! id)
           ↔ is_Some (_song_index (load_file m f) !! id)).
Proof.
  intros Hfresh Hlib Hnodes.
  rewrite load_file_song_index, load_file_library, load_file_next_id,
    load_file_graph.
  split; [|split].
  - intros id r. destruct (decide (id = _next_id m)) as [->|Hne].
    + intros _. lia.
    + rewrite lookup_insert_ne by done. intros H%Hfresh. lia.
  - intros r. rewrite elem_of_app, list_elem_of_singleton, Hlib. split.
    + intros [(id & Hid)| ->].
      * exists id. rewrite lookup_insert_ne; [done|].
        intros <-. apply Hfresh in Hid. lia.
      * exists (_next_id m). apply lookup_insert_eq.
    + intros (id & Hid). destruct (decide (id = _next_id m)) as [->|Hne].
      * rewrite lookup_insert_eq in Hid. right. congruence.
      * rewrite lookup_insert_ne in Hid by done. left. by exists id.
  - intros id. unfold SongGraph.add_song. rewrite setdefault_is_Some_iff.
    destruct (decide (id = _next_id m)) as [->|Hne].
    + rewrite lookup_insert_eq. split; [by eexists|by left].
    + rewrite lookup_insert_ne by done. rewrite Hnodes. intuition.
Qed.

Lemma rescan_genre_unknown (listing : list string) (m : Manager) (r : loc) :
  r ∈ get_all_songs (rescan listing m) →
  genre (deref (rescan listing m) r) = "Unknown".
Proof.
  intros Hr. destruct (rescan_graph listing m) as [Hsongs _].
  cbn zeta in Hsongs.
  pose proof (songs_of_files_fresh 1 (media_files listing)) as H.
  rewrite <- Hsongs in H. rewrite Forall_forall in H.
  destruct (H (deref (rescan listing m) r)) as (f & _ & ->); [|done].
  apply list_elem_of_fmap. by exists r.
Qed.

(** A rescan leaves all structures in agreement. *)
Lemma rescan_consistent (listing : list string) (m : Manager) :
  consistent (rescan listing m).
Proof.
  destruct (rescan_well_formed listing m) as (Hex & Hids & _ & Hsym & Hsimple).
  pose proof (rescan_bst listing m) as Hbst. cbn zeta in Hbst.
  pose proof (rescan_genre_unknown listing m) as Hunknown.
  destruct (rescan_graph listing m) as [Hsongs Hgraph]. cbn zeta in Hsongs, Hgraph.
  assert (Hloop : graph_loop_free (graph (rescan listing m))).
  { intros x. rewrite Hgraph, neighbors_similarity_edges, neighbors_nodes_only.
    intros [H|(a & b & _ & _ & Hne & [[E1 E2]|[E1 E2]])];
      [by apply elem_of_nil in H|apply Hne; congruence..]. }
  revert Hex Hids Hsym Hsimple Hbst Hunknown Hloop. clear Hsongs Hgraph.
  unfold rescan, get_all_songs, SinglyLinkedList.to_list, get_songs_by_genre.
  set (m0 := mkManager _ _ _ _ _ _ _ _ _ _).
  set (m1 := foldl load_file m0 (media_files listing)).
  set (g := similarity_edges _ _).
  intros Hex Hids Hsym Hsimple Hbst Hunknown Hloop.
  assert (Hinv : (∀ id r, _song_index m1 !! id = Some r → (id < _next_id m1)%Z)
                 ∧ (∀ r, r ∈ library m1 ↔ ∃ id, _song_index m1 !! id = Some r)
                 ∧ (∀ id, is_Some (graph m1 !! id)
                          ↔ is_Some (_song_index m1 !! id))).
  { unfold m1. generalize (media_files listing).
    assert (H0 : (∀ id r, _song_index m0 !! id = Some r → (id < _next_id m0)%Z)
                 ∧ (∀ r, r ∈ library m0 ↔ ∃ id, _song_index m0 !! id = Some r)
                 ∧ (∀ id, is_Some (graph m0 !! id)
                          ↔ is_Some (_song_index m0 !! id))).
    { cbn. split; [by intros id r H; rewrite lookup_empty in H|]. split.
      - intros r. split; [by intros ?%elem_of_nil|].
        intros (id & H). by rewrite lookup_empty in H.
      - intros id. by rewrite !lookup_empty. }
    revert H0. generalize m0. intros m2 H2 fs. revert m2 H2.
    induction fs as [|f fs IH]; intros m2 H2; simpl; [done|].
    apply IH. destruct H2 as (? & ? & ?). by apply load_file_fresh_index. }
  destruct Hinv as (_ & Hlib & Hnodes).
  pose proof (load_files_genres (media_files listing) m0 eq_refl) as Hgen.
  cbn zeta in Hgen. fold m1 in Hgen.
  assert (Hndlib : NoDup (library m1)).
  { eapply NoDup_fmap_1. exact Hids. }
  unfold consistent. cbn [library genres bst graph _song_index with_graph] in *.
  change (deref (with_graph g m1)) with (deref m1) in *.
  change (sid (with_graph g m1)) with (sid m1) in *.
  change (index_exact (with_graph g m1)) with (index_exact m1) in Hex.
  change (insert_all (with_graph g m1)) with (insert_all m1) in Hbst.
  unfold get_songs_by_genre. cbn [genres with_graph].
  split; [done|]. split; [done|]. split; [done|]. split; [done|].
  split; [|split; [|split; [|split]]].
  - intros r Hr. rewrite (Hunknown r Hr), Hgen.
    destruct (library m1) as [|x l] eqn:El; [by apply elem_of_nil in Hr|].
    unfold GenreMultiList.get_songs. simpl. by rewrite elem_of_reverse.
  - intros g0 r. rewrite Hgen.
    destruct (library m1) as [|x l] eqn:El.
    { unfold GenreMultiList.get_songs. simpl. by intros ?%elem_of_nil. }
    unfold GenreMultiList.get_songs. simpl.
    destruct (GenreMultiList.same_genre "Unknown" g0) eqn:E; simpl;
      [|by intros ?%elem_of_nil].
    rewrite elem_of_reverse. intros Hr. split; [done|].
    rewrite (Hunknown r Hr). by apply same_genre_lower.
  - intros g0. rewrite Hgen. destruct (library m1) as [|x l] eqn:El.
    { apply NoDup_nil_2. }
    unfold GenreMultiList.get_songs. simpl.
    destruct (GenreMultiList.same_genre "Unknown" g0); simpl;
      [by rewrite reverse_Permutation|apply NoDup_nil_2].
  - intros id. rewrite <- Hnodes. unfold g. apply similarity_edges_nodes.
    apply Forall_forall. intros s (r & -> & Hr)%list_elem_of_fmap.
    apply Hnodes. apply Hlib in Hr as (id' & Hid').
    destruct (Hex id' r Hid') as [_ Hsid]. unfold sid in Hsid.
    rewrite Hsid. by eexists.
  - by repeat split.
Qed.

Lemma remove_first_unique_match {A} (p : A → bool) (l : list A) (r : A) :
  NoDup l → (∀ x, x ∈ l → p x = true → x = r) → p r = true →
  ∀ x, x ∈ remove_first p l ↔ x ∈ l ∧ x ≠ r.
Proof.
  intros Hnd Honly Hr x. induction l as [|y l IH]; simpl.
  - split; [by intros ?%elem_of_nil|by intros [?%elem_of_nil _]].
  - apply NoDup_cons in Hnd as [Hy Hnd].
    assert (IH' : x ∈ remove_first p l ↔ x ∈ l ∧ x ≠ r).
    { apply IH; [done|]. intros z Hz. apply Honly. by right. }
    destruct (p y) eqn:Ey.
    + assert (y = r) as -> by (apply Honly; [by left|done]).
      rewrite elem_of_cons. split; [|intros [[?|?] ?]; done].
      intros Hx. split; [by right|]. by intros ->.
    + rewrite !elem_of_cons, IH'. split.
      * intros [->|[? ?]]; [|by split; [right|]].
        split; [by left|]. intros ->. congruence.
      * intros [[->|?] ?]; [by left|by right].
Qed.

Section genre_buckets.
Context {A : Type}.
Implicit Types (hs : list (GenreMultiList.GenreHeader A)) (g : string).
Import GenreMultiList.

Lemma get_songs_same_key g g' hs :
  PyStr.lower g = PyStr.lower g' → get_songs g hs = get_songs g' hs.
Proof. intros E. unfold get_songs. by rewrite (find_genre_same_key g g'). Qed.

Lemma remove_song_same_key g g' (p : A → bool) hs :
  PyStr.lower g = PyStr.lower g' → remove_song g p hs = remove_song g' p hs.
Proof.
  intros E. unfold remove_song.
  by rewrite (find_genre_same_key g g'), (update_found_same_key g g').
Qed.

Lemma add_song_same_bucket g g' (x : A) hs :
  PyStr.lower g = PyStr.lower g' →
  get_songs g (add_song g' x hs) = x :: get_songs g hs.
Proof.
  intros E. rewrite (get_songs_same_key g g' _ E), (get_songs_same_key g g' hs E).
  apply get_songs_add_song.
Qed.

Lemma remove_song_same_bucket g g' (p : A → bool) hs :
  PyStr.lower g = PyStr.lower g' →
  get_songs g (remove_song g' p hs).2 = remove_first p (get_songs g hs).
Proof.
  intros E. rewrite (get_songs_same_key g g' _ E), (get_songs_same_key g g' hs E).
  apply get_songs_remove_song.
Qed.

Lemma remove_song_other_bucket g g' (p : A → bool) hs :
  PyStr.lower g ≠ PyStr.lower g' →
  get_songs g (remove_song g' p hs).2 = get_songs g hs.
Proof.
  intros E. unfold remove_song, get_songs.
  destruct (_find_genre g' hs); simpl; [|done].
  by rewrite find_genre_update_found_other.
Qed.

End genre_buckets.

Lemma consistent_index (m : Manager) (id : Z) (r : loc) :
  consistent m → _song_index m !! id = Some r →
  r ∈ library m ∧ sid m r = id ∧ (r < length (heap m))%nat.
Proof.
  intros (Hex & _ & Hli & _) E. destruct (Hex id r E) as [Hlt Hsid].
  split; [|done]. apply Hli. by exists id.
Qed.

Lemma consistent_sid_inj (m : Manager) (x y : loc) :
  consistent m → x ∈ library m → y ∈ library m → sid m x = sid m y → x = y.
Proof.
  intros (Hex & _ & Hli & _) Hx Hy Hsid.
  apply Hli in Hx as (i & Hi). apply Hli in Hy as (j & Hj).
  destruct (Hex i x Hi) as [_ Hsi]. destruct (Hex j y Hj) as [_ Hsj].
  cbn beta in Hsi, Hsj. congruence.
Qed.

(** Taking the song with id [id] out of its genre bucket: afterwards every
    bucket holds what it held, except that song. *)
Lemma consistent_bucket_remove (m : Manager) (id : Z) (r : loc)
    (p : loc → bool) (g_old g : string) :
  consistent m → _song_index m !! id = Some r →
  (∀ x, p x = has_id m id x) →
  PyStr.lower g_old = PyStr.lower (genre (deref m r)) →
  let hs := (GenreMultiList.remove_song g_old p (genres m)).2 in
  (∀ x, x ∈ GenreMultiList.get_songs g hs
        ↔ x ∈ get_songs_by_genre g m ∧ x ≠ r)
  ∧ NoDup (GenreMultiList.get_songs g hs).
Proof.
  intros Hc E Hp Hold. cbn zeta.
  destruct (consistent_index m id r Hc E) as (Hr & Hsid & _).
  pose proof (λ x y, consistent_sid_inj m x y Hc) as Hinj.
  destruct Hc as (_ & _ & _ & _ & _ & Hg2 & Hg3 & _).
  unfold get_songs_by_genre in *.
  destruct (decide (PyStr.lower g = PyStr.lower g_old)) as [Eg|Eg].
  - rewrite (remove_song_same_bucket g g_old p _ Eg).
    split; [|by apply remove_first_NoDup].
    apply remove_first_unique_match; [done| |].
    + intros x Hx Hpx. rewrite Hp in Hpx. apply Z.eqb_eq in Hpx.
      apply (Hinj x r); [by apply Hg2 in Hx as [? _]|done|congruence].
    + rewrite Hp. by apply Z.eqb_eq.
  - rewrite (remove_song_other_bucket g g_old p _ Eg). split; [|done].
    intros x. split; [|by intros [? _]]. intros Hx. split; [done|].
    intros ->. apply Hg2 in Hx as [_ Hx]. congruence.
Qed.

Lemma delete_song_fields (id : Z) (m : Manager) (r : loc) :
  _song_index m !! id = Some r →
  let m' := delete_song id m in
  heap m' = heap m
  ∧ library m' = remove_first (has_id m id) (library m)
  ∧ genres m'
    = (GenreMultiList.remove_song (genre (deref m r)) (has_id m id)
         (genres m)).2
  ∧ _song_index m' = delete id (_song_index m)
  ∧ bst m' = insert_all m (library m') BST.Leaf
  ∧ graph m' = SongGraph.remove_song id (graph m).
Proof. intros E. unfold delete_song. rewrite E. cbn zeta. by repeat split. Qed.

Lemma remove_song_undirected (id : Z) (adj : gmap Z (list Z)) :
  graph_undirected adj → graph_undirected (SongGraph.remove_song id adj).
Proof.
  intros (Hsym & Hsimple & Hloop). split; [|split].
  - intros x z. rewrite !neighbors_remove_song by done.
    intros (H & ? & ?). split; [by apply Hsym|done].
  - by apply remove_song_simple.
  - intros x. rewrite neighbors_remove_song by done.
    intros (H & _). by apply (Hloop x).
Qed.

Lemma remove_song_nodes (id k : Z) (adj : gmap Z (list Z)) :
  is_Some (SongGraph.remove_song id adj !! k)
  ↔ is_Some (adj !! k) ∧ k ≠ id.
Proof.
  unfold SongGraph.remove_song. destruct (adj !! id) as [ns|] eqn:E.
  - destruct (decide (k = id)) as [->|Hne].
    + rewrite lookup_delete_eq. split; [by intros [? ?]|by intros [_ ?]].
    + rewrite lookup_delete_ne by done. rewrite strip_all_is_Some.
      split; [done|by intros [? _]].
  - split; [|by intros [? _]]. intros H. split; [done|].
    intros ->. rewrite E in H. by destruct H.
Qed.

(** [delete_song] keeps the structures in agreement. *)
Lemma delete_song_consistent (id : Z) (m : Manager) :
  consistent m → consistent (delete_song id m).
Proof.
  intros Hc. destruct (_song_index m !! id) as [r|] eqn:E;
    [|by rewrite delete_song_unknown].
  destruct (consistent_index m id r Hc E) as (Hr & Hsid & Hlt).
  pose proof (λ x y, consistent_sid_inj m x y Hc) as Hinj.
  pose proof (λ g, consistent_bucket_remove m id r (has_id m id)
                     (genre (deref m r)) g Hc E (λ x, eq_refl) eq_refl)
    as Hbucket. cbn zeta in Hbucket.
  destruct (delete_song_fields id m r E)
    as (Hheap & Hlib & Hgen & Hidx & Hbst' & Hgraph).
  destruct Hc as (Hex & Hnd & Hli & Hbst & Hg1 & Hg2 & Hg3 & Hnodes & Hund).
  assert (Hderef : ∀ x, deref (delete_song id m) x = deref m x).
  { intros x. unfold deref. by rewrite Hheap. }
  assert (Hlib' : ∀ x, x ∈ library (delete_song id m)
                       ↔ x ∈ library m ∧ x ≠ r).
  { rewrite Hlib. apply remove_first_unique_match; [done| |].
    - intros x Hx Hpx. apply Z.eqb_eq in Hpx.
      apply (Hinj x r); [done..|congruence].
    - by apply Z.eqb_eq. }
  unfold consistent.
  split; [|split; [|split; [|split; [|split; [|split; [|split; [|split]]]]]]].
  - unfold index_exact, sid. rewrite Hidx, Hheap.
    apply map_Forall_delete. intros i x Hi. rewrite Hderef. by apply Hex.
  - rewrite Hlib. by apply remove_first_NoDup.
  - intros x. rewrite Hlib', Hidx, Hli. split.
    + intros [(i & Hi) Hne]. exists i. rewrite lookup_delete_ne; [done|].
      intros <-. congruence.
    + intros (i & Hi). apply lookup_delete_Some in Hi as [Hne Hi].
      split; [by exists i|]. intros ->. destruct (Hex i r Hi) as [_ Hs].
      cbn beta in Hs. congruence.
  - rewrite Hbst'. symmetry. apply insert_all_ext.
    apply Forall_forall. intros x _. apply Hderef.
  - intros x [Hx Hne]%Hlib'. unfold get_songs_by_genre.
    rewrite Hgen, Hderef. apply Hbucket. split; [by apply Hg1|done].
  - intros g x. unfold get_songs_by_genre. rewrite Hgen, Hderef.
    intros [Hx Hne]%Hbucket. apply Hg2 in Hx as [Hx Hgx].
    split; [by apply Hlib'|done].
  - intros g. unfold get_songs_by_genre. rewrite Hgen. apply Hbucket.
  - intros k. rewrite Hgraph, Hidx, remove_song_nodes, Hnodes.
    destruct (decide (k = id)) as [->|Hne].
    + rewrite lookup_delete_eq. split; [by intros [_ ?]|by intros [? ?]].
    + rewrite lookup_delete_ne by done. split; [by intros [? _]|done].
  - rewrite Hgraph. by apply remove_song_undirected.
Qed.

Lemma update_song_fields (id : Z) (fields : SongFields) (m : Manager)
    (r : loc) :
  _song_index m !! id = Some r → (r < length (heap m))%nat →
  let s' := apply_fields fields (deref m r) in
  let m' := update_song id fields m in
  heap m' = <[r := s']> (heap m)
  ∧ library m' = library m
  ∧ _song_index m' = _song_index m
  ∧ graph m' = graph m
  ∧ genres m'
    = (if bool_decide (genre (deref m r) ≠ genre s')
       then GenreMultiList.add_song (genre s') r
              (GenreMultiList.remove_song (genre (deref m r))
                 (has_id m' id) (genres m)).2
       else genres m)
  ∧ bst m'
    = (if bool_decide (title (deref m r) ≠ title s')
       then insert_all m' (library m) BST.Leaf
       else bst m).
Proof.
  intros E Hlt. cbn zeta. unfold update_song. rewrite E. cbn zeta.
  set (s' := apply_fields fields (deref m r)).
  set (m1 := with_heap (<[r := s']> (heap m)) m).
  assert (Hs' : deref m1 r = s').
  { unfold deref, m1. cbn [heap with_heap].
    by rewrite list_lookup_total_insert_eq. }
  rewrite Hs'.
  destruct (bool_decide (genre (deref m r) ≠ genre s')) eqn:Eg.
  - rewrite deref_with_genres, Hs'.
    destruct (bool_decide (title (deref m r) ≠ title s')); by repeat split.
  - rewrite Hs'.
    destruct (bool_decide (title (deref m r) ≠ title s')); by repeat split.
Qed.

(** [update_song] keeps the structures in agreement when it is not asked to
    replace the id. *)
Lemma update_song_consistent (id : Z) (fields : SongFields) (m : Manager) :
  f_song_id fields = None → consistent m →
  consistent (update_song id fields m).
Proof.
  intros Hkeep Hc. destruct (_song_index m !! id) as [r|] eqn:E;
    [|by unfold update_song; rewrite E].
  destruct (consistent_index m id r Hc E) as (Hr & Hsid & Hlt).
  destruct (update_song_fields id fields m r E Hlt)
    as (Hheap & Hlib & Hidx & Hgraph & Hgen & Hbst').
  set (m' := update_song id fields m) in *.
  set (s' := apply_fields fields (deref m r)) in *.
  assert (Hid' : song_id s' = song_id (deref m r)).
  { unfold s', apply_fields. cbn [song_id]. by rewrite Hkeep. }
  assert (Hnew : deref m' r = s').
  { unfold deref. rewrite Hheap. by apply list_lookup_total_insert_eq. }
  assert (Hother : ∀ x, x ≠ r → deref m' x = deref m x).
  { intros x Hne. unfold deref. rewrite Hheap.
    by rewrite list_lookup_total_insert_ne. }
  assert (Hsid' : ∀ x, sid m' x = sid m x).
  { intros x. unfold sid. destruct (decide (x = r)) as [->|Hne].
    - by rewrite Hnew.
    - by rewrite Hother. }
  pose proof (λ g, consistent_bucket_remove m id r (has_id m' id)
                     (genre (deref m r)) g Hc E
                     (λ x, f_equal (λ z, Z.eqb z id) (Hsid' x)) eq_refl)
    as Hbucket. cbn zeta in Hbucket.
  destruct Hc as (Hex & Hnd & Hli & Hbst & Hg1 & Hg2 & Hg3 & Hnodes & Hund).
  unfold consistent. rewrite Hlib, Hidx, Hgraph.
  split; [|split; [done|split; [done|split; [|split; [|split; [|split]]]]]].
  - unfold index_exact. rewrite Hidx, Hheap, length_insert.
    intros i x Hi. rewrite Hsid'. by apply Hex.
  - rewrite Hbst'. clear Hgen Hbst'. case_bool_decide as Et; [done|].
    rewrite Hbst. symmetry.
    apply insert_all_keys_ext. intros x. unfold bst_key.
    destruct (decide (x = r)) as [->|Hne].
    + by rewrite Hnew, <- Et, Hid'.
    + by rewrite Hother.
  - intros x Hx. unfold get_songs_by_genre. rewrite Hgen.
    clear Hgen Hbst'. case_bool_decide as Eg.
    + destruct (decide (x = r)) as [->|Hne].
      * rewrite Hnew, get_songs_add_song. by left.
      * rewrite (Hother x Hne).
        assert (Hin : x ∈ GenreMultiList.get_songs (genre (deref m x))
                        (GenreMultiList.remove_song (genre (deref m r))
                           (has_id m' id) (genres m)).2).
        { apply Hbucket. split; [by apply Hg1|done]. }
        destruct (decide (PyStr.lower (genre (deref m x))
                          = PyStr.lower (genre s'))) as [Ek|Ek].
        -- rewrite (add_song_same_bucket _ _ _ _ Ek). by right.
        -- by rewrite get_songs_add_song_other.
    + destruct (decide (x = r)) as [->|Hne].
      * rewrite Hnew, <- Eg. by apply Hg1.
      * rewrite (Hother x Hne). by apply Hg1.
  - intros g x. unfold get_songs_by_genre. rewrite Hgen.
    clear Hgen Hbst'. case_bool_decide as Eg.
    + assert (Hrest : x ∈ GenreMultiList.get_songs g
                        (GenreMultiList.remove_song (genre (deref m r))
                           (has_id m' id) (genres m)).2 →
                      x ∈ library m
                      ∧ PyStr.lower (genre (deref m' x)) = PyStr.lower g).
      { intros [Hx Hne]%Hbucket. apply Hg2 in Hx as [Hx Hgx].
        by rewrite (Hother x Hne). }
      destruct (decide (PyStr.lower g = PyStr.lower (genre s'))) as [Ek|Ek].
      * rewrite (add_song_same_bucket _ _ _ _ Ek).
        intros [->|Hx]%elem_of_cons; [|by apply Hrest].
        by rewrite Hnew.
      * rewrite get_songs_add_song_other by done. apply Hrest.
    + intros [Hx Hgx]%Hg2. split; [done|].
      destruct (decide (x = r)) as [->|Hne].
      * by rewrite Hnew, <- Eg.
      * by rewrite (Hother x Hne).
  - intros g. unfold get_songs_by_genre. rewrite Hgen.
    clear Hgen Hbst'. case_bool_decide as Eg; [|apply Hg3].
    destruct (decide (PyStr.lower g = PyStr.lower (genre s'))) as [Ek|Ek].
    + rewrite (add_song_same_bucket _ _ _ _ Ek). apply NoDup_cons.
      split; [|apply Hbucket]. by intros [_ ?]%Hbucket.
    + rewrite get_songs_add_song_other by done. apply Hbucket.
  - done.
Qed.

(** Every state the coordinator reaches without an edit of a song id has
    its structures in agreement. *)
Lemma reachable_keeping_ids_consistent (m : Manager) :
  reachable_keeping_ids m → consistent m.
Proof.
  induction 1 as [listing|c m Hkeep _ IH]; [apply rescan_consistent|].
  pose proof (run_same_catalogue c m) as Hsame.
  destruct c; try (by eapply consistent_same_catalogue; [exact Hsame|]).
  - apply rescan_consistent.
  - by apply update_song_consistent.
  - by apply delete_song_consistent.
Qed.

(** ** What the agreement gives the callers *)

(** X25. In every state reached without an edit of a song id, the id index
    and the library list hold the same songs: the ids of the library are
    pairwise distinct, and [get_song_by_id] returns a song exactly when that
    song is in the library and carries the id. *)
Theorem library_index_agree (m : Manager) :
  reachable_keeping_ids m →
  NoDup (map (sid m) (get_all_songs m))
  ∧ ∀ id r, get_song_by_id id m = Some r
            ↔ r ∈ get_all_songs m ∧ sid m r = id.
Proof.
  intros Hc%reachable_keeping_ids_consistent.
  pose proof (λ x y, consistent_sid_inj m x y Hc) as Hinj.
  pose proof (λ id r, consistent_index m id r Hc) as Hidx.
  destruct Hc as (Hex & Hnd & Hli & _).
  unfold get_song_by_id, get_all_songs, SinglyLinkedList.to_list. split.
  - change (NoDup (sid m <$> library m)). by apply NoDup_fmap_2_strong.
  - intros id r. split.
    + intros E. by destruct (Hidx id r E) as (? & ? & _).
    + intros [Hr <-]. apply Hli in Hr as (i & Hi).
      destruct (Hex i r Hi) as [_ Hs]. cbn beta in Hs. by rewrite Hs.
Qed.

Lemma library_index_agree_witness :
  NoDup (map (sid (run (DeleteSong 1) (init ["a.mp3"; "b.mp3"])))
           (get_all_songs (run (DeleteSong 1) (init ["a.mp3"; "b.mp3"])))).
Proof.
  exact (proj1 (library_index_agree _
                  (keeping_ids_run (DeleteSong 1) _ I
                     (keeping_ids_init ["a.mp3"; "b.mp3"])))).
Defined.

(** X26. In every state reached without an edit of a song id, the genre
    index lists, under any spelling of a genre, exactly the library songs
    whose genre is that genre up to letter case, each once. *)
Theorem genre_listing_exact (g : string) (m : Manager) :
  reachable_keeping_ids m →
  NoDup (get_songs_by_genre g m)
  ∧ ∀ r, r ∈ get_songs_by_genre g m
         ↔ r ∈ get_all_songs m
           ∧ PyStr.lower (genre (deref m r)) = PyStr.lower g.
Proof.
  intros (_ & _ & _ & _ & Hg1 & Hg2 & Hg3 & _)%reachable_keeping_ids_consistent.
  split; [apply Hg3|]. intros r. split; [apply Hg2|].
  intros [Hr Hg]. apply Hg1 in Hr. unfold get_songs_by_genre in *.
  by rewrite <- (get_songs_same_key _ _ _ Hg).
Qed.

Lemma genre_listing_exact_witness :
  NoDup (get_songs_by_genre "rock"
           (run (UpdateSong 1 (only_genre "Rock")) (init ["a.mp3"; "b.mp3"]))).
Proof.
  exact (proj1 (genre_listing_exact "rock" _
                  (keeping_ids_run (UpdateSong 1 (only_genre "Rock")) _
                     eq_refl (keeping_ids_init ["a.mp3"; "b.mp3"])))).
Defined.

Lemma descend_insert_all_last (m : Manager) (songs : list loc) (r : loc)
    (t : BST.tree loc) :
  r ∈ songs →
  ∃ r', BST.descend (PyStr.lower (bst_key (deref m r))) (insert_all m songs t)
        = Some r'
        ∧ r' ∈ songs
        ∧ PyStr.lower (bst_key (deref m r'))
          = PyStr.lower (bst_key (deref m r)).
Proof.
  induction songs as [|s songs IH] using rev_ind;
    [by intros ?%elem_of_nil|].
  intros Hr. rewrite insert_all_snoc. unfold BST.insert.
  destruct (decide (PyStr.lower (bst_key (deref m s))
                    = PyStr.lower (bst_key (deref m r)))) as [E|E].
  - exists s. rewrite <- E, descend_insert_same.
    split; [done|]. split; [|done]. apply elem_of_app. right. by left.
  - rewrite descend_insert_other by done.
    apply elem_of_app in Hr as [Hr|Hr%list_elem_of_singleton];
      [|by subst s].
    destruct (IH Hr) as (r' & Hd & Hr' & Hk). exists r'.
    split; [done|]. split; [|done]. apply elem_of_app. by left.
Qed.

(** X27. In every state reached without an edit of a song id, the title
    tree is in step with the library: a title search returns library songs
    only, and searching for the tree key of a library song (its title, or
    its id in decimal when the title is empty) returns exactly one song, a
    library song whose tree key is the same up to letter case.  (That song
    need not have the same title: the decimal id of a song without a title
    may be the title of another.) *)
Theorem title_index_in_sync (m : Manager) :
  reachable_keeping_ids m →
  (∀ q r, r ∈ search_by_title q m → r ∈ get_all_songs m)
  ∧ (∀ r, r ∈ get_all_songs m →
          ∃ r', search_by_title (bst_key (deref m r)) m = [r']
                ∧ r' ∈ get_all_songs m
                ∧ PyStr.lower (bst_key (deref m r'))
                  = PyStr.lower (bst_key (deref m r))).
Proof.
  intros (_ & _ & _ & Hbst & _)%reachable_keeping_ids_consistent.
  unfold get_all_songs, SinglyLinkedList.to_list. split.
  - intros q r Hr%search_by_title_inorder. rewrite Hbst in Hr.
    apply inorder_insert_all in Hr as [Hr|Hr]; [done|].
    by apply elem_of_nil in Hr.
  - intros r Hr.
    destruct (descend_insert_all_last m (library m) r BST.Leaf Hr)
      as (r' & Hd & Hr' & Hk).
    exists r'. unfold search_by_title, BST.search. by rewrite Hbst, Hd.
Qed.

Lemma title_index_in_sync_witness :
  ∃ r', search_by_title
          (bst_key (deref (run (DeleteSong 1) (init ["a.mp3"; "b.mp3"])) 1))
          (run (DeleteSong 1) (init ["a.mp3"; "b.mp3"])) = [r']
        ∧ r' ∈ get_all_songs (run (DeleteSong 1) (init ["a.mp3"; "b.mp3"]))
        ∧ PyStr.lower
            (bst_key (deref (run (DeleteSong 1) (init ["a.mp3"; "b.mp3"])) r'))
          = PyStr.lower
              (bst_key
                 (deref (run (DeleteSong 1) (init ["a.mp3"; "b.mp3"])) 1)).
Proof.
  apply (proj2 (title_index_in_sync _
                  (keeping_ids_run (DeleteSong 1) _ I
                     (keeping_ids_init ["a.mp3"; "b.mp3"])))).
  apply (bool_decide_unpack _). vm_compute. exact I.
Defined.

Lemma recommendations_all_resolve (m : Manager) (ids : list Z) :
  (∀ z, z ∈ ids → ∃ r, _song_index m !! z = Some r ∧ sid m r = z) →
  map song_id
    (omap (λ i, Api.to_dict m <$> get_song_by_id i m) ids) = ids.
Proof.
  induction ids as [|z ids IH]; intros Hres; [done|].
  destruct (Hres z) as (r & Hr & Hs); [by left|].
  cbn [omap list_omap]. unfold get_song_by_id at 1. rewrite Hr. cbn.
  unfold Api.to_dict at 1. unfold sid in Hs. rewrite Hs. f_equal.
  apply IH. intros z' Hz'. apply Hres. by right.
Qed.

(** X28. In every state reached without an edit of a song id, the
    similarity graph relates library songs: the ids recommended for a song
    are pairwise distinct, never the song itself, each recommends the song
    back, and each resolves, so the recommendation endpoint answers with one
    song per recommended id, in order, and its filter drops nothing. *)
Theorem recommendations_resolve (id : Z) (m : Manager) :
  reachable_keeping_ids m →
  map song_id (Api.api_recommendations id m) = get_similar_songs id m
  ∧ NoDup (get_similar_songs id m)
  ∧ (id ∉ get_similar_songs id m)
  ∧ ∀ z, z ∈ get_similar_songs id m → id ∈ get_similar_songs z m.
Proof.
  intros (Hex & _ & _ & _ & _ & _ & _ & Hnodes & Hsym & Hsimple & Hloop)
    %reachable_keeping_ids_consistent.
  unfold get_similar_songs. split; [|split; [apply Hsimple|split]].
  - apply recommendations_all_resolve. intros z Hz%Hsym.
    apply neighbors_lookup in Hz as (l & Hl & _).
    destruct (proj1 (Hnodes z)) as [r Hr]; [by eexists|].
    exists r. split; [done|]. by destruct (Hex z r Hr).
  - apply Hloop.
  - intros z. apply Hsym.
Qed.

Lemma recommendations_resolve_witness :
  map song_id
    (Api.api_recommendations 2 (run (DeleteSong 1) (init ["a.mp3"; "b.mp3"])))
  = get_similar_songs 2 (run (DeleteSong 1) (init ["a.mp3"; "b.mp3"])).
Proof.
  exact (proj1 (recommendations_resolve 2 _
                  (keeping_ids_run (DeleteSong 1) _ I
                     (keeping_ids_init ["a.mp3"; "b.mp3"])))).
Defined.

(** ** The served application *)

Lemma get_next_song_playlists (rnd : Random) (current : option Z)
    (playlist : option string) (m : Manager) :
  playlists (get_next_song rnd current playlist m).2 = playlists m.
Proof.
  unfold get_next_song.
  destruct (playlist_step _ _ _ _); [done|]. cbn zeta.
  destruct (dequeue_song m).1; [done|].
  by destruct (match current with Some _ => _ | None => _ end).
Qed.

Lemma get_previous_song_playlists (current : option Z)
    (playlist : option string) (m : Manager) :
  playlists (get_previous_song current playlist m).2 = playlists m.
Proof.
  unfold get_previous_song.
  destruct (playlist_step _ _ _ _); [done|]. cbn zeta.
  destruct (Stack.pop (history m)).1; [|done].
  by destruct (_ && _).
Qed.

Lemma update_song_playlists (id : Z) (fields : SongFields) (m : Manager) :
  playlists (update_song id fields m) = playlists m.
Proof.
  unfold update_song. destruct (_song_index m !! id); [|done]. cbn zeta.
  by repeat case_bool_decide.
Qed.

Lemma rescan_playlists (listing : list string) (m : Manager) :
  playlists (rescan listing m) = playlists m.
Proof.
  unfold rescan. set (m0 := mkManager _ _ _ _ _ _ _ _ _ _).
  destruct (load_files_heap (media_files listing) m0) as (_ & _ & _ & _ & Hp).
  cbn zeta in Hp. cbn [playlists with_graph]. by rewrite Hp.
Qed.

Lemma serve_playlists (q : Api.request) (m : Manager) :
  playlists m = ∅ → playlists (Api.serve q m) = ∅.
Proof.
  intros Hm. destruct q; cbn [Api.serve].
  - unfold Api.api_play. by destruct (get_song_by_id id m).
  - unfold Api.api_queue_add, enqueue_song. cbn.
    by destruct (get_song_by_id id m).
  - unfold Api.api_next. cbn zeta.
    pose proof (get_next_song_playlists rnd current playlist m) as H.
    by destruct (get_next_song rnd current playlist m).1; cbn; rewrite H.
  - unfold Api.api_prev. cbn zeta.
    pose proof (get_previous_song_playlists current playlist m) as H.
    by destruct (get_previous_song current playlist m).1; cbn; rewrite H.
  - unfold Api.admin_edit_song. by rewrite update_song_playlists.
  - unfold Api.admin_delete_song, delete_song.
    destruct (_song_index m !! id); [|done]. cbn. rewrite Hm.
    apply fmap_empty.
  - unfold Api.admin_rescan. by rewrite rescan_playlists.
Qed.

Lemma served_playlists (m : Manager) : Api.served m → playlists m = ∅.
Proof.
  induction 1; [|by apply serve_playlists].
  unfold init. by rewrite rescan_playlists.
Qed.

Lemma served_reachable (m : Manager) :
  Api.served m → reachable_keeping_ids m.
Proof.
  induction 1 as [listing|q m _ IH]; [apply keeping_ids_init|].
  destruct q as [id|id|rnd current playlist|current playlist
                |id t ar al g y|id|listing]; simpl.
  - unfold Api.api_play. destruct (get_song_by_id id m) as [s|]; [|done].
    apply (keeping_ids_run (RecordPlay s) m I IH).
  - apply (keeping_ids_run (EnqueueSong id) m I IH).
  - unfold Api.api_next. cbn zeta.
    pose proof (keeping_ids_run (GetNextSong rnd current playlist) m I IH)
      as Hstep. cbn [run] in Hstep.
    destruct (get_next_song rnd current playlist m).1 as [s|]; [|done].
    apply (keeping_ids_run (RecordPlay s) _ I Hstep).
  - unfold Api.api_prev. cbn zeta.
    pose proof (keeping_ids_run (GetPreviousSong current playlist) m I IH)
      as Hstep. cbn [run] in Hstep.
    destruct (get_previous_song current playlist m).1 as [s|]; [|done].
    apply (keeping_ids_run (RecordPlay s) _ I Hstep).
  - apply (keeping_ids_run
             (UpdateSong id
                (mkFields None t ar al g y None None None None))
             m eq_refl IH).
  - apply (keeping_ids_run (DeleteSong id) m I IH).
  - apply (keeping_ids_run (Rescan listing) m I IH).
Qed.

Lemma playlist_step_no_playlists
    (step : (loc → Z) → Z → Playlist.t loc → option loc)
    (current : option Z) (playlist : option string) (m : Manager) :
  playlists m = ∅ → playlist_step step current playlist m = None.
Proof.
  intros Hm. unfold playlist_step. destruct playlist, current; try done.
  rewrite Hm, lookup_empty. by destruct (_ && _).
Qed.

(** X29. The HTTP shell never creates a playlist: the served application
    has none in any state, so [/api/next] and [/api/prev] answer and leave
    the state exactly as if no playlist name had been passed. *)
Theorem served_ignores_playlist (rnd : Random) (current : option Z)
    (playlist : option string) (m : Manager) :
  Api.served m →
  playlists m = ∅
  ∧ Api.api_next rnd current playlist m = Api.api_next rnd current None m
  ∧ Api.api_prev current playlist m = Api.api_prev current None m.
Proof.
  intros Hm%served_playlists. split; [done|].
  unfold Api.api_next, Api.api_prev, get_next_song, get_previous_song.
  by rewrite !playlist_step_no_playlists.
Qed.

Lemma served_ignores_playlist_witness :
  playlists (Api.serve (Api.QueueAdd 1) (init ["a.mp3"; "b.mp3"])) = ∅.
Proof.
  exact (proj1 (served_ignores_playlist (mkRandom id 0 0) (Some 1%Z)
                  (Some "mix") _
                  (Api.served_request (Api.QueueAdd 1) _
                     (Api.served_start ["a.mp3"; "b.mp3"])))).
Defined.

(** X30. In the served application the song listing and the lookup by id
    agree: [/api/songs/{id}] answers with a song exactly when [/api/songs]
    lists that song under that id, and with 404 exactly when no listed song
    carries the id. *)
Theorem served_song_lookup (m : Manager) :
  Api.served m →
  (∀ id s, Api.api_song id m = Api.Ok s
           ↔ s ∈ Api.api_songs m ∧ song_id s = id)
  ∧ (∀ id, Api.api_song id m = Api.HttpError 404 "Song not found"
           ↔ id ∉ map song_id (Api.api_songs m)).
Proof.
  intros Hc%served_reachable%reachable_keeping_ids_consistent.
  pose proof (λ id r, consistent_index m id r Hc) as Hidx.
  destruct Hc as (Hex & _ & Hli & _).
  assert (Hlisted : ∀ r, r ∈ library m → _song_index m !! sid m r = Some r).
  { intros r (i & Hi)%Hli. destruct (Hex i r Hi) as [_ Hs].
    cbn beta in Hs. by rewrite Hs. }
  unfold Api.api_song, Api.api_songs, Api.to_dict, get_song_by_id,
    get_all_songs, SinglyLinkedList.to_list.
  split.
  - intros id s. split.
    + destruct (_song_index m !! id) as [r|] eqn:E; [|done].
      intros [= <-]. destruct (Hidx id r E) as (Hr & Hs & _).
      split; [|done]. apply list_elem_of_fmap. by exists r.
    + intros [(r & -> & Hr)%list_elem_of_fmap <-].
      fold (sid m r). by rewrite (Hlisted r Hr).
  - intros id. split.
    + destruct (_song_index m !! id) as [r|] eqn:E; [done|]. intros _.
      intros (s & -> & (r & -> & Hr)%list_elem_of_fmap)%list_elem_of_fmap.
      fold (sid m r) in E. by rewrite (Hlisted r Hr) in E.
    + intros Hid. destruct (_song_index m !! id) as [r|] eqn:E; [|done].
      destruct (Hidx id r E) as (Hr & Hs & _). destruct Hid.
      apply list_elem_of_fmap. exists (deref m r). split; [done|].
      apply list_elem_of_fmap. by exists r.
Qed.

Lemma served_song_lookup_witness :
  Api.api_song 1 (Api.serve (Api.Delete 1) (init ["a.mp3"; "b.mp3"]))
  = Api.HttpError 404 "Song not found".
Proof.
  refine (proj2 (proj2 (served_song_lookup _
                          (Api.served_request (Api.Delete 1) _
                             (Api.served_start ["a.mp3"; "b.mp3"]))) 1%Z) _).
  apply (bool_decide_unpack _). vm_compute. exact I.
Defined.
